(** * FM-8/R: note utilities, WAV writer, parameter locks and step scheduling

    A shallow embedding of the parts of the FM-8/R sound module that its
    specification makes checkable statements about:

    - [Utils]     : [utils.ts]   (note name <-> MIDI pitch conversion)
    - [WavUtils]  : [wavUtils.ts] (32-bit float RIFF/WAVE container writer)
    - [Engine]    : the [AudioEngine] class of [App.tsx] (parameter-lock
                    resolution, feedback gains, Poly filter-envelope amount)
    - [Sequencer] : [scheduleNotes] and [handleExportWav] of [App.tsx]

    Conventions.  A JavaScript [number] that is only ever an integer is a [Z];
    where the code can produce [NaN] the result type says so.  Control values
    (knob positions, gains, times) are exact rationals [Q]: rounding of IEEE
    doubles is not modelled.  Strings are [string]s of 8-bit characters. *)

From Stdlib Require Import ZArith QArith Qround Qminmax Lia Lqa DecimalString Ascii String.
From stdpp Require Import gmap strings list fin_maps.

Open Scope Z_scope.

(* ===================================================================== *)
(** * utils.ts *)
(* ===================================================================== *)

Module Utils.

(** The result of [noteNameToMidi] is a JavaScript number that is either an
    integer or [NaN] ([parseInt] of a non-digit). *)
Inductive jsnum : Type :=
| Int (z : Z)
| NaN.

Definition jsadd (a b : jsnum) : jsnum :=
  match a, b with
  | Int x, Int y => Int (x + y)
  | _, _ => NaN
  end.

Definition jsmul (a b : jsnum) : jsnum :=
  match a, b with
  | Int x, Int y => Int (x * y)
  | _, _ => NaN
  end.

(** ** String primitives used by the conversion *)

(** [s.slice(-1)]: the last character (the whole string when it is shorter). *)
Fixpoint slice_last (s : string) : string :=
  match s with
  | EmptyString => EmptyString
  | String c rest =>
      match rest with
      | EmptyString => String c EmptyString
      | String _ _ => slice_last rest
      end
  end.

(** [s.slice(0, -1)]: everything but the last character. *)
Fixpoint slice_init (s : string) : string :=
  match s with
  | EmptyString => EmptyString
  | String c rest =>
      match rest with
      | EmptyString => EmptyString
      | String _ _ => String c (slice_init rest)
      end
  end.

(** [toUpperCase] on the letters a-z.  Characters above 127 are left alone:
    no upper-casing of such a character yields one of [A]..[G] or [#], so the
    [indexOf] below is not affected. *)
Definition upper_char (c : ascii) : ascii :=
  let n := nat_of_ascii c in
  if ((97 <=? n) && (n <=? 122))%nat then ascii_of_nat (n - 32) else c.

Fixpoint toUpperCase (s : string) : string :=
  match s with
  | EmptyString => EmptyString
  | String c rest => String (upper_char c) (toUpperCase rest)
  end.

Definition is_space (c : ascii) : bool :=
  let n := nat_of_ascii c in
  ((n =? 32) || (n =? 9) || (n =? 10) || (n =? 11) || (n =? 12) || (n =? 13)
   || (n =? 160))%nat.

Definition digit_of (c : ascii) : option Z :=
  let n := nat_of_ascii c in
  if ((48 <=? n) && (n <=? 57))%nat then Some (Z.of_nat (n - 48)) else None.

Fixpoint skip_spaces (s : string) : string :=
  match s with
  | String c rest => if is_space c then skip_spaces rest else s
  | EmptyString => EmptyString
  end.

(** The longest prefix of decimal digits, accumulated left to right; [None]
    when there is no digit at all. *)
Fixpoint read_digits (acc : option Z) (s : string) : option Z :=
  match s with
  | String c rest =>
      match digit_of c with
      | Some d => read_digits (Some (10 * default 0 acc + d)) rest
      | None => acc
      end
  | EmptyString => acc
  end.

(** [parseInt(s, 10)]: leading white space, an optional sign, then digits;
    [NaN] when no digit follows. *)
Definition parseInt (s : string) : jsnum :=
  match skip_spaces s with
  | String "-"%char rest =>
      match read_digits None rest with Some n => Int (- n) | None => NaN end
  | String "+"%char rest =>
      match read_digits None rest with Some n => Int n | None => NaN end
  | t => match read_digits None t with Some n => Int n | None => NaN end
  end.

(** [arr.indexOf(x)]: first position of [x], or [-1]. *)
Fixpoint indexOf_from (i : Z) (l : list string) (x : string) : Z :=
  match l with
  | [] => -1
  | y :: tl => if String.eqb y x then i else indexOf_from (i + 1) tl x
  end.

Definition indexOf (l : list string) (x : string) : Z := indexOf_from 0 l x.

(** Template-literal rendering of an integer. *)
Definition string_of_Z (z : Z) : string := NilZero.string_of_int (Z.to_int z).

(** ** The three exported functions *)

Definition NOTE_NAMES : list string :=
  ["C"; "C#"; "D"; "D#"; "E"; "F"; "F#"; "G"; "G#"; "A"; "A#"; "B"]%string.

Definition midiToNoteName (midi : Z) : string :=
  if (midi <? 0) || (127 <? midi) then "---"%string
  else
    let octave := midi / 12 - 1 in
    let noteIndex := Z.rem midi 12 in
    (default "undefined"%string (NOTE_NAMES !! Z.to_nat noteIndex)
       +:+ string_of_Z octave)%string.

(** Nothing in the body of the [try] throws, so the [catch] arm is not
    reachable and has no counterpart here. *)
Definition noteNameToMidi (name : string) : jsnum :=
  if (String.length name <? 2)%nat then Int 60
  else
    let octave := parseInt (slice_last name) in
    let noteStr := toUpperCase (slice_init name) in
    let noteIndex := indexOf NOTE_NAMES noteStr in
    if noteIndex =? -1 then Int 60
    else jsadd (jsmul (jsadd octave (Int 1)) (Int 12)) (Int noteIndex).

(** A frequency is kept symbolic: [Hz m] stands for
    [440 * Math.pow(2, (m - 69) / 12)], and [HzNaN] for the [NaN] that
    [Math.pow] returns on a [NaN] exponent. *)
Inductive hz : Type :=
| Hz (midiNote : Z)
| HzNaN.

Definition noteToFreq (note : string) : hz :=
  match noteNameToMidi note with
  | Int midiNote => Hz midiNote
  | NaN => HzNaN
  end.

(** ** Auxiliary definitions for checking a property on an interval *)

(** The integers [lo], [lo + 1], ..., [lo + n - 1]. *)
Definition Zrange (lo : Z) (n : nat) : list Z :=
  List.map (fun k => lo + Z.of_nat k) (List.seq 0 n).

Definition jsnum_eqb (a b : jsnum) : bool :=
  match a, b with
  | Int x, Int y => x =? y
  | NaN, NaN => true
  | _, _ => false
  end.

(** A string of ASCII characters only (codes below 128).  On such a string
    [String.prototype.toUpperCase] is the map of [upper_char] over the
    characters; beyond ASCII it is not (it turns one character into several,
    or into a character above 255). *)
Definition isAscii (s : string) : bool :=
  List.forallb (fun c => (nat_of_ascii c <? 128)%nat) (list_ascii_of_string s).

End Utils.

(* ===================================================================== *)
(** * wavUtils.ts *)
(* ===================================================================== *)

Module WavUtils.

(** An [ArrayBuffer] seen through a [DataView] is a list of bytes, each a [Z]
    in [0, 255].  A write outside the buffer throws a [RangeError]; a throw is
    [None]. *)

(** The [n] low-order bytes of [v], least significant first.  The [DataView]
    setters reduce their argument modulo [2^(8n)]. *)
Fixpoint le_bytes (n : nat) (v : Z) : list Z :=
  match n with
  | O => []
  | S k => v mod 256 :: le_bytes k (v / 256)
  end.

Definition write_at (view : list Z) (offset : nat) (bs : list Z) : option (list Z) :=
  if (offset + length bs <=? length view)%nat
  then Some (take offset view ++ bs ++ drop (offset + length bs) view)
  else None.

Definition setUint8 (view : list Z) (offset : nat) (value : Z) : option (list Z) :=
  write_at view offset (le_bytes 1 value).

(** [dataView.setUint16(offset, value, true)] *)
Definition setUint16 (view : list Z) (offset : nat) (value : Z) : option (list Z) :=
  write_at view offset (le_bytes 2 value).

(** [dataView.setUint32(offset, value, true)] *)
Definition setUint32 (view : list Z) (offset : nat) (value : Z) : option (list Z) :=
  write_at view offset (le_bytes 4 value).

(** [view.setFloat32(offset, x, true)].  A sample read from a [Float32Array]
    is a 32-bit float already, so it is carried as its 32-bit pattern and the
    setter stores that pattern. *)
Definition setFloat32 (view : list Z) (offset : nat) (bits : Z) : option (list Z) :=
  write_at view offset (le_bytes 4 bits).

Definition charCode (c : ascii) : Z := Z.of_nat (nat_of_ascii c).

(** The loop of [writeString], from index [i] on. *)
Fixpoint writeString_from (view : list Z) (offset i : nat) (str : string)
  : option (list Z) :=
  match str with
  | EmptyString => Some view
  | String c rest =>
      view' ← setUint8 view (offset + i) (charCode c);
      writeString_from view' offset (S i) rest
  end.

Definition writeString (view : list Z) (offset : nat) (str : string)
  : option (list Z) :=
  writeString_from view offset 0 str.

(** The fields of an [AudioBuffer] the writer reads.  [channelData] holds what
    [getChannelData(i)] returns, as 32-bit patterns. *)
Record AudioBuffer : Type := {
  numberOfChannels : nat;
  sampleRate : Z;
  length : nat;
  channelData : list (list Z)
}.

(** [getChannelData(i)] throws for a channel the buffer does not have. *)
Definition getChannelData (buffer : AudioBuffer) (i : nat) : option (list Z) :=
  channelData buffer !! i.

(** Bit pattern of the [NaN] that [setFloat32] stores for [undefined]. *)
Definition nan_bits : Z := 0x7fc00000.

(** [channels.push(buffer.getChannelData(i))] for [i] from [i0]. *)
Fixpoint collect_channels (buffer : AudioBuffer) (i0 n : nat)
  : option (list (list Z)) :=
  match n with
  | O => Some []
  | S k =>
      ch ← getChannelData buffer i0;
      rest ← collect_channels buffer (S i0) k;
      Some (ch :: rest)
  end.

(** The inner loop, over [j], of the sample writer: state is the view and the
    running [offset].  [channels[j][i]] throws when [channels[j]] is missing
    and is [undefined], stored as [NaN], when frame [i] is. *)
Fixpoint write_frame (channels : list (list Z)) (i : nat) (j n : nat)
  (st : list Z * nat) : option (list Z * nat) :=
  match n with
  | O => Some st
  | S k =>
      let '(view, offset) := st in
      ch ← channels !! j;
      let sample := default nan_bits (ch !! i) in
      view' ← setFloat32 view offset sample;
      write_frame channels i (S j) k (view', (offset + 4)%nat)
  end.

(** The outer loop, over [i]. *)
Fixpoint write_frames (channels : list (list Z)) (numChannels : nat)
  (i n : nat) (st : list Z * nat) : option (list Z * nat) :=
  match n with
  | O => Some st
  | S k =>
      st' ← write_frame channels i 0 numChannels st;
      write_frames channels numChannels (S i) k st'
  end.

Definition audioBufferToWav (buffer : AudioBuffer) : option (list Z) :=
  let numChannels := Z.of_nat (numberOfChannels buffer) in
  let sampleRate := sampleRate buffer in
  let numSamples := Z.of_nat (length buffer) in
  let bitsPerSample := 32 in
  let audioFormat := 3 in
  let dataSize := numChannels * numSamples * (bitsPerSample / 8) in
  let blockAlign := numChannels * (bitsPerSample / 8) in
  let byteRate := sampleRate * blockAlign in
  let headerSize := 44 in
  let bufferSize := headerSize + dataSize in
  let view := replicate (Z.to_nat bufferSize) 0 in
  view ← writeString view 0 "RIFF";
  view ← setUint32 view 4 (36 + dataSize);
  view ← writeString view 8 "WAVE";
  view ← writeString view 12 "fmt ";
  view ← setUint32 view 16 16;
  view ← setUint16 view 20 audioFormat;
  view ← setUint16 view 22 numChannels;
  view ← setUint32 view 24 sampleRate;
  view ← setUint32 view 28 byteRate;
  view ← setUint16 view 32 blockAlign;
  view ← setUint16 view 34 bitsPerSample;
  view ← writeString view 36 "data";
  view ← setUint32 view 40 dataSize;
  channels ← collect_channels buffer 0 (numberOfChannels buffer);
  st ← write_frames channels (numberOfChannels buffer) 0 (length buffer) (view, 44%nat);
  Some (fst st).

(** *** Reading the container back (used to state the layout) *)

Fixpoint le_value (bs : list Z) : Z :=
  match bs with
  | [] => 0
  | b :: tl => b + 256 * le_value tl
  end.

Definition bytes_at (out : list Z) (offset n : nat) : list Z :=
  take n (drop offset out).

Definition uint_at (out : list Z) (offset n : nat) : Z :=
  le_value (bytes_at out offset n).

Definition ascii_bytes (s : string) : list Z :=
  List.map charCode (list_ascii_of_string s).

(** Frame-interleaved payload: frame 0 of every channel, then frame 1, ... *)
Definition frame_bytes (channels : list (list Z)) (i : nat) : list Z :=
  List.flat_map (fun ch => le_bytes 4 (default nan_bits (ch !! i))) channels.

Definition interleaved (buffer : AudioBuffer) : list Z :=
  List.flat_map (frame_bytes (channelData buffer)) (List.seq 0 (length buffer)).

(** An [AudioBuffer] has [numberOfChannels] channels of [length] frames. *)
Definition wf_buffer (buffer : AudioBuffer) : Prop :=
  List.length (channelData buffer) = numberOfChannels buffer /\
  Forall (fun ch => List.length ch = length buffer) (channelData buffer).

(** The header has 16-bit and 32-bit fields; the quantities written into
    them are representable. *)
Definition header_fits (buffer : AudioBuffer) : Prop :=
  let C := Z.of_nat (numberOfChannels buffer) in
  let F := Z.of_nat (length buffer) in
  0 <= sampleRate buffer < 2 ^ 32 /\
  C * 4 < 2 ^ 16 /\
  sampleRate buffer * (C * 4) < 2 ^ 32 /\
  36 + C * F * 4 < 2 ^ 32.

(** The sample read by the inner loop at channel [j], frame [i]. *)
Definition sample_at (channels : list (list Z)) (i j : nat) : Z :=
  default nan_bits (default [] (channels !! j) !! i).

(** The 44 header bytes in the order of the RIFF/WAVE layout, for [C]
    channels, sample rate [R] and [F] frames. *)
Definition wav_header (C R F : Z) : list Z :=
  ascii_bytes "RIFF" ++ le_bytes 4 (36 + C * F * 4) ++ ascii_bytes "WAVE"
  ++ ascii_bytes "fmt " ++ le_bytes 4 16 ++ le_bytes 2 3 ++ le_bytes 2 C
  ++ le_bytes 4 R ++ le_bytes 4 (R * (C * 4)) ++ le_bytes 2 (C * 4)
  ++ le_bytes 2 32 ++ ascii_bytes "data" ++ le_bytes 4 (C * F * 4).

(** A stereo buffer of two frames at 44.1 kHz. *)
Definition stereo_two_frames : AudioBuffer :=
  {| numberOfChannels := 2; sampleRate := 44100; length := 2;
     channelData := [[0x3f800000; 0xbf800000]; [0x3f000000; 0]] |}.

(** A mono buffer of one frame whose rate is [2^32] above 44.1 kHz. *)
Definition overRateBuffer : AudioBuffer :=
  {| numberOfChannels := 1; sampleRate := 4294967296 + 44100; length := 1;
     channelData := [[0x3f800000]] |}.

End WavUtils.

(* ===================================================================== *)
(** * types.ts *)
(* ===================================================================== *)

Module Types.

Inductive Waveform : Type := sine | square | sawtooth | triangle.
Inductive FilterType : Type := lowpass | highpass | bandpass.

Record Envelope : Type := {
  attack : Q;
  decay : Q;
  sustain : Q;
  release : Q
}.

(** [envAmount] is not part of the declared interface: the Poly voice reads
    it through an [any] cast from filter locks written by older versions. *)
Record FilterParams : Type := {
  filter_type : FilterType;
  cutoff : Q;
  resonance : Q;
  envAmount : option Q
}.

Record LFOParams : Type := {
  lfo_waveform : Waveform;
  rate : Q;
  depth : Q;
  destination : string
}.

Record OscillatorParams : Type := {
  osc_waveform : Waveform;
  octave : Q;
  detune : Q
}.

(** What a top-level key of a parameter object can hold: a number, an
    enumeration tag, or one of the nested sub-records. *)
Inductive value : Type :=
| VNum (q : Q)
| VWaveform (w : Waveform)
| VFilter (f : FilterParams)
| VEnvelope (e : Envelope)
| VOsc (o : OscillatorParams)
| VLfo (l : LFOParams).

Inductive TrackType : Type :=
  kick | hat | poly | bass | modal | rift | grain | scream.

(** [KickParams] ... [ScreamParams] and their [Partial<>] forms are objects
    keyed by field name, so that the object spread of the voices is map union.
    [FXSends] and [Partial<FXSends>] likewise, with numbers as values.
    The lock's own [volume] and [fxSends] carry the prefix [lock_]. *)
Record PLocks : Type := {
  kickParams : option (gmap string value);
  hatParams : option (gmap string value);
  polyParams : option (gmap string value);
  bassParams : option (gmap string value);
  modalParams : option (gmap string value);
  riftParams : option (gmap string value);
  grainParams : option (gmap string value);
  screamParams : option (gmap string value);
  lock_volume : option Q;
  lock_fxSends : option (gmap string Q)
}.

Record StepState : Type := {
  active : bool;
  pLocks : option PLocks;
  note : option string;
  velocity : Q
}.

Record Track : Type := {
  id : Z;
  name : string;
  type : TrackType;
  params : gmap string value;
  fxSends : gmap string Q;
  volume : Q;
  patternLength : Z;
  defaultNote : string;
  steps : list StepState
}.

Record DelayParams : Type := {
  time : Q;
  feedback : Q;
  mix : Q;
  timeSync : bool;
  timeDivision : Q
}.

Definition TrackType_eqb (a b : TrackType) : bool :=
  match a, b with
  | kick, kick | hat, hat | poly, poly | bass, bass
  | modal, modal | rift, rift | grain, grain | scream, scream => true
  | _, _ => false
  end.

End Types.

(* ===================================================================== *)
(** * App.tsx: the AudioEngine class *)
(* ===================================================================== *)

Module Engine.
Import Types.

(** [{ ...base, ...over }] *)
Definition spread {V : Type} (base over : gmap string V) : gmap string V :=
  over ∪ base.

(** [pLocks?.kickParams], [pLocks?.hatParams], ... by kind. *)
Definition kindParams (ty : TrackType) (l : PLocks) : option (gmap string value) :=
  match ty with
  | kick => kickParams l
  | hat => hatParams l
  | poly => polyParams l
  | bass => bassParams l
  | modal => modalParams l
  | rift => riftParams l
  | grain => grainParams l
  | scream => screamParams l
  end.

(** The first three statements of every [create...Voice]:
<<
    const params  = { ...track.params,  ...(pLocks?.kickParams || {}) };
    const fxSends = { ...track.fxSends, ...(pLocks?.fxSends || {}) };
    const volume  = pLocks?.volume ?? track.volume;
>> *)
Definition resolveParams (ty : TrackType) (track : Track) (pl : option PLocks)
  : gmap string value :=
  spread (params track) (default ∅ (pl ≫= kindParams ty)).

Definition resolveFxSends (track : Track) (pl : option PLocks) : gmap string Q :=
  spread (fxSends track) (default ∅ (pl ≫= lock_fxSends)).

Definition resolveVolume (track : Track) (pl : option PLocks) : Q :=
  default (volume track) (pl ≫= lock_volume).

(** Reading a number out of a destructured parameter object; [None] is
    [undefined], which arithmetic turns into [NaN]. *)
Definition num (o : gmap string value) (k : string) : option Q :=
  match o !! k with
  | Some (VNum q) => Some q
  | _ => None
  end.

(** A triggered voice: what the graph is built from, and the gain written to
    [trackOut]. *)
Record Voice : Type := {
  v_type : TrackType;
  v_params : gmap string value;
  v_fxSends : gmap string Q;
  v_volume : Q;
  v_time : Q;
  v_note : option string;
  v_trackOutGain : Q
}.

(** The part shared by the eight [create...Voice] methods: the guard on the
    kind, the resolution, and [trackOut.gain.value = volume * velocity]
    (times [0.8] in the Scream voice, passed as [trim]). *)
Definition createVoice (ty : TrackType) (trim : Q) (track : Track)
  (pl : option PLocks) (time : Q) (noteString : option string) (velocity : Q)
  : option Voice :=
  if negb (TrackType_eqb (type track) ty) then None
  else
    let params := resolveParams ty track pl in
    let fxSends := resolveFxSends track pl in
    let volume := resolveVolume track pl in
    Some {| v_type := ty; v_params := params; v_fxSends := fxSends;
            v_volume := volume; v_time := time; v_note := noteString;
            v_trackOutGain := (volume * velocity * trim)%Q |}.

Definition createKickVoice track pl time (noteString : string) velocity :=
  createVoice kick 1 track pl time (Some noteString) velocity.
Definition createHatVoice track pl time velocity :=
  createVoice hat 1 track pl time None velocity.
Definition createPolyVoice track pl time (noteString : string) velocity :=
  createVoice poly 1 track pl time (Some noteString) velocity.
Definition createBassVoice track pl time (noteString : string) velocity :=
  createVoice bass 1 track pl time (Some noteString) velocity.
Definition createModalVoice track pl time (noteString : string) velocity :=
  createVoice modal 1 track pl time (Some noteString) velocity.
Definition createRiftVoice track pl time (noteString : string) velocity :=
  createVoice rift 1 track pl time (Some noteString) velocity.
Definition createGrainVoice track pl time (noteString : string) velocity :=
  createVoice grain 1 track pl time (Some noteString) velocity.
Definition createScreamVoice track pl time (noteString : string) velocity :=
  createVoice scream 0.8 track pl time (Some noteString) velocity.

Definition trigger (track : Track) (pl : option PLocks) (time : Q)
  (note : string) (velocity : Q) : option Voice :=
  match type track with
  | kick => createKickVoice track pl time note velocity
  | hat => createHatVoice track pl time velocity
  | poly => createPolyVoice track pl time note velocity
  | bass => createBassVoice track pl time note velocity
  | modal => createModalVoice track pl time note velocity
  | rift => createRiftVoice track pl time note velocity
  | grain => createGrainVoice track pl time note velocity
  | scream => createScreamVoice track pl time note velocity
  end.

(** ** Gains written into the graphs *)

(** [updateDelay]: the three values it schedules on the delay nodes. *)
Record DelayNodes : Type := {
  delayTime : Q;
  delayFeedbackGain : Q;
  delayWetGain : Q
}.

Definition updateDelay (p : DelayParams) (bpm : Q) : DelayNodes :=
  let delayTime := if timeSync p then ((60 / bpm) * timeDivision p)%Q else time p in
  {| delayTime := delayTime;
     delayFeedbackGain := feedback p;
     delayWetGain := mix p |}.

(** Rift: [feedbackGain.gain.value = feedback / 100 * 0.95]. *)
Definition riftFeedbackGain (params : gmap string value) : option Q :=
  fb ← num params "feedback"; Some (fb / 100 * 0.95)%Q.

(** Scream: [feedbackGain.gain.value = Math.min(0.99, feedback / 100)]. *)
Definition screamFeedbackGain (params : gmap string value) : option Q :=
  fb ← num params "feedback"; Some (Qmin 0.99 (fb / 100))%Q.

(** Kick: inside [if (rumbleAmount > 0)], [duckingAmount.gain.value = 1.0];
    without rumble there is no ducking node.  The ducking node sits between
    the rumble filter and the mixer; nothing is routed back from it. *)
Definition kickDuckingGain (params : gmap string value) : option Q :=
  match num params "rumbleAmount" with
  | Some r => if Qlt_le_dec 0 r then Some 1%Q else None
  | None => None
  end.

(** ** The filter-envelope amount of the Poly voice
<<
    const filterEnvAmount =
      (pLocks?.polyParams?.filter as any)?.envAmount
        ?? params.filterEnv.attack > 0 ? 3000 : 0;
>>
    [>] binds tighter than [??], and [??] tighter than [? :], so the
    conditional tests [(envAmount ?? (attack > 0))]. *)

(** [(v as any)?.envAmount]: only a filter sub-record has the field. *)
Definition legacyEnvAmount (pl : option PLocks) : option Q :=
  lock ← pl;
  o ← polyParams lock;
  v ← (o : gmap string value) !! "filter"%string;
  match v with VFilter f => envAmount f | _ => None end.

(** [x.attack] for a value [x]: [undefined] unless [x] is an envelope. *)
Definition attackOf (v : value) : option Q :=
  match v with VEnvelope e => Some (attack e) | _ => None end.

(** [x > 0], false on [undefined]. *)
Definition gt0 (x : option Q) : bool :=
  match x with
  | Some q => if Qlt_le_dec 0 q then true else false
  | None => false
  end.

(** Truthiness of a number. *)
Definition truthy (q : Q) : bool := negb (Qeq_bool q 0).

(** [None] is the [TypeError] of reading [.attack] off a missing
    [filterEnv]; the right operand of [??] is evaluated only when the left is
    nullish. *)
Definition polyFilterEnvAmount (pl : option PLocks) (params : gmap string value)
  : option Q :=
  match legacyEnvAmount pl with
  | Some a => Some (if truthy a then 3000 else 0)%Q
  | None =>
      match params !! "filterEnv"%string with
      | Some fe => Some (if gt0 (attackOf fe) then 3000 else 0)%Q
      | None => None
      end
  end.

(** [if (filterEnvAmount !== 0)] guards the creation of [filterEnvMod]. *)
Definition polyHasFilterEnvelope (amount : Q) : bool := negb (Qeq_bool amount 0).

(** ** The signal graphs, as built by the [connect] calls

    A node is named after the variable that holds it.  An edge [(a, b)] is
    [a.connect(b)], or [a.connect(b.param)] for a connection to one of the
    parameters of [b]. *)

Inductive NodeKind : Type :=
| GainNode | OscillatorNode | BufferSource | BiquadFilter | WaveShaper
| DelayNode | Convolver | Compressor.

Record Graph : Type := {
  nodes : list (string * NodeKind);
  edges : list (string * string)
}.

(** [createKickVoice], with the rumble chain of [if (rumbleAmount > 0)]. *)
Definition kickGraph (rumble : bool) : Graph :=
  {| nodes :=
       [("trackOut", GainNode); ("limiter", Compressor); ("osc", OscillatorNode);
        ("pitchEnv", GainNode); ("amp", GainNode);
        ("transientSource", BufferSource); ("transientFilter", BiquadFilter);
        ("transientAmp", GainNode); ("preSaturatorMix", GainNode);
        ("saturatorDrive", GainNode); ("saturator", WaveShaper);
        ("cleanGain", GainNode); ("saturatedGain", GainNode);
        ("finalMixer", GainNode); ("postMixGain", GainNode);
        ("toneFilter", BiquadFilter); ("mainFilter", BiquadFilter);
        ("mainAndRumbleMixer", GainNode)]%string
       ++ (if rumble then
             [("rumblePreGain", GainNode); ("rumbleReverb", Convolver);
              ("rumbleFilterNode", BiquadFilter); ("ducker", GainNode);
              ("inverter", WaveShaper); ("duckingAmount", GainNode)]%string
           else []);
     edges :=
       [("trackOut", "limiter"); ("pitchEnv", "osc"); ("osc", "amp");
        ("transientSource", "transientFilter");
        ("transientFilter", "transientAmp");
        ("amp", "preSaturatorMix"); ("transientAmp", "preSaturatorMix");
        ("preSaturatorMix", "saturatorDrive"); ("saturatorDrive", "saturator");
        ("amp", "cleanGain"); ("saturator", "saturatedGain");
        ("cleanGain", "finalMixer"); ("saturatedGain", "finalMixer");
        ("finalMixer", "postMixGain"); ("postMixGain", "toneFilter");
        ("toneFilter", "mainFilter"); ("mainFilter", "mainAndRumbleMixer");
        ("mainAndRumbleMixer", "trackOut")]%string
       ++ (if rumble then
             [("postMixGain", "rumblePreGain"); ("rumblePreGain", "rumbleReverb");
              ("rumbleReverb", "rumbleFilterNode"); ("amp", "ducker");
              ("ducker", "inverter"); ("inverter", "duckingAmount");
              ("rumbleFilterNode", "duckingAmount");
              ("duckingAmount", "mainAndRumbleMixer")]%string
           else []) |}.

(** [createRiftVoice] *)
Definition riftGraph : Graph :=
  {| nodes :=
       [("trackOut", GainNode); ("limiter", Compressor); ("osc", OscillatorNode);
        ("folder", WaveShaper); ("driveNode", WaveShaper);
        ("feedbackPath", DelayNode); ("feedbackGain", GainNode);
        ("amp", GainNode); ("mainFilter", BiquadFilter)]%string;
     edges :=
       [("trackOut", "limiter"); ("osc", "amp"); ("amp", "folder");
        ("folder", "driveNode"); ("driveNode", "feedbackPath");
        ("feedbackPath", "feedbackGain"); ("feedbackGain", "folder");
        ("driveNode", "mainFilter"); ("mainFilter", "trackOut")]%string |}.

(** [createScreamVoice] *)
Definition screamGraph : Graph :=
  {| nodes :=
       [("trackOut", GainNode); ("limiter", Compressor);
        ("exciter", BufferSource); ("exciterAmp", GainNode);
        ("feedbackPath", DelayNode); ("feedbackGain", GainNode);
        ("dampingFilter", BiquadFilter); ("mainFilter", BiquadFilter);
        ("amp", GainNode)]%string;
     edges :=
       [("trackOut", "limiter"); ("exciter", "exciterAmp");
        ("exciterAmp", "feedbackPath"); ("feedbackPath", "dampingFilter");
        ("dampingFilter", "feedbackGain"); ("feedbackGain", "feedbackPath");
        ("feedbackGain", "mainFilter"); ("mainFilter", "amp");
        ("amp", "trackOut")]%string |}.

(** The effects bus wired by the constructor. *)
Definition busGraph : Graph :=
  {| nodes :=
       [("masterGain", GainNode); ("preCompressorBus", GainNode);
        ("masterCompressor", Compressor); ("makeupGain", GainNode);
        ("reverbPreDelay", DelayNode); ("reverb", Convolver);
        ("reverbWet", GainNode); ("delay", DelayNode);
        ("delayFeedback", GainNode); ("delayWet", GainNode);
        ("drive", WaveShaper); ("driveTone", BiquadFilter);
        ("driveWet", GainNode)]%string;
     edges :=
       [("preCompressorBus", "masterCompressor");
        ("masterCompressor", "makeupGain"); ("makeupGain", "masterGain");
        ("reverbPreDelay", "reverb"); ("reverb", "reverbWet");
        ("reverbWet", "preCompressorBus");
        ("delay", "delayFeedback"); ("delayFeedback", "delay");
        ("delay", "delayWet"); ("delayWet", "preCompressorBus");
        ("drive", "driveTone"); ("driveTone", "driveWet");
        ("driveWet", "preCompressorBus")]%string |}.

Definition successors (g : Graph) (a : string) : list string :=
  List.map snd (List.filter (fun e => String.eqb (fst e) a) (edges g)).

(** [b] is reached from one of [frontier] along at most [fuel] edges. *)
Fixpoint reaches (g : Graph) (fuel : nat) (frontier : list string) (b : string)
  : bool :=
  List.existsb (String.eqb b) frontier ||
  match fuel with
  | O => false
  | S k => reaches g k (List.flat_map (successors g) frontier) b
  end.

(** A node lies on a feedback loop when it is reached from one of its own
    successors; a path without repetition has fewer edges than there are
    nodes. *)
Definition on_loop (g : Graph) (a : string) : bool :=
  reaches g (List.length (nodes g)) (successors g a) a.

(** The gain nodes that sit on a feedback loop. *)
Definition loopGains (g : Graph) : list string :=
  List.map fst
    (List.filter
       (fun n => match snd n with
                 | GainNode => on_loop g (fst n)
                 | _ => false
                 end)
       (nodes g)).

(** ** Declared domains and sample parameter objects *)

(** The domains declared by the knobs that edit the three feedback
    parameters: [FDBK] of the delay ([min 0, max 0.95]), of Rift
    ([min 0, max 95]) and of Scream ([min 0, max 100]). *)
Definition delayFeedbackDomain (fb : Q) : Prop := (0 <= fb <= 0.95)%Q.
Definition riftFeedbackDomain (fb : Q) : Prop := (0 <= fb <= 95)%Q.
Definition screamFeedbackDomain (fb : Q) : Prop := (0 <= fb <= 100)%Q.

Definition kickParamsWithRumble : gmap string value :=
  {[ "rumbleAmount"%string := VNum 30 ]}.

(** A Poly track with the initial filter and filter envelope. *)
Definition polyDemoTrack : Track :=
  {| id := 2; name := "Poly"; type := poly;
     params :=
       {[ "filter"%string :=
            VFilter {| filter_type := lowpass; cutoff := 4000; resonance := 2;
                       envAmount := None |};
          "filterEnv"%string :=
            VEnvelope {| attack := 0.02; decay := 0.4; sustain := 0;
                         release := 0.4 |};
          "oscMix"%string := VNum 50 ]};
     fxSends := {[ "reverb"%string := 0.4%Q; "delay"%string := 0.5%Q;
                   "drive"%string := 0%Q ]};
     volume := 0.65; patternLength := 16; defaultNote := "C4"; steps := [] |}.

(** A lock of the Poly kind on the whole filter sub-record. *)
Definition highpassLock : PLocks :=
  {| kickParams := None; hatParams := None;
     polyParams :=
       Some {[ "filter"%string :=
                 VFilter {| filter_type := highpass; cutoff := 900;
                            resonance := 5; envAmount := None |} ]};
     bassParams := None; modalParams := None; riftParams := None;
     grainParams := None; screamParams := None;
     lock_volume := Some 0.5%Q; lock_fxSends := None |}.

(** ** The filter-envelope amount as the specification reads it *)

(** The expression read with the parentheses of the specification:
    [envAmount ?? (attack > 0 ? 3000 : 0)]. *)
Definition filterEnvAmount_as_specified (pl : option PLocks)
  (params : gmap string value) : option Q :=
  match legacyEnvAmount pl with
  | Some a => Some a
  | None =>
      match params !! "filterEnv"%string with
      | Some fe => Some (if gt0 (attackOf fe) then 3000 else 0)%Q
      | None => None
      end
  end.

Definition polyBaseParams : gmap string value :=
  {[ "filterEnv"%string :=
       VEnvelope {| attack := 0.02; decay := 0.4; sustain := 0; release := 0.4 |} ]}.

Definition legacyFilterLock (amount : Q) : PLocks :=
  {| kickParams := None; hatParams := None;
     polyParams :=
       Some {[ "filter"%string :=
                 VFilter {| filter_type := lowpass; cutoff := 4000;
                            resonance := 2; envAmount := Some amount |} ]};
     bassParams := None; modalParams := None; riftParams := None;
     grainParams := None; screamParams := None;
     lock_volume := None; lock_fxSends := None |}.

End Engine.

(* ===================================================================== *)
(** * App.tsx: the App component (transport, scheduler, export) *)
(* ===================================================================== *)

Module Sequencer.
Import Types.

(** One call [engine.trigger(track, step.pLocks, time, note, step.velocity)]. *)
Record TriggerCall : Type := {
  tc_track : Track;
  tc_pLocks : option PLocks;
  tc_time : Q;
  tc_note : string;
  tc_velocity : Q
}.

(** [a % b] on integers: the sign of the dividend, [NaN] for [b = 0]. *)
Definition js_rem (a b : Z) : option Z :=
  if b =? 0 then None else Some (Z.rem a b).

(** [arr[i]] for a possibly [NaN] or negative index: [undefined]. *)
Definition js_index {A : Type} (arr : list A) (i : option Z) : option A :=
  match i with
  | Some z => if z <? 0 then None else arr !! Z.to_nat z
  | None => None
  end.

(** [soloedTrackId === null ? !mutedTracks.has(track.id)
                           : track.id === soloedTrackId] *)
Definition isAudible (soloedTrackId : option Z) (mutedTracks : gset Z)
  (track : Track) : bool :=
  match soloedTrackId with
  | None => negb (bool_decide (id track ∈ mutedTracks))
  | Some s => id track =? s
  end.

(** [step.note || track.defaultNote]: the empty string is falsy too. *)
Definition noteOf (step : StepState) (track : Track) : string :=
  match note step with
  | Some n => if String.eqb n "" then defaultNote track else n
  | None => defaultNote track
  end.

(** [60.0 / bpm / 4] *)
Definition stepTime (bpm : Q) : Q := (60 / bpm / 4)%Q.

(** The React state the scheduler reads and writes, with the calls made on
    the engine appended to [triggered]. *)
Record AppState : Type := {
  bpm : Q;
  tracks : list Track;
  mutedTracks : gset Z;
  soloedTrackId : option Z;
  nextNoteTime : Q;
  currentStep : Z;
  triggered : list TriggerCall
}.

(** ** scheduleNotes *)

(** [Math.floor(nextNoteTime.current / stepTime) % 16].  The quotient is
    taken exactly; the doubles of the source give the same step wherever
    the cursor and the step time are binary fractions, as on the step grid
    at 120 bpm. *)
Definition localCurrentStep (bpm nextNoteTime : Q) : Z :=
  Z.rem (Qfloor (nextNoteTime / stepTime bpm)) 16.

(** [localCurrentStep % track.patternLength] *)
Definition localStepIndex (bpm nextNoteTime : Q) (track : Track) : option Z :=
  js_rem (localCurrentStep bpm nextNoteTime) (patternLength track).

(** The body of [tracks.forEach] in [scheduleNotes]. *)
Definition scheduleTrack (st : AppState) (track : Track) : list TriggerCall :=
  if negb (isAudible (soloedTrackId st) (mutedTracks st) track) then []
  else
    let localStepIndex := localStepIndex (bpm st) (nextNoteTime st) track in
    match js_index (steps track) localStepIndex with
    | Some step =>
        if active step then
          [ {| tc_track := track; tc_pLocks := pLocks step;
               tc_time := nextNoteTime st; tc_note := noteOf step track;
               tc_velocity := velocity step |} ]
        else []
    | None => []
    end.

(** One pass through the body of the [while] loop. *)
Definition scheduleStep (st : AppState) : AppState :=
  {| bpm := bpm st; tracks := tracks st; mutedTracks := mutedTracks st;
     soloedTrackId := soloedTrackId st;
     nextNoteTime := (nextNoteTime st + stepTime (bpm st))%Q;
     currentStep := localCurrentStep (bpm st) (nextNoteTime st);
     triggered := triggered st ++ List.flat_map (scheduleTrack st) (tracks st) |}.

Definition scheduleAheadTime : Q := 0.1.

(** The [while] loop, bounded by [fuel] passes; [None] when the bound is
    reached with the window not yet drained. *)
Fixpoint scheduleNotes (fuel : nat) (currentContextTime : Q) (st : AppState)
  : option AppState :=
  if Qlt_le_dec (nextNoteTime st) (currentContextTime + scheduleAheadTime)
  then match fuel with
       | O => None
       | S k => scheduleNotes k currentContextTime (scheduleStep st)
       end
  else Some st.

(** ** handleExportWav *)

(** The body of [tracks.forEach] in the export loop, at step counter [i]. *)
Definition exportTrack (st : AppState) (i : Z) (track : Track) : list TriggerCall :=
  if negb (isAudible (soloedTrackId st) (mutedTracks st) track) then []
  else
    let stepIndex := js_rem i (patternLength track) in
    match js_index (steps track) stepIndex with
    | Some step =>
        if active step then
          [ {| tc_track := track; tc_pLocks := pLocks step;
               tc_time := (inject_Z i * stepTime (bpm st))%Q;
               tc_note := noteOf step track;
               tc_velocity := velocity step |} ]
        else []
    | None => []
    end.

(** The calls of one iteration of [for (let i = 0; i < numSteps; i++)]. *)
Definition exportStep (st : AppState) (i : Z) : list TriggerCall :=
  List.flat_map (exportTrack st i) (tracks st).

(** The whole loop, [numSteps] iterations from [i = 0]. *)
Definition exportSteps (st : AppState) (numSteps : nat) : list TriggerCall :=
  List.flat_map (fun k => exportStep st (Z.of_nat k)) (List.seq 0 numSteps).

(** ** handleParamChange in parameter-lock mode
<<
    const pLocks = currentStep.pLocks || {};
    const newPLocks = { ...pLocks,
      [trackParamsKey]: { ...(pLocks[trackParamsKey] || {}), [param]: value } };
    newSteps[stepIndex] = { ...currentStep, pLocks: newPLocks };
    return { ...track, steps: newSteps };
>> *)

Definition emptyPLocks : PLocks :=
  {| kickParams := None; hatParams := None; polyParams := None;
     bassParams := None; modalParams := None; riftParams := None;
     grainParams := None; screamParams := None;
     lock_volume := None; lock_fxSends := None |}.

Definition setKindParams (ty : TrackType) (o : gmap string value) (l : PLocks)
  : PLocks :=
  let upd (k : TrackType) (old : option (gmap string value)) :=
    if TrackType_eqb k ty then Some o else old in
  {| kickParams := upd kick (kickParams l); hatParams := upd hat (hatParams l);
     polyParams := upd poly (polyParams l); bassParams := upd bass (bassParams l);
     modalParams := upd modal (modalParams l); riftParams := upd rift (riftParams l);
     grainParams := upd grain (grainParams l);
     screamParams := upd scream (screamParams l);
     lock_volume := lock_volume l; lock_fxSends := lock_fxSends l |}.

(** [None] is the [TypeError] of reading [.pLocks] off a step that does not
    exist. *)
Definition lockParam (track : Track) (stepIndex : nat) (param : string)
  (v : value) : option Track :=
  currentStep ← steps track !! stepIndex;
  let pLocks0 := default emptyPLocks (pLocks currentStep) in
  let newPLocks :=
    setKindParams (type track)
      (<[param := v]> (default ∅ (Engine.kindParams (type track) pLocks0)))
      pLocks0 in
  let newStep := {| active := active currentStep; pLocks := Some newPLocks;
                    note := note currentStep; velocity := velocity currentStep |} in
  Some {| id := id track; name := name track; type := type track;
          params := params track; fxSends := fxSends track;
          volume := volume track; patternLength := patternLength track;
          defaultNote := defaultNote track;
          steps := <[stepIndex := newStep]> (steps track) |}.

(** ** Step counts, and concrete tracks and states *)

(** The number of whole steps that have elapsed at time [t]. *)
Definition stepCount (bpm t : Q) : Z := Qfloor (t / stepTime bpm).

(** The state the scheduler is in when its cursor stands on the [i]-th step
    boundary. *)
Definition onStep (st : AppState) (i : Z) : AppState :=
  {| bpm := bpm st; tracks := tracks st; mutedTracks := mutedTracks st;
     soloedTrackId := soloedTrackId st;
     nextNoteTime := (inject_Z i * stepTime (bpm st))%Q;
     currentStep := currentStep st; triggered := triggered st |}.

Definition plainStep (on : bool) : StepState :=
  {| active := on; pLocks := None; note := None; velocity := 1 |}.

(** A hat track that plays its first step only. *)
Definition downbeatTrack (len : Z) : Track :=
  {| id := 1; name := "Hat"; type := hat;
     params := {[ "tone"%string := VNum 9000; "decay"%string := VNum 0.06 ]};
     fxSends := {[ "reverb"%string := 0.1%Q ]}; volume := 0.6;
     patternLength := len; defaultNote := "C5";
     steps := plainStep true :: replicate 15 (plainStep false) |}.

Definition demoState (t : Q) : AppState :=
  {| bpm := 120; tracks := [downbeatTrack 16; downbeatTrack 12];
     mutedTracks := ∅; soloedTrackId := None;
     nextNoteTime := t; currentStep := -1; triggered := [] |}.

(** The value locked in the examples. *)
Definition cutoffLock : value := VNum 800.

End Sequencer.

(* ===================================================================== *)
(** * App.tsx: inside the voices of the AudioEngine *)
(* ===================================================================== *)

Module Voices.
Import Types Engine.

(** ** Envelopes *)

(** The calls an envelope makes on an [AudioParam], in program order. *)
Inductive Automation : Type :=
| SetValueAtTime (v t : Q)
| LinearRampToValueAtTime (v t : Q)
| SetTargetAtTime (target startTime timeConstant : Q).

Definition epsilon : Q := 1e-6.

Definition applyEnvelope (time attack decay sustain peak : Q) : list Automation :=
  let attackEndTime := (time + Qmax 0.001 attack)%Q in
  let sustainLevel := Qmax epsilon (peak * sustain) in
  [ SetValueAtTime epsilon time;
    LinearRampToValueAtTime peak attackEndTime;
    SetTargetAtTime sustainLevel attackEndTime (decay / 4 + epsilon)%Q ].

Definition applyEnvelopeWithRelease (time attack decay sustain release peak : Q)
  : list Automation :=
  let sustainLevel := (peak * sustain)%Q in
  [ SetValueAtTime 0 time;
    LinearRampToValueAtTime peak (time + attack)%Q;
    SetTargetAtTime sustainLevel (time + attack)%Q (decay / 4)%Q;
    SetTargetAtTime 0 (time + attack + decay)%Q (release / 4)%Q ].

(** The time at which a call takes effect. *)
Definition eventTime (a : Automation) : Q :=
  match a with
  | SetValueAtTime _ t => t
  | LinearRampToValueAtTime _ t => t
  | SetTargetAtTime _ t _ => t
  end.

(** ** Effect sends *)

(** One gain node per send that is above zero, wired to the input of the
    effect: the pair is the effect input and the gain. *)
Definition connectToFX (fxSends : gmap string Q) : list (string * Q) :=
  (if gt0 (fxSends !! "reverb"%string)
   then [("reverbPreDelay"%string, default 0%Q (fxSends !! "reverb"%string))] else [])
  ++ (if gt0 (fxSends !! "delay"%string)
      then [("delay"%string, default 0%Q (fxSends !! "delay"%string))] else [])
  ++ (if gt0 (fxSends !! "drive"%string)
      then [("drive"%string, default 0%Q (fxSends !! "drive"%string))] else []).

(** ** Low-frequency oscillators *)

(** What [applyLFO] builds: an oscillator of the given type and frequency,
    through a gain of [depth], into the parameter [lfo_target], started at
    [lfo_start]. *)
Record LfoNode : Type := {
  lfo_type : Waveform;
  lfo_frequency : Q;
  lfo_gain : Q;
  lfo_target : string;
  lfo_start : Q
}.

(** [targets] maps a destination to the parameter it drives; a key bound to
    [undefined] is [Some None]. *)
Definition applyLFO (lfoParams : option LFOParams) (time : Q)
  (targets : gmap string (option string)) : option LfoNode :=
  match lfoParams with
  | None => None
  | Some p =>
      if String.eqb (destination p) "none" || Qeq_bool (depth p) 0 then None
      else
        match targets !! destination p with
        | Some (Some targetParam) =>
            Some {| lfo_type := lfo_waveform p; lfo_frequency := rate p;
                    lfo_gain := depth p; lfo_target := targetParam;
                    lfo_start := time |}
        | _ => None
        end
  end.

(** The [lfoTargets] object of each voice.  In the Kick voice the two rumble
    entries are [undefined] unless the rumble chain was built. *)
Definition lfoTargets (ty : TrackType) (rumble : bool)
  : gmap string (option string) :=
  list_to_map
    match ty with
    | kick =>
        [("pitch", Some "osc.detune"); ("volume", Some "trackOut.gain");
         ("filterCutoff", Some "mainFilter.frequency");
         ("filterResonance", Some "mainFilter.Q");
         ("kickSaturation", Some "saturatorDrive.gain");
         ("kickTransient", Some "transientAmp.gain");
         ("kickPitchEnv", Some "pitchEnv.gain");
         ("kickBody", Some "saturatedGain.gain");
         ("kickTone", Some "toneFilter.frequency");
         ("kickRumbleAmt", if rumble then Some "rumblePreGain.gain" else None);
         ("kickRumbleTone",
          if rumble then Some "rumbleFilterNode.frequency" else None)]%string
    | hat =>
        [("volume", Some "trackOut.gain");
         ("filterCutoff", Some "mainFilter.frequency");
         ("filterResonance", Some "mainFilter.Q");
         ("hatTone", Some "noiseFilter.frequency");
         ("hatMetal", Some "metalGain.gain")]%string
    | poly =>
        [("pitch", Some "osc1Node.detune"); ("volume", Some "trackOut.gain");
         ("filterCutoff", Some "filterNode.frequency");
         ("filterResonance", Some "filterNode.Q");
         ("polyOscMix", Some "osc2Gain.gain");
         ("polyNoise", Some "noiseGain.gain")]%string
    | bass =>
        [("pitch", Some "osc.detune"); ("volume", Some "trackOut.gain");
         ("filterCutoff", Some "mainFilter.frequency");
         ("filterResonance", Some "mainFilter.Q");
         ("bassCutoff", Some "accentFilter.frequency")]%string
    | modal =>
        [("volume", Some "trackOut.gain");
         ("filterCutoff", Some "mainFilter.frequency");
         ("filterResonance", Some "mainFilter.Q");
         ("modalStructure", None);
         ("modalBrightness", Some "brightnessGain.gain")]%string
    | rift =>
        [("pitch", Some "osc.detune"); ("volume", Some "trackOut.gain");
         ("filterCutoff", Some "mainFilter.frequency");
         ("filterResonance", Some "mainFilter.Q");
         ("riftFold", None); ("riftDrive", None);
         ("riftFeedback", Some "feedbackGain.gain")]%string
    | grain =>
        [("pitch", None); ("volume", Some "trackOut.gain");
         ("filterCutoff", Some "mainFilter.frequency");
         ("filterResonance", Some "mainFilter.Q");
         ("grainPitch", Some "grainPitch.gain"); ("grainDensity", None);
         ("grainSize", None)]%string
    | scream =>
        [("pitch", None); ("volume", Some "trackOut.gain");
         ("filterCutoff", Some "mainFilter.frequency");
         ("filterResonance", Some "mainFilter.Q");
         ("screamFeedback", Some "feedbackGain.gain");
         ("screamDamping", Some "dampingFilter.frequency")]%string
    end.

(** InstrumentEditor.tsx: the destinations each editor offers ([destOptions]). *)
Definition destOptions (ty : TrackType) : list string :=
  match ty with
  | kick =>
      ["none"; "pitch"; "volume"; "filterCutoff"; "filterResonance";
       "kickSaturation"; "kickTransient"; "kickPitchEnv"; "kickBody";
       "kickTone"; "kickRumbleAmt"; "kickRumbleDecay"; "kickRumbleTone"]%string
  | hat =>
      ["none"; "volume"; "filterCutoff"; "filterResonance"; "hatTone";
       "hatMetal"]%string
  | poly =>
      ["none"; "pitch"; "volume"; "filterCutoff"; "filterResonance";
       "polyOscMix"; "polyNoise"]%string
  | bass =>
      ["none"; "pitch"; "volume"; "filterCutoff"; "filterResonance";
       "bassCutoff"]%string
  | modal =>
      ["none"; "pitch"; "volume"; "filterCutoff"; "filterResonance";
       "modalStructure"; "modalBrightness"]%string
  | rift =>
      ["none"; "pitch"; "volume"; "filterCutoff"; "filterResonance";
       "riftFold"; "riftDrive"; "riftFeedback"]%string
  | grain =>
      ["none"; "pitch"; "volume"; "filterCutoff"; "filterResonance";
       "grainPitch"; "grainDensity"; "grainSize"]%string
  | scream =>
      ["none"; "pitch"; "volume"; "filterCutoff"; "filterResonance";
       "screamFeedback"; "screamDamping"]%string
  end.

(** The destinations among [dests] that can never start an oscillator in a
    voice of kind [ty]. *)
Definition inertDestinations (ty : TrackType) (rumble : bool) (dests : list string)
  : list string :=
  List.filter
    (fun d => negb (String.eqb d "none")
              && match lfoTargets ty rumble !! d with
                 | Some (Some _) => false
                 | _ => true
                 end)
    dests.

(** ** Kick: values derived from the knobs *)


(** [saturatorDrive.gain.value = 1.0 + (saturation / 100) * 4] *)
Definition kickSaturatorDrive (saturation : Q) : Q := (1 + (saturation / 100) * 4)%Q.

(** [cleanGain.gain.value = 1.0 - (body / 100)] and
    [saturatedGain.gain.value = body / 100] *)
Definition kickCleanGain (body : Q) : Q := (1 - body / 100)%Q.
Definition kickSaturatedGain (body : Q) : Q := (body / 100)%Q.

(** ** Poly: the oscillator cross-fade *)

(** [osc1Gain.gain.value = 1 - oscMix / 100], [osc2Gain.gain.value = oscMix / 100] *)
Definition polyOsc1Gain (oscMix : Q) : Q := (1 - oscMix / 100)%Q.
Definition polyOsc2Gain (oscMix : Q) : Q := (oscMix / 100)%Q.

(** ** Grain: the grain schedule *)

(** [2 + Math.floor(density / 100 * 20)] *)
Definition grainCount (density : Q) : Z := 2 + Qfloor (density / 100 * 20).

(** [Math.max(0.01, grainSize / 100 * 0.2)] *)
Definition gSize (grainSize : Q) : Q := Qmax 0.01 (grainSize / 100 * 0.2).

Record Grain : Type := {
  g_start : Q;
  g_stop : Q;
  g_envelope : list Automation
}.

(** The body of the loop [for (let i = 0; i < grainCount; i++)]. *)
Definition grainAt (time decay density spread grainSize : Q) (i : Z) : Grain :=
  let totalDuration := (decay * 1.5)%Q in
  let startTime :=
    (time + (inject_Z i / inject_Z (grainCount density)) * totalDuration
            * (1 - spread / 100))%Q in
  let gs := gSize grainSize in
  {| g_start := startTime;
     g_stop := (startTime + gs * 2)%Q;
     g_envelope := applyEnvelope startTime (gs * 0.5) (gs * 0.5) 0 1 |}.

Definition grains (time decay density spread grainSize : Q) : list Grain :=
  List.map (fun k => grainAt time decay density spread grainSize (Z.of_nat k))
           (List.seq 0 (Z.to_nat (grainCount density))).

(** [stopTime = time + totalDuration + 1.0], when the oscillators of the LFOs
    stop. *)
Definition grainStopTime (time decay : Q) : Q := (time + decay * 1.5 + 1)%Q.

(** ** Modal: the resonator bank *)

Definition NUM_MODES : Z := 8.
Definition HARMONIC_RATIOS : list Q := [1; 2; 3; 4; 5; 6; 7; 8]%Q.
Definition METALLIC_RATIOS : list Q := [1; 2.76; 5.4; 8.9; 13.2; 18.3; 24.1; 30.8]%Q.

(** One band-pass resonator.  Its gain is [Math.pow(m_gainBase, m_gainExp) / 8],
    kept as base and exponent. *)
Record Mode : Type := {
  m_index : nat;
  m_freq : Q;
  m_Q : Q;
  m_gainBase : Q;
  m_gainExp : Q
}.

Definition modeRatio (structure : Q) (i : nat) : Q :=
  let structRatio := (structure / 100)%Q in
  (default 0 (HARMONIC_RATIOS !! i) * (1 - structRatio)
   + default 0 (METALLIC_RATIOS !! i) * structRatio)%Q.

(** [Math.min(200, baseQ * Math.max(0.1, 1 - (damping / 100) * (i / 7) ** 2))]
    with [baseQ = 50 + decay * 200]. *)
Definition modeQ (decay damping : Q) (i : nat) : Q :=
  let baseQ := (50 + decay * 200)%Q in
  let x := (inject_Z (Z.of_nat i) / inject_Z (NUM_MODES - 1))%Q in
  Qmin 200 (baseQ * Qmax 0.1 (1 - (damping / 100) * (x * x))).

(** The body of the loop over the modes: [None] is the [continue] taken when
    the mode lies above half the sample rate. *)
Definition modeAt (baseFreq sampleRate structure brightness decay damping : Q)
  (i : nat) : option Mode :=
  let freq := (baseFreq * modeRatio structure i)%Q in
  if Qlt_le_dec (sampleRate / 2) freq then None
  else Some {| m_index := i; m_freq := freq; m_Q := modeQ decay damping i;
               m_gainBase := (1 - inject_Z (Z.of_nat i) / inject_Z (NUM_MODES - 1))%Q;
               m_gainExp := ((1 - brightness / 100) * 4)%Q |}.

Definition modes (baseFreq sampleRate structure brightness decay damping : Q)
  : list Mode :=
  omap (modeAt baseFreq sampleRate structure brightness decay damping)
       (List.seq 0 (Z.to_nat NUM_MODES)).

(** ** Tempo-synced delay times *)

(** constants.ts *)
Definition TIME_DIVISIONS : list (string * Q) :=
  [("1/64", 0.0625); ("1/32", 0.125); ("1/16", 0.25); ("1/8", 0.5); ("1/4", 1);
   ("1/2", 2); ("1 bar", 4); ("1/16T", 0.25 * (2 / 3)); ("1/8T", 0.5 * (2 / 3));
   ("1/4T", 1 * (2 / 3)); ("1/16D", 0.25 * 1.5); ("1/8D", 0.75);
   ("1/4D", 1.5)]%Q%string.

(** The constructor creates the delay lines with [createDelay(2.0)] and
    [createDelay(0.5)]: the longest delay each can hold, in seconds. *)
Definition delayCapacity : Q := 2.
Definition preDelayCapacity : Q := 0.5.

(** [updateReverb]: the duration and decay handed to
    [generateImpulseResponse], and the pre-delay time. *)
Record ReverbParams : Type := {
  rv_decay : Q;
  rv_mix : Q;
  preDelay : Q;
  preDelaySync : bool;
  preDelayDivision : Q
}.

Record ReverbNodes : Type := {
  impulseDuration : Q;
  impulseDecay : Q;
  reverbWetGain : Q;
  preDelayTime : Q
}.

Definition updateReverb (p : ReverbParams) (bpm : Q) : ReverbNodes :=
  {| impulseDuration := Qmax (rv_decay p * 4) 0.01;
     impulseDecay := (rv_decay p * 2)%Q;
     reverbWetGain := rv_mix p;
     preDelayTime :=
       if preDelaySync p then ((60 / bpm) * preDelayDivision p)%Q else preDelay p |}.

(** ** A parameter with oscillators connected to it *)

(** [params.lfo1], [params.lfo2] of a resolved parameter object. *)
Definition lfoOf (params : gmap string value) (key : string)
  : option LFOParams :=
  match params !! key with
  | Some (VLfo l) => Some l
  | _ => None
  end.

(** The oscillators a voice of kind [ty] starts:
    [applyLFO(lfo1, time, lfoTargets)] and [applyLFO(lfo2, time, lfoTargets)],
    each pushed to [lfos] unless it is [undefined]. *)
Definition voiceLfos (ty : TrackType) (rumble : bool)
  (params : gmap string value) (time : Q) : list LfoNode :=
  omap (fun key => applyLFO (lfoOf params key) time (lfoTargets ty rumble))
       ["lfo1"; "lfo2"]%string.

(** An [AudioParam] takes the value written to it plus the signals connected
    to it ([lfoGain.connect(targetParam)]).  [out l] is what the oscillator
    of [l] puts out at the instant looked at, a number from -1 to 1; behind
    the gain of the LFO that is [lfo_gain l * out l]. *)
Definition paramValue (written : Q) (lfos : list LfoNode) (param : string)
  (out : LfoNode -> Q) : Q :=
  List.fold_right
    (fun l acc =>
       if String.eqb (lfo_target l) param then (lfo_gain l * out l + acc)%Q
       else acc)
    written lfos.

(** The range of the DEPTH knob of an LFO: [min={0} max={1000} step={1}]. *)
Definition lfoDepthDomain (d : Q) : Prop := (0 <= d <= 1000)%Q.

(** Parameters of a Rift and of a Scream voice whose first LFO is a sine of
    5 Hz and depth [d] on the feedback destination of the voice. *)
Definition riftParamsWithLfo (fb d : Q) : gmap string value :=
  {[ "feedback"%string := VNum fb;
     "lfo1"%string :=
       VLfo {| lfo_waveform := sine; rate := 5; depth := d;
               destination := "riftFeedback" |} ]}.

Definition screamParamsWithLfo (fb d : Q) : gmap string value :=
  {[ "feedback"%string := VNum fb;
     "lfo1"%string :=
       VLfo {| lfo_waveform := sine; rate := 5; depth := d;
               destination := "screamFeedback" |} ]}.

(** ** Names used to state the properties of the sends *)

(** The effect input that a channel of the FX sends feeds. *)
Definition sendInput (channel : string) : option string :=
  if String.eqb channel "reverb" then Some "reverbPreDelay"%string
  else if String.eqb channel "delay" then Some "delay"%string
  else if String.eqb channel "drive" then Some "drive"%string
  else None.

(** A lock that sets the reverb send of its step to zero. *)
Definition reverbOffLock : PLocks :=
  {| kickParams := None; hatParams := None; polyParams := None;
     bassParams := None; modalParams := None; riftParams := None;
     grainParams := None; screamParams := None; lock_volume := None;
     lock_fxSends := Some {[ "reverb"%string := 0%Q ]} |}.

(** A track that sends to the reverb. *)
Definition reverbSendTrack : Track :=
  {| id := 1; name := "Hat"; type := hat;
     params := {[ "tone"%string := VNum 9000; "decay"%string := VNum 0.06 ]};
     fxSends := {[ "reverb"%string := 0.1%Q ]}; volume := 0.6;
     patternLength := 16; defaultNote := "C5"; steps := [] |}.

(** A delay synced to one bar. *)
Definition oneBarDelay : DelayParams :=
  {| time := 0.3; feedback := 0.4; mix := 0.3; timeSync := true; timeDivision := 4 |}.

End Voices.

(* ===================================================================== *)
(** * App.tsx: the edit commands of the App component *)
(* ===================================================================== *)

Module Transport.
Import Types Engine Sequencer.

(** [{ ...track, steps: newSteps }] *)
Definition withSteps (track : Track) (newSteps : list StepState) : Track :=
  {| id := id track; name := name track; type := type track;
     params := params track; fxSends := fxSends track; volume := volume track;
     patternLength := patternLength track; defaultNote := defaultNote track;
     steps := newSteps |}.

(** ** handleStepClick *)

(** [newSteps[stepIndex] = { ...currentStep, active: !currentStep.active }];
    [None] is the [TypeError] of reading [.active] off a missing step. *)
Definition toggleStep (track : Track) (stepIndex : nat) : option Track :=
  currentStep ← steps track !! stepIndex;
  Some (withSteps track
          (<[stepIndex := {| active := negb (active currentStep);
                             pLocks := pLocks currentStep;
                             note := note currentStep;
                             velocity := velocity currentStep |}]> (steps track))).

(** The state the click handler reads and writes: the tracks and the step
    selected for lock editing. *)
Definition handleStepClick (pLockModeActive : bool)
  (pLockEditStep : option (Z * nat)) (tracks : list Track)
  (trackId : Z) (stepIndex : nat)
  : option (list Track * option (Z * nat)) :=
  if pLockModeActive then
    match pLockEditStep with
    | Some (t, s) =>
        if (t =? trackId) && (s =? stepIndex)%nat
        then Some (tracks, None)
        else Some (tracks, Some (trackId, stepIndex))
    | None => Some (tracks, Some (trackId, stepIndex))
    end
  else
    tracks' ← mapM (fun track =>
                      if id track =? trackId then toggleStep track stepIndex
                      else Some track) tracks;
    Some (tracks', pLockEditStep).

(** ** handlePatternLengthChange, handleVolumeChange, handleFxSendChange *)

Definition handlePatternLengthChange (tracks : list Track) (trackId : Z)
  (length : Z) : list Track :=
  List.map (fun track =>
              if id track =? trackId then
                {| id := id track; name := name track; type := type track;
                   params := params track; fxSends := fxSends track;
                   volume := volume track; patternLength := length;
                   defaultNote := defaultNote track; steps := steps track |}
              else track) tracks.



(** ** handleParamChange *)

(** The body for the selected track.  In lock mode with an edit step the
    lock goes to [pLockEditStep.stepIndex] of this track; otherwise the base
    parameter is replaced. *)
Definition paramChangeOnTrack (pLockModeActive : bool)
  (pLockEditStep : option (Z * nat)) (track : Track) (param : string)
  (v : value) : option Track :=
  match pLockModeActive, pLockEditStep with
  | true, Some (_, stepIndex) => lockParam track stepIndex param v
  | _, _ =>
      Some {| id := id track; name := name track; type := type track;
              params := <[param := v]> (params track);
              fxSends := fxSends track; volume := volume track;
              patternLength := patternLength track;
              defaultNote := defaultNote track; steps := steps track |}
  end.

Definition handleParamChange (selectedTrackId : Z) (pLockModeActive : bool)
  (pLockEditStep : option (Z * nat)) (tracks : list Track) (param : string)
  (v : value) : option (list Track) :=
  mapM (fun track =>
          if id track =? selectedTrackId
          then paramChangeOnTrack pLockModeActive pLockEditStep track param v
          else Some track) tracks.

(** ** handleClearPLocksForTrack *)

Definition clearStep (step : StepState) : StepState :=
  {| active := active step; pLocks := None; note := None; velocity := 1 |}.

Definition handleClearPLocksForTrack (tracks : list Track) (trackId : Z)
  : list Track :=
  List.map (fun track =>
              if id track =? trackId
              then withSteps track (List.map clearStep (steps track))
              else track) tracks.

(** ** handleMuteToggle, handleSoloToggle *)

Definition handleMuteToggle (currentMuted : gset Z) (trackId : Z) : gset Z :=
  if bool_decide (trackId ∈ currentMuted)
  then currentMuted ∖ {[trackId]}
  else currentMuted ∪ {[trackId]}.

Definition handleSoloToggle (currentSoloed : option Z) (trackId : Z) : option Z :=
  match currentSoloed with
  | Some s => if s =? trackId then None else Some trackId
  | None => Some trackId
  end.

(** ** createRandomizedTrack

    [Math.random()] is the stream [rand]; the [n]-th call returns [rand n],
    and every function passes on the number of calls made so far. *)

Definition melodicScale : list string :=
  ["C3"; "D#3"; "F3"; "G3"; "A#3"; "C4"; "D#4"; "F4"; "G4"; "A#4"; "C5"]%string.

(** [['poly', 'bass', 'modal', 'rift', 'grain', 'scream'].includes(track.type)] *)
Definition isMelodic (ty : TrackType) : bool :=
  match ty with
  | poly | bass | modal | rift | grain | scream => true
  | kick | hat => false
  end.

Definition Qgtb (a b : Q) : bool := if Qlt_le_dec b a then true else false.

(** The callback of [Array(16).fill(null).map]. *)
Definition randomStep (rand : nat -> Q) (ty : TrackType) (n : nat)
  : StepState * nat :=
  let isActive := Qgtb (rand n) 0.65 in
  let velocity := (0.6 + rand (S n) * 0.4)%Q in
  if isActive && isMelodic ty then
    ({| active := isActive; pLocks := None;
        note := js_index melodicScale
                  (Some (Qfloor (rand (S (S n))
                                 * inject_Z (Z.of_nat (List.length melodicScale)))));
        velocity := velocity |}, S (S (S n)))
  else
    ({| active := isActive; pLocks := None; note := None; velocity := velocity |},
     S (S n)).

Fixpoint randomSteps (rand : nat -> Q) (ty : TrackType) (count n : nat)
  : list StepState * nat :=
  match count with
  | O => ([], n)
  | S k =>
      let '(step, n1) := randomStep rand ty n in
      let '(rest, n2) := randomSteps rand ty k n1 in
      (step :: rest, n2)
  end.

(** The loop [for (let i = 0; i < 16; i++)] that shapes a kick pattern, from
    index [i] on. *)
Fixpoint kickPass (rand : nat -> Q) (i : nat) (newSteps : list StepState)
  (n : nat) : list StepState * nat :=
  match newSteps with
  | [] => ([], n)
  | step :: rest =>
      if (i mod 4 =? 0)%nat then
        let '(rest', n') := kickPass rand (S i) rest n in
        ({| active := true; pLocks := pLocks step; note := note step;
            velocity := 1 |} :: rest', n')
      else if Qgtb (rand n) 0.85 then
        let '(rest', n') := kickPass rand (S i) rest (S (S n)) in
        ({| active := true; pLocks := pLocks step; note := note step;
            velocity := (0.3 + rand (S n) * 0.3)%Q |} :: rest', n')
      else
        let '(rest', n') := kickPass rand (S i) rest (S n) in
        ({| active := false; pLocks := pLocks step; note := note step;
            velocity := velocity step |} :: rest', n')
  end.

Definition createRandomizedTrack (rand : nat -> Q) (track : Track) (n : nat)
  : Track * nat :=
  let '(newPatternLength, n1) :=
    match type track with
    | kick => (16, n)
    | _ => (12 + Qfloor (rand n * 5), S n)
    end in
  let '(newSteps, n2) := randomSteps rand (type track) 16 n1 in
  let '(newSteps', n3) :=
    match type track with
    | kick => kickPass rand 0 newSteps n2
    | _ => (newSteps, n2)
    end in
  ({| id := id track; name := name track; type := type track;
      params := params track; fxSends := fxSends track; volume := volume track;
      patternLength := newPatternLength; defaultNote := defaultNote track;
      steps := newSteps' |}, n3).

(** [Math.random()] returns a number in [0, 1). *)
Definition unitStream (rand : nat -> Q) : Prop :=
  forall n, (0 <= rand n)%Q /\ (rand n < 1)%Q.

(** What a step of a randomized track of kind [ty] looks like: no lock, a
    velocity between 0.3 and 1 (at least 0.6 off the kick), and a note of its
    own only on an active step of a melodic track, taken from the scale. *)
Definition randomizedStep (ty : TrackType) (step : StepState) : Prop :=
  pLocks step = None /\
  (0.3 <= velocity step <= 1)%Q /\
  (ty <> kick -> (0.6 <= velocity step)%Q) /\
  match note step with
  | Some nm =>
      active step = true /\ isMelodic ty = true /\ List.In nm melodicScale
  | None => active step = true -> isMelodic ty = false
  end.

(** ** handleExportWav: the size of the offline context *)

Definition numSteps : Z := 64.

(** [duration = numSteps * stepTime] *)
Definition exportDuration (bpm : Q) : Q := (inject_Z numSteps * (60 / bpm / 4))%Q.

(** [Math.ceil(duration * 44100)], the length of the rendered buffer. *)
Definition exportFrames (bpm : Q) : Z := Qceiling (exportDuration bpm * 44100).

(** What [startRendering] returns is a buffer of the context's two channels,
    length and rate. *)
Definition renderedShape (bpm : Q) (buffer : WavUtils.AudioBuffer) : Prop :=
  WavUtils.numberOfChannels buffer = 2%nat /\
  WavUtils.sampleRate buffer = 44100 /\
  Z.of_nat (WavUtils.length buffer) = exportFrames bpm /\
  WavUtils.wf_buffer buffer.

(** The range of the BPM knob: [min={30} max={250}]. *)
Definition bpmDomain (bpm : Q) : Prop := (30 <= bpm <= 250)%Q.

(** Four bars of silence as rendered at 120 BPM. *)
Definition silentRender : WavUtils.AudioBuffer :=
  {| WavUtils.numberOfChannels := 2; WavUtils.sampleRate := 44100;
     WavUtils.length := Z.to_nat 352800;
     WavUtils.channelData := [replicate (Z.to_nat 352800) 0;
                              replicate (Z.to_nat 352800) 0] |}.

End Transport.

(* ===================================================================== *)
(** * The components: Selector, StepButton, InstrumentEditor, Knob *)
(* ===================================================================== *)

Module Components.
Import Types Engine Sequencer Transport.

(** ** Selector (InstrumentEditor.tsx, EffectsRack.tsx) *)

(** [options.findIndex(o => o.value === value)] *)
Fixpoint findIndex_from (i : Z) (options : list (string * string)) (v : string)
  : Z :=
  match options with
  | [] => -1
  | o :: tl => if String.eqb (fst o) v then i else findIndex_from (i + 1) tl v
  end.

Definition findIndex (options : list (string * string)) (v : string) : Z :=
  findIndex_from 0 options v.

(** [options[(currentIndex + 1) % options.length].value]; [None] is the
    [TypeError] of reading [.value] off [undefined]. *)
Definition selectorNext (options : list (string * string)) (v : string)
  : option string :=
  let currentIndex := findIndex options v in
  let len := Z.of_nat (List.length options) in
  fst <$> js_index options (js_rem (currentIndex + 1) len).

(** [options[(currentIndex - 1 + options.length) % options.length].value] *)
Definition selectorPrev (options : list (string * string)) (v : string)
  : option string :=
  let currentIndex := findIndex options v in
  let len := Z.of_nat (List.length options) in
  fst <$> js_index options (js_rem (currentIndex - 1 + len) len).

(** ** StepButton (Sequencer.tsx) *)

(** [Object.keys(step.pLocks).length] *)
Definition lockKeyCount (l : PLocks) : nat :=
  let present {A : Type} (o : option A) : nat :=
    match o with Some _ => 1%nat | None => 0%nat end in
  (present (kickParams l) + present (hatParams l) + present (polyParams l)
   + present (bassParams l) + present (modalParams l) + present (riftParams l)
   + present (grainParams l) + present (screamParams l)
   + present (lock_volume l) + present (lock_fxSends l))%nat.

(** [(!!step?.pLocks && Object.keys(step.pLocks).length > 0)
     || step?.note !== null || step?.velocity < 1] *)
Definition hasLocks (step : StepState) : bool :=
  match pLocks step with
  | Some l => (0 <? lockKeyCount l)%nat
  | None => false
  end
  || match note step with Some _ => true | None => false end
  || (if Qlt_le_dec (velocity step) 1 then true else false).

(** [stepIndex >= patternLength] *)
Definition isOutOfBounds (stepIndex patternLength : Z) : bool :=
  patternLength <=? stepIndex.

(** ** InstrumentEditor *)

(** [pLocks?.[`${track.type}Params`]?.[paramName]] *)
Definition lockedVal (track : Track) (pl : option PLocks) (paramName : string)
  : option value :=
  lock ← pl;
  o ← kindParams (type track) lock;
  (o : gmap string value) !! paramName.

(** [getVal(paramName)]: the locked value [?? track.params[paramName]] *)
Definition getVal (track : Track) (pl : option PLocks) (paramName : string)
  : option value :=
  match lockedVal track pl paramName with
  | Some v => Some v
  | None => params track !! paramName
  end.

(** [isLocked(paramName)]: the locked value [!== undefined] *)
Definition isLocked (track : Track) (pl : option PLocks) (paramName : string)
  : bool :=
  match lockedVal track pl paramName with
  | Some _ => true
  | None => false
  end.

(** One field of a filter with its new value: the [{ [field]: value }] of the
    filter editors. *)
Inductive FilterEdit : Type :=
| EditType (t : FilterType)
| EditCutoff (c : Q)
| EditResonance (r : Q).

(** [{ ...filter, [field]: value }] *)
Definition applyFilterEdit (f : FilterParams) (e : FilterEdit) : FilterParams :=
  match e with
  | EditType t => {| filter_type := t; cutoff := cutoff f;
                     resonance := resonance f; envAmount := envAmount f |}
  | EditCutoff c => {| filter_type := filter_type f; cutoff := c;
                       resonance := resonance f; envAmount := envAmount f |}
  | EditResonance r => {| filter_type := filter_type f; cutoff := cutoff f;
                          resonance := r; envAmount := envAmount f |}
  end.

(** [FilterSection.handleChange]: the edit is applied to [params.filter], the
    filter of the track's base parameters, and sent to [onParamChange] under
    the key ["filter"].  Without a filter in the base parameters nothing is
    sent: [None]. *)
Definition filterSectionChange (track : Track) (e : FilterEdit)
  : option (string * value) :=
  match params track !! "filter"%string with
  | Some (VFilter f) => Some ("filter"%string, VFilter (applyFilterEdit f e))
  | _ => None
  end.

(** [handleNestedChange('filter.<field>', value)]: the edit is applied to
    [getVal('filter')], the locked filter when there is one. *)
Definition nestedFilterChange (track : Track) (pl : option PLocks) (e : FilterEdit)
  : option (string * value) :=
  match getVal track pl "filter" with
  | Some (VFilter f) => Some ("filter"%string, VFilter (applyFilterEdit f e))
  | _ => None
  end.

(** What reaches [handleParamChange] in lock mode: the lock written to step
    [stepIndex] for the message a filter editor sends. *)
Definition lockSent (track : Track) (stepIndex : nat)
  (sent : option (string * value)) : option Track :=
  msg ← sent;
  lockParam track stepIndex (fst msg) (snd msg).

(** A bass track whose only step locks a filter that differs from the base
    filter in cutoff and resonance. *)
Definition lockedFilterTrack : Track :=
  {| id := 3; name := "Bass"; type := bass;
     params := {[ "filter"%string :=
                    VFilter {| filter_type := lowpass; cutoff := 800;
                               resonance := 1; envAmount := None |} ]};
     fxSends := ∅; volume := 0.8; patternLength := 16; defaultNote := "C2";
     steps := [ {| active := true;
                   pLocks := Some (setKindParams bass
                     {[ "filter"%string :=
                          VFilter {| filter_type := lowpass; cutoff := 200;
                                     resonance := 5; envAmount := None |} ]}
                     emptyPLocks);
                   note := None; velocity := 1 |} ] |}.

(** ** Knob *)

(** [valueToRotation]; a value that is not a number is [None]. *)
Definition valueToRotation (min max : Q) (val : option Q) : Q :=
  let numericVal := default min val in
  let clampedVal := Qmax min (Qmin max numericVal) in
  let progress := ((clampedVal - min) / (max - min))%Q in
  let totalAngle := 270%Q in
  let startAngle := (-135)%Q in
  (startAngle + progress * totalAngle)%Q.

End Components.

(* ===================================================================== *)
(** * Properties of utils.ts *)
(* ===================================================================== *)

Module UtilsFacts.
Import Utils.

Example midiToNoteName_60 : midiToNoteName 60 = "C4"%string.
Proof. reflexivity. Qed.

Example midiToNoteName_0 : midiToNoteName 0 = "C-1"%string.
Proof. reflexivity. Qed.

Example midiToNoteName_127 : midiToNoteName 127 = "G9"%string.
Proof. reflexivity. Qed.

Example noteNameToMidi_A4 : noteNameToMidi "A4" = Int 69.
Proof. reflexivity. Qed.

Example noteNameToMidi_lower : noteNameToMidi "d#3" = Int 51.
Proof. reflexivity. Qed.

Lemma Zrange_complete (lo : Z) (n : nat) (z : Z) :
  lo <= z < lo + Z.of_nat n -> List.In z (Zrange lo n).
Proof.
  intros Hz. unfold Zrange. apply List.in_map_iff.
  exists (Z.to_nat (z - lo)). split; [lia |].
  apply List.in_seq. lia.
Qed.

Lemma forallb_Zrange (p : Z -> bool) (lo : Z) (n : nat) :
  List.forallb p (Zrange lo n) = true ->
  forall z, lo <= z < lo + Z.of_nat n -> p z = true.
Proof.
  intros Hall z Hz. rewrite List.forallb_forall in Hall.
  apply Hall, Zrange_complete, Hz.
Qed.

Lemma jsnum_eqb_eq (a b : jsnum) : jsnum_eqb a b = true -> a = b.
Proof.
  destruct a, b; simpl; try discriminate; try reflexivity.
  intros H. apply Z.eqb_eq in H. now subst.
Qed.

(** From octave 0 upwards the octave is a single digit and the name parses
    back to the pitch it came from. *)
Lemma roundtrip_from_octave_0 (m : Z) :
  12 <= m <= 127 -> noteNameToMidi (midiToNoteName m) = Int m.
Proof.
  intros Hm. apply jsnum_eqb_eq.
  apply (forallb_Zrange
           (fun z => jsnum_eqb (noteNameToMidi (midiToNoteName z)) (Int z))
           12 116); [vm_compute; reflexivity | lia].
Qed.

(** In octave -1 the last character is the digit 1 and the note part keeps the
    minus sign, which is no entry of [NOTE_NAMES]: the default comes back. *)
Lemma roundtrip_octave_minus_1 (m : Z) :
  0 <= m <= 11 -> noteNameToMidi (midiToNoteName m) = Int 60.
Proof.
  intros Hm. apply jsnum_eqb_eq.
  apply (forallb_Zrange
           (fun z => jsnum_eqb (noteNameToMidi (midiToNoteName z)) (Int 60))
           0 12); [vm_compute; reflexivity | lia].
Qed.

(** Short names and names whose note part is no entry of [NOTE_NAMES] get
    the default pitch. *)
Lemma noteNameToMidi_short (name : string) :
  (String.length name < 2)%nat -> noteNameToMidi name = Int 60.
Proof.
  intros Hlen. unfold noteNameToMidi.
  destruct (Nat.ltb_spec (String.length name) 2); [reflexivity | lia].
Qed.

Lemma noteNameToMidi_unknown_note (name : string) :
  indexOf NOTE_NAMES (toUpperCase (slice_init name)) = -1 ->
  noteNameToMidi name = Int 60.
Proof.
  intros Hidx. unfold noteNameToMidi.
  destruct (String.length name <? 2)%nat; [reflexivity |].
  rewrite Hidx. reflexivity.
Qed.

Lemma NOTE_NAMES_lookup (m : Z) :
  0 <= m -> exists letter, NOTE_NAMES !! Z.to_nat (Z.rem m 12) = Some letter.
Proof.
  intros Hm. apply lookup_lt_is_Some_2.
  pose proof (Z.rem_bound_pos m 12 Hm ltac:(lia)) as Hb.
  change (List.length NOTE_NAMES) with 12%nat. lia.
Qed.

(** C10.  [midiToNoteName] is total on the integers: below 0 and above 127 it
    returns the sentinel ["---"]; from 0 to 127 it returns an entry of
    [NOTE_NAMES] followed by the octave number [midi / 12 - 1], which lies
    between -1 and 9, and this string is never the sentinel. *)
Theorem midiToNoteName_total (midi : Z) :
  ((midi < 0 \/ 127 < midi) /\ midiToNoteName midi = "---"%string) \/
  (0 <= midi <= 127 /\
   exists (letter : string) (octave : Z),
     NOTE_NAMES !! Z.to_nat (midi mod 12) = Some letter /\
     octave = midi / 12 - 1 /\ -1 <= octave <= 9 /\
     midiToNoteName midi = (letter +:+ string_of_Z octave)%string /\
     midiToNoteName midi <> "---"%string).
Proof.
  destruct (Z_lt_dec midi 0) as [Hneg | Hnn].
  { left. split; [lia |]. unfold midiToNoteName.
    destruct (Z.ltb_spec midi 0); [reflexivity | lia]. }
  destruct (Z_lt_dec 127 midi) as [Hbig | Hle].
  { left. split; [lia |]. unfold midiToNoteName.
    destruct (Z.ltb_spec midi 0); [reflexivity |].
    destruct (Z.ltb_spec 127 midi); [reflexivity | lia]. }
  right. split; [lia |].
  destruct (NOTE_NAMES_lookup midi ltac:(lia)) as [letter Hletter].
  rewrite Z.rem_mod_nonneg in Hletter by lia.
  exists letter, (midi / 12 - 1). repeat split.
  - exact Hletter.
  - pose proof (Z.div_pos midi 12). lia.
  - assert (midi / 12 <= 127 / 12) by (apply Z.div_le_mono; lia).
    change (127 / 12) with 10 in *. lia.
  - unfold midiToNoteName.
    destruct (Z.ltb_spec midi 0); [lia |].
    destruct (Z.ltb_spec 127 midi); [lia |].
    cbn [orb]. rewrite Z.rem_mod_nonneg by lia. rewrite Hletter. reflexivity.
  - assert (Hb : negb (String.eqb (midiToNoteName midi) "---") = true).
    { apply (forallb_Zrange
               (fun z => negb (String.eqb (midiToNoteName z) "---")) 0 128);
        [vm_compute; reflexivity | lia]. }
    intros Heq. rewrite Heq in Hb. discriminate Hb.
Qed.

(** C5, at the failing input.  Pitch 0 is rendered with octave -1; reading the
    name back takes the last character for the octave and leaves the minus
    sign in the note part, so the default 60 comes back instead of 0. *)
Theorem roundtrip_breaks_at_midi_0 :
  midiToNoteName 0 = "C-1"%string /\
  noteNameToMidi (midiToNoteName 0) = Int 60 /\
  noteNameToMidi (midiToNoteName 0) <> Int 0.
Proof. repeat split. vm_compute. discriminate. Qed.

(** C8, at the failing input.  A known note letter followed by a character
    that is no digit makes [parseInt] return [NaN], which the arithmetic
    propagates: the result is neither 60 nor any other pitch. *)
Theorem noteNameToMidi_bad_octave_is_NaN :
  noteNameToMidi "CX" = NaN /\ noteToFreq "CX" = HzNaN /\
  noteNameToMidi "C#" = NaN /\ noteNameToMidi "CX" <> Int 60.
Proof. repeat split. vm_compute. discriminate. Qed.

End UtilsFacts.

(* ===================================================================== *)
(** * Properties of wavUtils.ts *)
(* ===================================================================== *)

Module WavFacts.
Import WavUtils.

Local Abbreviation len := List.length.

(** Two lists built the same way that differ in index arithmetic only. *)
Ltac tail_arith := repeat first [ reflexivity | lia | nia | progress f_equal ].

Lemma length_le_bytes (n : nat) (v : Z) : len (le_bytes n v) = n.
Proof. revert v. induction n as [| n IH]; intros v; simpl; [| rewrite IH]; reflexivity. Qed.

Lemma le_value_le_bytes (n : nat) (v : Z) :
  le_value (le_bytes n v) = v mod 256 ^ Z.of_nat n.
Proof.
  revert v. induction n as [| n IH]; intros v.
  - simpl. now rewrite Z.mod_1_r.
  - cbn [le_bytes le_value]. rewrite IH.
    rewrite Nat2Z.inj_succ, Z.pow_succ_r by lia.
    rewrite Z.rem_mul_r by lia. lia.
Qed.

Lemma le_value_exact (n : nat) (v : Z) :
  0 <= v < 256 ^ Z.of_nat n -> le_value (le_bytes n v) = v.
Proof. intros Hv. rewrite le_value_le_bytes. now apply Z.mod_small. Qed.

Lemma charCode_byte (c : ascii) : charCode c mod 256 = charCode c.
Proof.
  apply Z.mod_small. unfold charCode.
  pose proof (nat_ascii_bounded c). lia.
Qed.

(** Writing into the zero-filled remainder, right behind what has been
    written so far. *)
Lemma write_at_next (done bs : list Z) (n offset : nat) :
  offset = len done -> (len bs <= n)%nat ->
  write_at (done ++ replicate n 0) offset bs
  = Some ((done ++ bs) ++ replicate (n - len bs) 0).
Proof.
  intros -> Hn. unfold write_at.
  rewrite length_app, length_replicate.
  destruct (Nat.leb_spec (len done + len bs) (len done + n)) as [_ | Hbad]; [| lia].
  f_equal. rewrite take_app_length.
  rewrite drop_app_add', drop_replicate by reflexivity.
  now rewrite <- app_assoc.
Qed.

Lemma writeString_from_next (str : string) (done : list Z) (n offset i : nat) :
  (offset + i)%nat = len done -> (String.length str <= n)%nat ->
  writeString_from (done ++ replicate n 0) offset i str
  = Some ((done ++ ascii_bytes str) ++ replicate (n - String.length str) 0).
Proof.
  revert done n i. induction str as [| c rest IH]; intros done n i Hoff Hn.
  - cbn. now rewrite app_nil_r, Nat.sub_0_r.
  - cbn [writeString_from String.length] in *.
    unfold setUint8. rewrite write_at_next by (cbn; lia).
    cbn [mbind option_bind].
    rewrite IH by (rewrite ?length_app; cbn; lia).
    f_equal. cbn [le_bytes]. rewrite charCode_byte.
    unfold ascii_bytes. cbn [list_ascii_of_string List.map len].
    rewrite <- !app_assoc. cbn [app]. tail_arith.
Qed.

Lemma writeString_next (str : string) (done : list Z) (n offset : nat) :
  offset = len done -> (String.length str <= n)%nat ->
  writeString (done ++ replicate n 0) offset str
  = Some ((done ++ ascii_bytes str) ++ replicate (n - String.length str) 0).
Proof. intros Hoff Hn. apply writeString_from_next; lia. Qed.

Lemma write_frame_next (channels : list (list Z)) (i : nat) (n : nat) :
  forall (j : nat) (done : list Z) (k offset : nat),
    offset = len done -> (4 * n <= k)%nat -> (j + n <= len channels)%nat ->
    write_frame channels i j n (done ++ replicate k 0, offset)
    = Some ((done ++ List.flat_map (fun jj => le_bytes 4 (sample_at channels i jj))
                                   (List.seq j n))
              ++ replicate (k - 4 * n) 0,
            (offset + 4 * n)%nat).
Proof.
  induction n as [| n IH]; intros j done k offset Hoff Hk Hj.
  - cbn. now rewrite app_nil_r, Nat.sub_0_r, Nat.add_0_r.
  - cbn [write_frame]. unfold setFloat32.
    destruct (lookup_lt_is_Some_2 channels j ltac:(lia)) as [ch Hch].
    rewrite Hch. cbn [mbind option_bind].
    rewrite write_at_next by (rewrite ?length_le_bytes; lia).
    cbn [mbind option_bind]. rewrite length_le_bytes.
    rewrite IH by (rewrite ?length_app, ?length_le_bytes; lia).
    cbn [List.seq List.flat_map].
    replace (default nan_bits (ch !! i)) with (sample_at channels i j)
      by (unfold sample_at; now rewrite Hch).
    rewrite <- !app_assoc. tail_arith.
Qed.

Lemma write_frames_next (channels : list (list Z)) (numChannels n : nat) :
  (numChannels <= len channels)%nat ->
  forall (i : nat) (done : list Z) (k offset : nat),
    offset = len done -> (4 * numChannels * n <= k)%nat ->
    write_frames channels numChannels i n (done ++ replicate k 0, offset)
    = Some ((done ++ List.flat_map
                       (fun ii => List.flat_map
                                    (fun jj => le_bytes 4 (sample_at channels ii jj))
                                    (List.seq 0 numChannels))
                       (List.seq i n))
              ++ replicate (k - 4 * numChannels * n) 0,
            (offset + 4 * numChannels * n)%nat).
Proof.
  intros Hnc. induction n as [| n IH]; intros i done k offset Hoff Hk.
  - cbn. now rewrite app_nil_r, Nat.mul_0_r, Nat.sub_0_r, Nat.add_0_r.
  - cbn [write_frames].
    rewrite write_frame_next by nia.
    cbn [mbind option_bind].
    rewrite IH.
    + cbn [List.seq List.flat_map].
      rewrite <- !app_assoc. tail_arith.
    + rewrite !length_app, List.flat_map_constant_length with (c := 4%nat).
      * rewrite List.length_seq. lia.
      * intros x _. apply length_le_bytes.
    + nia.
Qed.

(** Indexing the channel array by [j] visits the channels in order. *)
Lemma flat_map_seq_lookup {B : Type} (f : list Z -> list B) (g : nat -> list B)
  (channels : list (list Z)) :
  forall (j0 : nat),
    (forall j ch, channels !! j = Some ch -> g (j0 + j)%nat = f ch) ->
    List.flat_map g (List.seq j0 (len channels)) = List.flat_map f channels.
Proof.
  induction channels as [| ch tl IH]; intros j0 Hg; [reflexivity |].
  cbn [len List.seq List.flat_map]. f_equal.
  - rewrite <- (Hg 0%nat ch eq_refl). f_equal. lia.
  - apply IH. intros j ch' Hj. rewrite <- (Hg (S j) ch' Hj). f_equal. lia.
Qed.

Lemma frame_by_index (channels : list (list Z)) (i : nat) :
  List.flat_map (fun jj => le_bytes 4 (sample_at channels i jj))
                (List.seq 0 (len channels))
  = frame_bytes channels i.
Proof.
  unfold frame_bytes. apply flat_map_seq_lookup.
  intros j ch Hj. unfold sample_at. cbn [Nat.add]. now rewrite Hj.
Qed.

Lemma collect_channels_take (buffer : AudioBuffer) (n : nat) :
  forall i0, (i0 + n <= len (channelData buffer))%nat ->
    collect_channels buffer i0 n = Some (take n (drop i0 (channelData buffer))).
Proof.
  induction n as [| n IH]; intros i0 Hle; [now rewrite take_0 |].
  cbn [collect_channels]. unfold getChannelData.
  destruct (lookup_lt_is_Some_2 (channelData buffer) i0 ltac:(lia)) as [ch Hch].
  rewrite Hch. cbn [mbind option_bind]. rewrite IH by lia.
  cbn [mbind option_bind]. f_equal.
  rewrite (drop_S _ _ _ Hch). reflexivity.
Qed.

Lemma collect_all_channels (buffer : AudioBuffer) :
  len (channelData buffer) = numberOfChannels buffer ->
  collect_channels buffer 0 (numberOfChannels buffer) = Some (channelData buffer).
Proof.
  intros Hc. rewrite collect_channels_take by lia.
  rewrite drop_0, <- Hc, firstn_all. reflexivity.
Qed.

Lemma length_frame_bytes (channels : list (list Z)) (i : nat) :
  len (frame_bytes channels i) = (4 * len channels)%nat.
Proof.
  unfold frame_bytes.
  rewrite List.flat_map_constant_length with (c := 4%nat); [lia |].
  intros ch _. apply length_le_bytes.
Qed.

Lemma length_interleaved (buffer : AudioBuffer) :
  len (interleaved buffer)
  = (4 * len (channelData buffer) * length buffer)%nat.
Proof.
  unfold interleaved.
  rewrite List.flat_map_constant_length
    with (c := (4 * len (channelData buffer))%nat).
  - rewrite List.length_seq. lia.
  - intros i _. apply length_frame_bytes.
Qed.

Lemma length_wav_header (C R F : Z) : len (wav_header C R F) = 44%nat.
Proof. unfold wav_header. rewrite !length_app, !length_le_bytes. reflexivity. Qed.

Ltac next_write :=
  first [ rewrite writeString_next | rewrite write_at_next ];
  [ cbn [mbind option_bind]
  | rewrite ?length_app, ?length_le_bytes; reflexivity
  | rewrite ?length_le_bytes; cbn [String.length]; lia ].

(** The writer never throws on a buffer that has the channels it announces,
    and what it returns is the header followed by the interleaved frames. *)
Lemma audioBufferToWav_bytes (buffer : AudioBuffer) :
  len (channelData buffer) = numberOfChannels buffer ->
  audioBufferToWav buffer
  = Some (wav_header (Z.of_nat (numberOfChannels buffer)) (sampleRate buffer)
                     (Z.of_nat (length buffer))
          ++ interleaved buffer).
Proof.
  intros Hc. unfold audioBufferToWav, setUint32, setUint16.
  change (32 / 8) with 4.
  set (C := numberOfChannels buffer) in *. set (F := length buffer).
  replace (Z.to_nat (44 + Z.of_nat C * Z.of_nat F * 4))
    with (44 + 4 * (C * F))%nat
    by (rewrite <- Nat2Z.inj_mul; generalize (C * F)%nat; intros; lia).
  change (replicate (44 + 4 * (C * F)) 0)
    with ([] ++ replicate (44 + 4 * (C * F)) 0).
  do 13 next_write.
  rewrite collect_all_channels by exact Hc. cbn [mbind option_bind].
  rewrite write_frames_next;
    [ | lia
      | rewrite ?length_app, ?length_le_bytes; reflexivity
      | rewrite ?length_le_bytes; cbn [String.length]; lia ].
  cbn [mbind option_bind fst]. f_equal.
  match goal with |- context [replicate ?k 0] =>
    replace k with 0%nat by (rewrite ?length_le_bytes; cbn [String.length]; lia)
  end.
  cbn [replicate]. rewrite app_nil_r.
  assert (Hpayload :
    List.flat_map
      (fun ii => List.flat_map
                   (fun jj => le_bytes 4 (sample_at (channelData buffer) ii jj))
                   (List.seq 0 C))
      (List.seq 0 F)
    = interleaved buffer).
  { unfold interleaved. fold F. rewrite <- Hc.
    apply List.flat_map_ext. intros i. apply frame_by_index. }
  rewrite Hpayload. unfold wav_header. rewrite <- !app_assoc. reflexivity.
Qed.

(** *** Locating one sample in the payload *)

Lemma drop_flat_map_blocks {A : Type} (f : A -> list Z) (c : nat) (l : list A) :
  (forall x, len (f x) = c) ->
  forall i, drop (c * i) (List.flat_map f l) = List.flat_map f (drop i l).
Proof.
  intros Hf. induction l as [| x tl IH]; intros i.
  - cbn [List.flat_map]. now rewrite !drop_nil.
  - destruct i as [| i].
    + now rewrite Nat.mul_0_r.
    + cbn [List.flat_map]. rewrite skipn_cons.
      replace (c * S i)%nat with (len (f x) + c * i)%nat by (rewrite Hf; lia).
      rewrite drop_app_add'; [apply IH | reflexivity].
Qed.

Lemma block_of_flat_map {A : Type} (f : A -> list Z) (c : nat) (l : list A)
  (i : nat) (x : A) :
  (forall y, len (f y) = c) -> l !! i = Some x ->
  exists rest, drop (c * i) (List.flat_map f l) = f x ++ rest.
Proof.
  intros Hf Hx. rewrite (drop_flat_map_blocks f c l Hf).
  rewrite (drop_S _ _ _ Hx). cbn [List.flat_map]. eauto.
Qed.

Lemma sample_in_payload (buffer : AudioBuffer) (i j : nat) (ch : list Z) (s : Z) :
  (i < length buffer)%nat ->
  channelData buffer !! j = Some ch -> ch !! i = Some s ->
  bytes_at (interleaved buffer)
           (4 * (i * len (channelData buffer) + j)) 4
  = le_bytes 4 s.
Proof.
  intros Hi Hch Hs. unfold bytes_at, interleaved.
  replace (4 * (i * len (channelData buffer) + j))%nat
    with ((4 * len (channelData buffer)) * i + 4 * j)%nat by lia.
  rewrite <- drop_drop.
  destruct (block_of_flat_map (frame_bytes (channelData buffer))
              (4 * len (channelData buffer)) (List.seq 0 (length buffer)) i i)
    as [rest1 Hrest1].
  { intros y. apply length_frame_bytes. }
  { apply lookup_seq. lia. }
  rewrite Hrest1. unfold frame_bytes at 1.
  destruct (block_of_flat_map (fun c => le_bytes 4 (default nan_bits (c !! i)))
              4 (channelData buffer) j ch) as [rest2 Hrest2].
  { intros y. apply length_le_bytes. }
  { exact Hch. }
  rewrite drop_app_le.
  2:{ change (List.flat_map (fun c => le_bytes 4 (default nan_bits (c !! i)))
                (channelData buffer)) with (frame_bytes (channelData buffer) i).
      rewrite length_frame_bytes.
      apply lookup_lt_Some in Hch. lia. }
  rewrite Hrest2, Hs. cbn [default].
  rewrite <- app_assoc.
  rewrite take_app_length' by (symmetry; apply length_le_bytes). reflexivity.
Qed.

Ltac header_field :=
  unfold uint_at, bytes_at, wav_header;
  cbn [le_bytes app firstn skipn ascii_bytes list_ascii_of_string List.map];
  try reflexivity.

Ltac exact_field n x :=
  change (le_value (le_bytes n x) = x); apply le_value_exact;
  cbn [Z.of_nat Pos.of_succ_nat Pos.succ]; lia.

Lemma le_bytes_range (n : nat) (v : Z) :
  Forall (fun b => 0 <= b <= 255) (le_bytes n v).
Proof.
  revert v. induction n as [| n IH]; intros v; cbn [le_bytes]; constructor.
  - pose proof (Z.mod_pos_bound v 256). lia.
  - apply IH.
Qed.

Lemma ascii_bytes_range (str : string) :
  Forall (fun b => 0 <= b <= 255) (ascii_bytes str).
Proof.
  unfold ascii_bytes. apply Forall_forall. intros b Hb.
  apply list_elem_of_In, List.in_map_iff in Hb. destruct Hb as (c & <- & _).
  unfold charCode. pose proof (nat_ascii_bounded c). lia.
Qed.

Lemma interleaved_range (buffer : AudioBuffer) :
  Forall (fun b => 0 <= b <= 255) (interleaved buffer).
Proof.
  unfold interleaved, frame_bytes. apply Forall_forall. intros b Hb.
  apply list_elem_of_In, List.in_flat_map in Hb. destruct Hb as (i & _ & Hb).
  apply List.in_flat_map in Hb. destruct Hb as (ch & _ & Hb).
  pose proof (le_bytes_range 4 (default nan_bits (ch !! i))) as Hall.
  rewrite Forall_forall in Hall. apply Hall. now apply list_elem_of_In.
Qed.

(** The two and the four low-order bytes of [v], written out. *)
Lemma le_bytes_2_explicit (v : Z) :
  le_bytes 2 v = [(v / 2 ^ (8 * 0)) mod 256; (v / 2 ^ (8 * 1)) mod 256].
Proof.
  cbn [le_bytes]. change (2 ^ (8 * 0)) with 1. change (2 ^ (8 * 1)) with 256.
  now rewrite Z.div_1_r.
Qed.

Lemma le_bytes_4_explicit (v : Z) :
  le_bytes 4 v
  = [(v / 2 ^ (8 * 0)) mod 256; (v / 2 ^ (8 * 1)) mod 256;
     (v / 2 ^ (8 * 2)) mod 256; (v / 2 ^ (8 * 3)) mod 256].
Proof.
  cbn [le_bytes]. change (2 ^ (8 * 0)) with 1. change (2 ^ (8 * 1)) with 256.
  change (2 ^ (8 * 2)) with (256 * 256).
  change (2 ^ (8 * 3)) with (256 * 256 * 256).
  now rewrite Z.div_1_r, !Z.div_div by lia.
Qed.

(** C9.  For a buffer of [C] channels, [F] frames and sample rate [R] (with
    the header quantities representable in their fields) the writer returns
    exactly [44 + C * F * 4] bytes, every one of them between 0 and 255.
    Byte for byte: 82 73 70 70 ("RIFF"), the chunk size [36 + dataSize],
    87 65 86 69 ("WAVE"), 102 109 116 32 ("fmt "), sub-chunk size 16, format
    code 3, [C] channels, rate [R], byte rate [R * blockAlign], block align
    [C * 4], 32 bits per sample, 100 97 116 97 ("data") and
    [dataSize = C * F * 4].  Every number stands least significant byte
    first: byte [k] of a field is [(v / 2^(8k)) mod 256], and read back
    little-endian the field is the number itself.  Behind byte 44 come the
    frames in order, each holding one 32-bit sample per channel, least
    significant byte first. *)
Theorem audioBufferToWav_layout (buffer : AudioBuffer) :
  wf_buffer buffer -> header_fits buffer ->
  let C := Z.of_nat (numberOfChannels buffer) in
  let F := Z.of_nat (length buffer) in
  let R := sampleRate buffer in
  let dataSize := C * F * 4 in
  let byte (v k : Z) := (v / 2 ^ (8 * k)) mod 256 in
  let le2 (v : Z) := [byte v 0; byte v 1] in
  let le4 (v : Z) := [byte v 0; byte v 1; byte v 2; byte v 3] in
  exists out : list Z,
    audioBufferToWav buffer = Some out /\
    Z.of_nat (len out) = 44 + C * F * 4 /\
    Forall (fun b => 0 <= b <= 255) out /\
    bytes_at out 0 4 = [82; 73; 70; 70] /\
    bytes_at out 4 4 = le4 (36 + dataSize) /\
    uint_at out 4 4 = 36 + dataSize /\
    bytes_at out 8 4 = [87; 65; 86; 69] /\
    bytes_at out 12 4 = [102; 109; 116; 32] /\
    bytes_at out 16 4 = [16; 0; 0; 0] /\
    bytes_at out 20 2 = [3; 0] /\
    bytes_at out 22 2 = le2 C /\
    uint_at out 22 2 = C /\
    bytes_at out 24 4 = le4 R /\
    uint_at out 24 4 = R /\
    bytes_at out 28 4 = le4 (R * (C * 4)) /\
    uint_at out 28 4 = R * (C * 4) /\
    bytes_at out 32 2 = le2 (C * 4) /\
    uint_at out 32 2 = C * 4 /\
    bytes_at out 34 2 = [32; 0] /\
    bytes_at out 36 4 = [100; 97; 116; 97] /\
    bytes_at out 40 4 = le4 dataSize /\
    uint_at out 40 4 = dataSize /\
    drop 44 out = interleaved buffer /\
    (forall (i j : nat) (ch : list Z) (s : Z),
        (i < length buffer)%nat ->
        channelData buffer !! j = Some ch -> ch !! i = Some s ->
        bytes_at out (44 + 4 * (i * numberOfChannels buffer + j)) 4 = le4 s).
Proof.
  intros [Hc Hframes] (HR & HC16 & Hrate & Hsize). cbn zeta.
  exists (wav_header (Z.of_nat (numberOfChannels buffer)) (sampleRate buffer)
                     (Z.of_nat (length buffer)) ++ interleaved buffer).
  set (C := Z.of_nat (numberOfChannels buffer)) in *.
  set (F := Z.of_nat (length buffer)) in *.
  set (R := sampleRate buffer) in *.
  assert (HCF : 0 <= C * F) by (subst C F; nia).
  assert (HC : 0 <= C) by (subst C; lia).
  split; [now apply audioBufferToWav_bytes |].
  split.
  { rewrite length_app, length_wav_header, length_interleaved, Hc.
    subst C F. nia. }
  split.
  { apply Forall_app. split; [| apply interleaved_range].
    unfold wav_header.
    repeat (apply Forall_app; split);
      first [apply ascii_bytes_range | apply le_bytes_range]. }
  split; [header_field |].
  split; [header_field; exact (le_bytes_4_explicit (36 + C * F * 4)) |].
  split; [header_field; exact_field 4%nat (36 + C * F * 4) |].
  split; [header_field |].
  split; [header_field |].
  split; [header_field |].
  split; [header_field |].
  split; [header_field; exact (le_bytes_2_explicit C) |].
  split; [header_field; exact_field 2%nat C |].
  split; [header_field; exact (le_bytes_4_explicit R) |].
  split; [header_field; exact_field 4%nat R |].
  split; [header_field; exact (le_bytes_4_explicit (R * (C * 4))) |].
  split; [header_field; exact_field 4%nat (R * (C * 4)) |].
  split; [header_field; exact (le_bytes_2_explicit (C * 4)) |].
  split; [header_field; exact_field 2%nat (C * 4) |].
  split; [header_field |].
  split; [header_field |].
  split; [header_field; exact (le_bytes_4_explicit (C * F * 4)) |].
  split; [header_field; exact_field 4%nat (C * F * 4) |].
  split.
  { rewrite drop_app_length'; [reflexivity | symmetry; apply length_wav_header]. }
  intros i j ch s Hi Hch Hs. unfold bytes_at.
  rewrite <- drop_drop.
  rewrite drop_app_length' by (symmetry; apply length_wav_header).
  rewrite <- Hc. rewrite <- le_bytes_4_explicit.
  now apply (sample_in_payload buffer i j ch s).
Qed.

Lemma audioBufferToWav_layout_witness :
  exists out : list Z,
    audioBufferToWav stereo_two_frames = Some out /\ Z.of_nat (len out) = 60.
Proof.
  destruct (audioBufferToWav_layout stereo_two_frames) as (out & Hout & Hlen & _).
  - split; [reflexivity |]. repeat constructor.
  - unfold header_fits. cbn. lia.
  - exists out. split; [exact Hout | exact Hlen].
Defined.

End WavFacts.

(* ===================================================================== *)
(** * Properties of the AudioEngine *)
(* ===================================================================== *)

Module EngineFacts.
Import Types Engine.

(** ** Object spread *)

Lemma lookup_spread {V : Type} (base over : gmap string V) (k : string) :
  spread base over !! k
  = match over !! k with Some v => Some v | None => base !! k end.
Proof.
  unfold spread. rewrite lookup_union.
  destruct (over !! k), (base !! k); reflexivity.
Qed.

Lemma spread_empty {V : Type} (base : gmap string V) : spread base ∅ = base.
Proof. unfold spread. apply (left_id_L ∅ (∪)). Qed.

Lemma TrackType_eqb_refl (ty : TrackType) : TrackType_eqb ty ty = true.
Proof. destruct ty; reflexivity. Qed.

(** [trigger] dispatches on the kind of the track, so the guard of the voice
    it calls never fires. *)
Lemma trigger_resolves (track : Track) (pl : option PLocks) (time : Q)
  (note : string) (velocity : Q) :
  exists voice,
    trigger track pl time note velocity = Some voice /\
    v_type voice = type track /\
    v_params voice = resolveParams (type track) track pl /\
    v_fxSends voice = resolveFxSends track pl /\
    v_volume voice = resolveVolume track pl /\
    v_time voice = time.
Proof.
  unfold trigger, createKickVoice, createHatVoice, createPolyVoice,
    createBassVoice, createModalVoice, createRiftVoice, createGrainVoice,
    createScreamVoice, createVoice.
  destruct (type track) eqn:Hty; cbn [TrackType_eqb negb];
    eexists; (split; [reflexivity |]); cbn; repeat split; reflexivity.
Qed.

(** C1.  Triggering a track with a step lock builds the voice from a
    parameter set in which every top-level key holds the lock's value when
    the lock of the track's kind defines that key and the track's base value
    otherwise; the volume is the lock's when defined, else the track's; each
    FX-send channel is merged by the same rule on its own; and a nested
    sub-record (filter, envelope, oscillator, LFO) named by the lock is the
    lock's sub-record as a whole, whatever the base holds under that key. *)
Theorem parameter_lock_resolution (track : Track) (pl : option PLocks)
  (time : Q) (note : string) (velocity : Q) :
  let lock := default ∅ (pl ≫= kindParams (type track)) in
  let lockFx := default ∅ (pl ≫= lock_fxSends) in
  exists voice,
    trigger track pl time note velocity = Some voice /\
    (forall leaf : string,
        v_params voice !! leaf
        = match lock !! leaf with
          | Some v => Some v
          | None => params track !! leaf
          end) /\
    v_volume voice
    = match pl ≫= lock_volume with
      | Some v => v
      | None => volume track
      end /\
    (forall channel : string,
        v_fxSends voice !! channel
        = match lockFx !! channel with
          | Some x => Some x
          | None => fxSends track !! channel
          end) /\
    (forall (group : string) (f : FilterParams),
        lock !! group = Some (VFilter f) ->
        v_params voice !! group = Some (VFilter f)) /\
    (forall (group : string) (e : Envelope),
        lock !! group = Some (VEnvelope e) ->
        v_params voice !! group = Some (VEnvelope e)) /\
    (forall (group : string) (o : OscillatorParams),
        lock !! group = Some (VOsc o) ->
        v_params voice !! group = Some (VOsc o)) /\
    (forall (group : string) (l : LFOParams),
        lock !! group = Some (VLfo l) ->
        v_params voice !! group = Some (VLfo l)).
Proof.
  cbn zeta.
  destruct (trigger_resolves track pl time note velocity)
    as (voice & Htrig & _ & Hp & Hfx & Hvol & _).
  exists voice. split; [exact Htrig |].
  assert (Hleaf : forall leaf : string,
             v_params voice !! leaf
             = match default ∅ (pl ≫= kindParams (type track)) !! leaf with
               | Some v => Some v
               | None => params track !! leaf
               end).
  { intros leaf. rewrite Hp. apply lookup_spread. }
  split; [exact Hleaf |].
  split.
  { rewrite Hvol. unfold resolveVolume. destruct (pl ≫= lock_volume); reflexivity. }
  split.
  { intros channel. rewrite Hfx. apply lookup_spread. }
  repeat split; intros group sub Hsub; rewrite Hleaf, Hsub; reflexivity.
Qed.

Lemma parameter_lock_resolution_witness :
  exists voice,
    trigger polyDemoTrack (Some highpassLock) 0 "C4" 1 = Some voice /\
    v_params voice !! "filter"%string
    = Some (VFilter {| filter_type := highpass; cutoff := 900; resonance := 5;
                       envAmount := None |}).
Proof.
  destruct (parameter_lock_resolution polyDemoTrack (Some highpassLock) 0 "C4" 1)
    as (voice & Htrig & _ & _ & _ & Hfilter & _).
  exists voice. split; [exact Htrig |].
  apply Hfilter. reflexivity.
Defined.

(** ** Feedback gains *)

Lemma delay_feedback_below_unity (p : DelayParams) (bpm : Q) :
  delayFeedbackDomain (feedback p) ->
  (delayFeedbackGain (updateDelay p bpm) < 1)%Q.
Proof. unfold delayFeedbackDomain, updateDelay. cbn. intros [_ Hhi]. lra. Qed.

Lemma rift_feedback_below_unity (params : gmap string value) (fb : Q) :
  num params "feedback" = Some fb -> riftFeedbackDomain fb ->
  exists g, riftFeedbackGain params = Some g /\ (0 <= g)%Q /\ (g < 1)%Q.
Proof.
  unfold riftFeedbackDomain, riftFeedbackGain. intros -> [Hlo Hhi].
  cbn [mbind option_bind]. eexists. split; [reflexivity |].
  split.
  - apply Qmult_le_0_compat; [| lra]. apply Qle_shift_div_l; lra.
  - apply Qle_lt_trans with (95 / 100 * 0.95)%Q; [| reflexivity].
    apply Qmult_le_compat_r; [| lra].
    apply Qmult_le_compat_r; [exact Hhi | discriminate].
Qed.

Lemma scream_feedback_below_unity (params : gmap string value) (fb : Q) :
  num params "feedback" = Some fb ->
  exists g, screamFeedbackGain params = Some g /\ (g <= 0.99)%Q /\ (g < 1)%Q.
Proof.
  unfold screamFeedbackGain. intros ->. cbn [mbind option_bind].
  eexists. split; [reflexivity |].
  pose proof (Q.le_min_l 0.99 (fb / 100)) as Hmin.
  split; [exact Hmin |].
  apply Qle_lt_trans with 0.99%Q; [exact Hmin | reflexivity].
Qed.

Lemma kick_ducking_gain_unity (params : gmap string value) (g : Q) :
  kickDuckingGain params = Some g -> g = 1%Q.
Proof.
  unfold kickDuckingGain.
  destruct (num params "rumbleAmount") as [r |]; [| discriminate].
  destruct (Qlt_le_dec 0 r); [| discriminate]. now intros [= <-].
Qed.

(** The values written to the gain nodes that lie on a loop are below 1
    over the ranges of their knobs. *)
Lemma written_loop_gains_below_unity :
  (forall (p : DelayParams) (bpm : Q),
      delayFeedbackDomain (feedback p) ->
      (delayFeedbackGain (updateDelay p bpm) < 1)%Q) /\
  (forall (params : gmap string value) (fb : Q),
      num params "feedback" = Some fb -> riftFeedbackDomain fb ->
      exists g, riftFeedbackGain params = Some g /\ (g < 1)%Q) /\
  (forall (params : gmap string value) (fb : Q),
      num params "feedback" = Some fb ->
      exists g, screamFeedbackGain params = Some g /\ (g < 1)%Q).
Proof.
  split; [exact delay_feedback_below_unity |].
  split.
  - intros params fb Hfb Hdom.
    destruct (rift_feedback_below_unity params fb Hfb Hdom) as (g & Hg & _ & Hlt).
    eauto.
  - intros params fb Hfb.
    destruct (scream_feedback_below_unity params fb Hfb) as (g & Hg & _ & Hlt).
    eauto.
Qed.

Lemma lfo_on_feedback (ty : TrackType) (dest : string) (fb d : Q) :
  (1 <= d)%Q ->
  Voices.lfoTargets ty false !! dest = Some (Some "feedbackGain.gain"%string) ->
  dest <> "none"%string ->
  let params : gmap string value :=
    {[ "feedback"%string := VNum fb;
       "lfo1"%string :=
         VLfo {| lfo_waveform := sine; rate := 5; depth := d;
                 destination := dest |} ]} in
  let node :=
    {| Voices.lfo_type := sine; Voices.lfo_frequency := 5;
       Voices.lfo_gain := d; Voices.lfo_target := "feedbackGain.gain";
       Voices.lfo_start := 0 |} in
  num params "feedback" = Some fb /\
  Voices.voiceLfos ty false params 0 = [node] /\
  forall (written : Q) (out : Voices.LfoNode -> Q),
    (Voices.paramValue written (Voices.voiceLfos ty false params 0)
       "feedbackGain.gain" out == written + d * out node)%Q.
Proof.
  intros Hd Htarget Hdest. cbn zeta.
  assert (Hvoice :
    Voices.voiceLfos ty false
      {[ "feedback"%string := VNum fb;
         "lfo1"%string :=
           VLfo {| lfo_waveform := sine; rate := 5; depth := d;
                   destination := dest |} ]} 0
    = [ {| Voices.lfo_type := sine; Voices.lfo_frequency := 5;
           Voices.lfo_gain := d; Voices.lfo_target := "feedbackGain.gain";
           Voices.lfo_start := 0 |} ]).
  { set (params := ({[ "feedback"%string := VNum fb;
                       "lfo1"%string :=
                         VLfo {| lfo_waveform := sine; rate := 5; depth := d;
                                 destination := dest |} ]}
                    : gmap string value)).
    assert (H1 : params !! "lfo1"%string
                 = Some (VLfo {| lfo_waveform := sine; rate := 5; depth := d;
                                 destination := dest |}))
      by (vm_compute; reflexivity).
    assert (H2 : params !! "lfo2"%string = None) by (vm_compute; reflexivity).
    unfold Voices.voiceLfos, Voices.lfoOf. cbn [omap list_omap].
    rewrite H1, H2. unfold Voices.applyLFO.
    cbn [destination depth lfo_waveform rate].
    destruct (String.eqb_spec dest "none") as [Heq | _]; [contradiction |].
    destruct (Qeq_bool d 0) eqn:Hz.
    { apply Qeq_bool_iff in Hz. lra. }
    cbn [orb]. rewrite Htarget. reflexivity. }
  split.
  { unfold num. now rewrite lookup_insert_eq. }
  split; [exact Hvoice |].
  intros written out. rewrite Hvoice. unfold Voices.paramValue.
  cbn [List.fold_right Voices.lfo_target Voices.lfo_gain].
  rewrite String.eqb_refl. lra.
Qed.

(** C4, at the failing input.  The gain nodes that lie on a loop are
    [feedbackGain] of the Rift and of the Scream voice ([delayFeedback] on
    the effects bus; the Kick graph has none, its ducking gain is a
    feed-forward gain written as 1).  The value written to [feedbackGain] is
    below 1, but the editors offer the gain as an LFO destination and
    [applyLFO] connects the oscillator, through a gain of [depth], to
    [feedbackGain.gain], where it is added to the written value.  A Rift
    voice at feedback 95 with a sine LFO of depth 1 on [riftFeedback] has
    0.9025 written and a loop gain of [0.9025 + out], which is 1 or more
    whenever the oscillator puts out 0.0975 or more.  For every feedback in
    the range of the knob and every depth from 1 up the loop gain of either
    voice reaches at least 1 at the peak of the oscillator. *)
Theorem lfo_lifts_feedback_gain_to_unity :
  loopGains busGraph = ["delayFeedback"%string] /\
  loopGains riftGraph = ["feedbackGain"%string] /\
  loopGains screamGraph = ["feedbackGain"%string] /\
  (forall rumble : bool, loopGains (kickGraph rumble) = []) /\
  kickDuckingGain kickParamsWithRumble = Some 1%Q /\
  List.In "riftFeedback"%string (Voices.destOptions rift) /\
  List.In "screamFeedback"%string (Voices.destOptions scream) /\
  riftFeedbackDomain 95 /\ Voices.lfoDepthDomain 1 /\
  (exists (written : Q) (node : Voices.LfoNode),
      riftFeedbackGain (Voices.riftParamsWithLfo 95 1) = Some written /\
      (written == 0.9025)%Q /\
      Voices.voiceLfos rift false (Voices.riftParamsWithLfo 95 1) 0 = [node] /\
      Voices.lfo_target node = "feedbackGain.gain"%string /\
      Voices.lfo_gain node = 1%Q /\
      forall out : Voices.LfoNode -> Q,
        (Voices.paramValue written
           (Voices.voiceLfos rift false (Voices.riftParamsWithLfo 95 1) 0)
           "feedbackGain.gain" out == 0.9025 + out node)%Q /\
        ((0.0975 <= out node)%Q ->
         (1 <= Voices.paramValue written
                 (Voices.voiceLfos rift false (Voices.riftParamsWithLfo 95 1) 0)
                 "feedbackGain.gain" out)%Q)) /\
  (forall fb d : Q,
      riftFeedbackDomain fb -> (1 <= d)%Q ->
      exists (written : Q) (node : Voices.LfoNode),
        riftFeedbackGain (Voices.riftParamsWithLfo fb d) = Some written /\
        (written < 1)%Q /\
        Voices.voiceLfos rift false (Voices.riftParamsWithLfo fb d) 0 = [node] /\
        forall out : Voices.LfoNode -> Q,
          (out node == 1)%Q ->
          (1 <= Voices.paramValue written
                  (Voices.voiceLfos rift false (Voices.riftParamsWithLfo fb d) 0)
                  "feedbackGain.gain" out)%Q) /\
  (forall fb d : Q,
      screamFeedbackDomain fb -> (1 <= d)%Q ->
      exists (written : Q) (node : Voices.LfoNode),
        screamFeedbackGain (Voices.screamParamsWithLfo fb d) = Some written /\
        (written < 1)%Q /\
        Voices.voiceLfos scream false (Voices.screamParamsWithLfo fb d) 0
        = [node] /\
        forall out : Voices.LfoNode -> Q,
          (out node == 1)%Q ->
          (1 <= Voices.paramValue written
                  (Voices.voiceLfos scream false
                     (Voices.screamParamsWithLfo fb d) 0)
                  "feedbackGain.gain" out)%Q).
Proof.
  split; [vm_compute; reflexivity |].
  split; [vm_compute; reflexivity |].
  split; [vm_compute; reflexivity |].
  split; [intros []; vm_compute; reflexivity |].
  split; [reflexivity |].
  split; [cbn; tauto |].
  split; [cbn; tauto |].
  split; [split; discriminate |].
  split; [split; discriminate |].
  split.
  { destruct (lfo_on_feedback rift "riftFeedback" 95 1) as (Hfb & Hvoice & Hval);
      [discriminate | reflexivity | discriminate |].
    fold (Voices.riftParamsWithLfo 95 1) in Hfb, Hvoice, Hval.
    eexists _, _. split.
    { unfold riftFeedbackGain. rewrite Hfb. reflexivity. }
    split; [reflexivity |]. split; [exact Hvoice |].
    split; [reflexivity |]. split; [reflexivity |].
    intros out. pose proof (Hval (95 / 100 * 0.95)%Q out) as Hv.
    split.
    - rewrite Hv. assert (95 / 100 * 0.95 == 0.9025)%Q by reflexivity. lra.
    - intros Hout. rewrite Hv.
      assert (95 / 100 * 0.95 == 0.9025)%Q by reflexivity. lra. }
  split.
  { intros fb d Hdom Hd.
    destruct (lfo_on_feedback rift "riftFeedback" fb d Hd)
      as (Hfb & Hvoice & Hval); [reflexivity | discriminate |].
    fold (Voices.riftParamsWithLfo fb d) in Hfb, Hvoice, Hval.
    destruct (rift_feedback_below_unity _ fb Hfb Hdom) as (g & Hg & Hg0 & Hg1).
    eexists g, _. split; [exact Hg |]. split; [exact Hg1 |].
    split; [exact Hvoice |].
    intros out Hout. rewrite (Hval g out). cbn [Voices.lfo_gain] in *.
    rewrite Hout. lra. }
  intros fb d [Hlo Hhi] Hd.
  destruct (lfo_on_feedback scream "screamFeedback" fb d Hd)
    as (Hfb & Hvoice & Hval); [reflexivity | discriminate |].
  fold (Voices.screamParamsWithLfo fb d) in Hfb, Hvoice, Hval.
  destruct (scream_feedback_below_unity _ fb Hfb) as (g & Hg & Hg99 & Hg1).
  assert (Hg0 : (0 <= g)%Q).
  { unfold screamFeedbackGain in Hg. rewrite Hfb in Hg.
    cbn [mbind option_bind] in Hg. injection Hg as <-.
    apply Q.min_glb; [discriminate |].
    apply Qle_shift_div_l; [reflexivity | lra]. }
  eexists g, _. split; [exact Hg |]. split; [exact Hg1 |].
  split; [exact Hvoice |].
  intros out Hout. rewrite (Hval g out). rewrite Hout. lra.
Qed.

(** ** The filter-envelope amount of the Poly voice *)

(** Without a locked [envAmount] both readings give 3000 for a positive
    attack and 0 otherwise. *)
Lemma filterEnvAmount_unlocked (pl : option PLocks) (params : gmap string value) :
  legacyEnvAmount pl = None ->
  polyFilterEnvAmount pl params = filterEnvAmount_as_specified pl params.
Proof.
  intros Hnone. unfold polyFilterEnvAmount, filterEnvAmount_as_specified.
  now rewrite Hnone.
Qed.

(** A locked [envAmount] only selects between 3000 and 0. *)
Lemma filterEnvAmount_locked (pl : option PLocks) (params : gmap string value)
  (a : Q) :
  legacyEnvAmount pl = Some a ->
  polyFilterEnvAmount pl params = Some (if truthy a then 3000 else 0)%Q.
Proof. intros Hsome. unfold polyFilterEnvAmount. now rewrite Hsome. Qed.

(** C6, at the failing input.  With [envAmount] locked to 1500 the code
    resolves the amount to 3000; the expression as the specification
    parenthesises it gives 1500.  An envelope is created in both cases. *)
Theorem polyFilterEnvAmount_locked_1500 :
  polyFilterEnvAmount (Some (legacyFilterLock 1500)) polyBaseParams = Some 3000%Q /\
  filterEnvAmount_as_specified (Some (legacyFilterLock 1500)) polyBaseParams
  = Some 1500%Q /\
  polyHasFilterEnvelope 3000 = true /\
  polyHasFilterEnvelope 0 = false.
Proof. repeat split. Qed.

End EngineFacts.

(* ===================================================================== *)
(** * Properties of the scheduler and of the export loop *)
(* ===================================================================== *)

Module SequencerFacts.
Import Types Engine Sequencer.

(** ** Floors of step quotients *)

Lemma Qfloor_unique (x : Q) (n : Z) :
  (inject_Z n <= x)%Q -> (x < inject_Z (n + 1))%Q -> Qfloor x = n.
Proof.
  intros Hlo Hhi.
  pose proof (Qfloor_le x) as Hfl. pose proof (Qlt_floor x) as Hfu.
  assert (H1 : (inject_Z (Qfloor x) < inject_Z (n + 1))%Q)
    by (eapply Qle_lt_trans; eassumption).
  assert (H2 : (inject_Z n < inject_Z (Qfloor x + 1))%Q)
    by (eapply Qle_lt_trans; eassumption).
  rewrite <- Zlt_Qlt in H1, H2. lia.
Qed.

Lemma Qfloor_add_Z (x : Q) (k : Z) : Qfloor (x + inject_Z k) = Qfloor x + k.
Proof.
  apply Qfloor_unique.
  - rewrite inject_Z_plus. pose proof (Qfloor_le x). lra.
  - replace (Qfloor x + k + 1) with ((Qfloor x + 1) + k) by lia.
    rewrite inject_Z_plus. pose proof (Qlt_floor x). lra.
Qed.

Lemma stepTime_pos (bpm : Q) : (0 < bpm)%Q -> (0 < stepTime bpm)%Q.
Proof.
  intros Hbpm. unfold stepTime.
  apply Qlt_shift_div_l; [reflexivity |].
  apply Qlt_shift_div_l; [exact Hbpm |]. lra.
Qed.

Lemma Qfloor_nonneg (x : Q) : (0 <= x)%Q -> 0 <= Qfloor x.
Proof. intros Hx. change 0 with (Qfloor 0). now apply Qfloor_resp_le. Qed.

Lemma stepCount_nonneg (bpm t : Q) :
  (0 < bpm)%Q -> (0 <= t)%Q -> 0 <= stepCount bpm t.
Proof.
  intros Hbpm Ht. apply Qfloor_nonneg.
  apply Qle_shift_div_l; [now apply stepTime_pos | lra].
Qed.

(** [k] steps later the count is [k] higher. *)
Lemma stepCount_later (bpm t : Q) (k : Z) :
  (0 < bpm)%Q ->
  stepCount bpm (t + inject_Z k * stepTime bpm) = stepCount bpm t + k.
Proof.
  intros Hbpm. unfold stepCount. pose proof (stepTime_pos bpm Hbpm) as Hs.
  rewrite <- Qfloor_add_Z. apply Qfloor_comp.
  field. intros Hz. rewrite Hz in Hs. now apply Qlt_irrefl in Hs.
Qed.

(** On the [n]-th step boundary the count is [n]. *)
Lemma stepCount_on_grid (bpm : Q) (n : Z) :
  (0 < bpm)%Q -> stepCount bpm (inject_Z n * stepTime bpm) = n.
Proof.
  intros Hbpm. unfold stepCount. pose proof (stepTime_pos bpm Hbpm) as Hs.
  rewrite <- (Qfloor_Z n) at 2. apply Qfloor_comp.
  field. intros Hz. rewrite Hz in Hs. now apply Qlt_irrefl in Hs.
Qed.

Lemma localCurrentStep_mod (bpm t : Q) :
  (0 < bpm)%Q -> (0 <= t)%Q ->
  localCurrentStep bpm t = stepCount bpm t mod 16.
Proof.
  intros Hbpm Ht. unfold localCurrentStep. fold (stepCount bpm t).
  apply Z.rem_mod_nonneg; [now apply stepCount_nonneg | lia].
Qed.

Lemma localStepIndex_mod (bpm t : Q) (track : Track) :
  (0 < bpm)%Q -> (0 <= t)%Q -> 0 < patternLength track ->
  localStepIndex bpm t track
  = Some ((stepCount bpm t mod 16) mod patternLength track).
Proof.
  intros Hbpm Ht HL. unfold localStepIndex, js_rem.
  destruct (Z.eqb_spec (patternLength track) 0) as [H0 | _]; [lia |].
  rewrite localCurrentStep_mod by assumption.
  f_equal. apply Z.rem_mod_nonneg; [| lia].
  apply Z.mod_pos_bound. lia.
Qed.

(** A pattern length that divides 16 sees through the 16-step cursor. *)
Lemma wrapped_step_divisor (g L : Z) :
  0 < L -> (L | 16) -> (g mod 16) mod L = g mod L.
Proof. intros _ Hdiv. now apply Z.mod_mod_divide. Qed.

(** ** The local step of a track *)

(** C2, at the failing input.  At 120 bpm a step lasts 0.125 s, and the
    cursor stands on global step [g] at time [g * 0.125], both exact in
    binary.  A track of pattern length 12 is at local step 4 on global step 4
    and at local step 0 on global step 16, twelve steps later: the cursor is
    wrapped to 16 before it is reduced modulo the pattern length, so the
    local sequence restarts every 16 steps and does not have period 12.
    Tracks of lengths 16 and 12 are both at step 0 on global step 16, which
    is no multiple of 48.  In the first 48 global steps the scheduler
    triggers the downbeat of the 12-step track on steps 0, 12, 16, 28, 32
    and 44, where period 12 puts it on 0, 12, 24 and 36. *)
Theorem wrapped_cursor_breaks_period_12 :
  let st := demoState 0 in
  let track := downbeatTrack 12 in
  let globalSteps := List.map Z.of_nat (List.seq 0 48) in
  let localStep (g : Z) (t : Track) :=
    localStepIndex (bpm st) (inject_Z g * stepTime (bpm st)) t in
  (stepTime (bpm st) == 0.125)%Q /\
  localStep 4 track = Some 4 /\
  localStep (4 + patternLength track) track = Some 0 /\
  List.map (fun g => localStep g track) globalSteps
  = List.map Some
      [0; 1; 2; 3; 4; 5; 6; 7; 8; 9; 10; 11; 0; 1; 2; 3;
       0; 1; 2; 3; 4; 5; 6; 7; 8; 9; 10; 11; 0; 1; 2; 3;
       0; 1; 2; 3; 4; 5; 6; 7; 8; 9; 10; 11; 0; 1; 2; 3] /\
  localStep 16 (downbeatTrack 16) = Some 0 /\
  localStep 16 track = Some 0 /\
  16 mod 48 = 16 /\
  List.filter
    (fun g => match scheduleTrack (onStep st g) track with
              | [] => false
              | _ :: _ => true
              end)
    globalSteps
  = [0; 12; 16; 28; 32; 44].
Proof. cbn zeta. repeat split; vm_compute; reflexivity. Qed.

(** ** Scheduler against export loop *)

(** Within the first bar the two loops make the same calls, for every
    pattern length. *)
Lemma scheduler_export_agree_first_bar (st : AppState) (i : Z) (track : Track) :
  (0 < bpm st)%Q -> 0 <= i < 16 ->
  scheduleTrack (onStep st i) track = exportTrack st i track.
Proof.
  intros Hbpm Hi. unfold scheduleTrack, exportTrack, onStep. cbn.
  destruct (isAudible (soloedTrackId st) (mutedTracks st) track); [| reflexivity].
  cbn [negb].
  assert (Hidx : localStepIndex (bpm st) (inject_Z i * stepTime (bpm st)) track
                 = js_rem i (patternLength track)).
  { unfold localStepIndex. f_equal.
    rewrite localCurrentStep_mod; [| assumption |].
    - rewrite stepCount_on_grid by assumption. apply Z.mod_small. lia.
    - apply Qmult_le_0_compat.
      + change 0%Q with (inject_Z 0). rewrite <- Zle_Qle. lia.
      + apply Qlt_le_weak. now apply stepTime_pos. }
  rewrite Hidx. reflexivity.
Qed.

(** So do they at any step when the pattern length divides 16. *)
Lemma scheduler_export_agree_divisor (st : AppState) (i : Z) (track : Track) :
  (0 < bpm st)%Q -> 0 <= i -> 0 < patternLength track ->
  (patternLength track | 16) ->
  scheduleTrack (onStep st i) track = exportTrack st i track.
Proof.
  intros Hbpm Hi HL Hdiv. unfold scheduleTrack, exportTrack, onStep. cbn.
  destruct (isAudible (soloedTrackId st) (mutedTracks st) track); [| reflexivity].
  cbn [negb].
  assert (Hidx : localStepIndex (bpm st) (inject_Z i * stepTime (bpm st)) track
                 = js_rem i (patternLength track)).
  { rewrite localStepIndex_mod; [| assumption | | assumption].
    - rewrite stepCount_on_grid by assumption.
      rewrite wrapped_step_divisor by assumption.
      unfold js_rem.
      destruct (Z.eqb_spec (patternLength track) 0); [lia |].
      f_equal. symmetry. apply Z.rem_mod_nonneg; lia.
    - apply Qmult_le_0_compat.
      + change 0%Q with (inject_Z 0). rewrite <- Zle_Qle. lia.
      + apply Qlt_le_weak. now apply stepTime_pos. }
  rewrite Hidx. reflexivity.
Qed.

(** C3, at the failing input.  A track of pattern length 12 that plays its
    first step only, at 120 bpm, step counter 16: the scheduler has wrapped
    its cursor to 0 and triggers step 0, the export loop computes
    [16 % 12 = 4] and triggers nothing. *)
Theorem scheduler_and_export_diverge_at_step_16 :
  let st := demoState 0 in
  let track := downbeatTrack 12 in
  nextNoteTime (onStep st 16) = (inject_Z 16 * stepTime 120)%Q /\
  localStepIndex (bpm st) (nextNoteTime (onStep st 16)) track = Some 0 /\
  js_rem 16 (patternLength track) = Some 4 /\
  List.length (scheduleTrack (onStep st 16) track) = 1%nat /\
  exportTrack st 16 track = [].
Proof. cbn zeta. repeat split; vm_compute; reflexivity. Qed.

(** ** The scheduler loop *)

Lemma scheduleStep_frame (st : AppState) :
  tracks (scheduleStep st) = tracks st /\ bpm (scheduleStep st) = bpm st /\
  mutedTracks (scheduleStep st) = mutedTracks st /\
  soloedTrackId (scheduleStep st) = soloedTrackId st.
Proof. repeat split. Qed.

Lemma scheduleNotes_frame (fuel : nat) (now : Q) :
  forall st st', scheduleNotes fuel now st = Some st' ->
    tracks st' = tracks st /\ bpm st' = bpm st.
Proof.
  induction fuel as [| fuel IH]; intros st st'; cbn [scheduleNotes];
    destruct (Qlt_le_dec (nextNoteTime st) (now + scheduleAheadTime));
    intros Hrun; try discriminate; try (injection Hrun as <-; now split).
  destruct (IH _ _ Hrun) as [Ht Hb]. now rewrite Ht, Hb.
Qed.

(** With [k] passes of fuel the loop drains a window that is at most [k]
    steps wide: it returns, with the cursor at or past the end of the
    window. *)
Lemma scheduleNotes_drains (k : nat) (now : Q) :
  forall st,
    (0 < bpm st)%Q ->
    (now + scheduleAheadTime
     <= nextNoteTime st + inject_Z (Z.of_nat k) * stepTime (bpm st))%Q ->
    exists st', scheduleNotes k now st = Some st' /\
                (now + scheduleAheadTime <= nextNoteTime st')%Q.
Proof.
  induction k as [| k IH]; intros st Hbpm Hwin; cbn [scheduleNotes];
    destruct (Qlt_le_dec (nextNoteTime st) (now + scheduleAheadTime)) as [Hlt | Hge];
    try (exists st; now split).
  - exfalso. change (inject_Z (Z.of_nat 0)) with 0%Q in Hwin. lra.
  - apply IH; [exact Hbpm |]. cbn [scheduleStep nextNoteTime bpm].
    rewrite Nat2Z.inj_succ in Hwin. unfold Z.succ in Hwin.
    rewrite inject_Z_plus, Qmult_plus_distr_l in Hwin.
    change (inject_Z 1) with 1%Q in Hwin. lra.
Qed.

(** Enough fuel always exists. *)
Lemma scheduleNotes_terminates (now : Q) (st : AppState) :
  (0 < bpm st)%Q ->
  exists fuel st', scheduleNotes fuel now st = Some st' /\
                   (now + scheduleAheadTime <= nextNoteTime st')%Q /\
                   tracks st' = tracks st.
Proof.
  intros Hbpm. pose proof (stepTime_pos _ Hbpm) as Hs.
  set (w := ((now + scheduleAheadTime - nextNoteTime st) / stepTime (bpm st))%Q).
  destruct (scheduleNotes_drains (Z.to_nat (Qceiling w)) now st Hbpm)
    as (st' & Hrun & Hpast).
  - assert (Hw : (w <= inject_Z (Z.of_nat (Z.to_nat (Qceiling w))))%Q).
    { eapply Qle_trans; [apply Qle_ceiling |]. rewrite <- Zle_Qle. lia. }
    assert (Hws : (w * stepTime (bpm st)
                   == now + scheduleAheadTime - nextNoteTime st)%Q).
    { unfold w. field. intros Hz. rewrite Hz in Hs. now apply Qlt_irrefl in Hs. }
    assert (Hmono : (w * stepTime (bpm st)
                     <= inject_Z (Z.of_nat (Z.to_nat (Qceiling w)))
                        * stepTime (bpm st))%Q)
      by (apply Qmult_le_compat_r; [exact Hw | lra]).
    lra.
  - exists (Z.to_nat (Qceiling w)), st'. repeat split; try assumption.
    now apply (scheduleNotes_frame _ _ _ _ Hrun).
Qed.

(** ** Placing a lock on one step *)

Lemma kindParams_setKindParams (ty : TrackType) (o : gmap string value)
  (l : PLocks) :
  kindParams ty (setKindParams ty o l) = Some o.
Proof. destruct ty; reflexivity. Qed.

(** A step without a lock resolves to the base configuration of the track. *)
Lemma resolve_without_lock (ty : TrackType) (track : Track) :
  resolveParams ty track None = params track /\
  resolveFxSends track None = fxSends track /\
  resolveVolume track None = volume track.
Proof.
  unfold resolveParams, resolveFxSends, resolveVolume.
  cbn [mbind option_bind from_option id].
  now rewrite !EngineFacts.spread_empty.
Qed.

(** Locking [param] on step [i] rewrites that step and nothing else. *)
Lemma lockParam_frame (track track' : Track) (i : nat) (param : string)
  (v : value) :
  lockParam track i param v = Some track' ->
  id track' = id track /\ type track' = type track /\
  params track' = params track /\ fxSends track' = fxSends track /\
  volume track' = volume track /\
  patternLength track' = patternLength track /\
  defaultNote track' = defaultNote track /\
  (forall j : nat, j <> i -> steps track' !! j = steps track !! j) /\
  exists locked : StepState,
    steps track' !! i = Some locked /\
    resolveParams (type track') track' (pLocks locked) !! param = Some v.
Proof.
  unfold lockParam. destruct (steps track !! i) as [cur |] eqn:Hcur;
    [| discriminate].
  cbn [mbind option_bind]. intros [= <-]. cbn.
  repeat split; try reflexivity.
  - intros j Hj. now apply list_lookup_insert_ne.
  - eexists. split.
    + apply list_lookup_insert_eq. now apply lookup_lt_Some in Hcur.
    + cbn. unfold resolveParams. cbn.
      rewrite kindParams_setKindParams. cbn.
      apply lookup_union_Some_l, lookup_insert_eq.
Qed.

(** C7.  Placing a parameter lock on step 3 of a track leaves the base
    parameters, FX sends and volume of the track and every other step as they
    were; step 3 then resolves the locked parameter to the locked value;
    step 5 is the step it was, and when it carries no lock of its own it
    resolves to exactly the unmodified base parameters, FX sends and volume.
    The scheduler passes the track table through unchanged, whatever it
    triggers. *)
Theorem lock_on_step_3_leaves_step_5 (track track' : Track) (param : string)
  (v : value) :
  lockParam track 3 param v = Some track' ->
  params track' = params track /\
  fxSends track' = fxSends track /\
  volume track' = volume track /\
  (forall j : nat, j <> 3%nat -> steps track' !! j = steps track !! j) /\
  (exists step3 : StepState,
      steps track' !! 3%nat = Some step3 /\
      resolveParams (type track') track' (pLocks step3) !! param = Some v) /\
  (forall step5 : StepState,
      steps track !! 5%nat = Some step5 ->
      steps track' !! 5%nat = Some step5 /\
      resolveParams (type track') track' (pLocks step5)
      = resolveParams (type track) track (pLocks step5) /\
      resolveFxSends track' (pLocks step5) = resolveFxSends track (pLocks step5) /\
      resolveVolume track' (pLocks step5) = resolveVolume track (pLocks step5) /\
      (pLocks step5 = None ->
       resolveParams (type track') track' (pLocks step5) = params track /\
       resolveFxSends track' (pLocks step5) = fxSends track /\
       resolveVolume track' (pLocks step5) = volume track)) /\
  (forall (fuel : nat) (now : Q) (st st' : AppState),
      scheduleNotes fuel now st = Some st' -> tracks st' = tracks st) /\
  (forall st : AppState, tracks (scheduleStep st) = tracks st).
Proof.
  intros Hlock.
  destruct (lockParam_frame _ _ _ _ _ Hlock)
    as (_ & Hty & Hp & Hfx & Hvol & _ & _ & Hsteps & Hlocked).
  split; [exact Hp |]. split; [exact Hfx |]. split; [exact Hvol |].
  split; [exact Hsteps |]. split; [exact Hlocked |].
  split.
  - intros step5 H5.
    split; [rewrite Hsteps by lia; exact H5 |].
    unfold resolveParams, resolveFxSends, resolveVolume.
    rewrite Hty, Hp, Hfx, Hvol.
    do 3 (split; [reflexivity |]).
    intros ->. cbn [mbind option_bind from_option id].
    now rewrite !EngineFacts.spread_empty.
  - split.
    + intros fuel now st st' Hrun. now apply (scheduleNotes_frame _ _ _ _ Hrun).
    + reflexivity.
Qed.

Lemma lock_on_step_3_leaves_step_5_witness :
  exists track' : Track,
    lockParam (downbeatTrack 16) 3 "tone" cutoffLock = Some track' /\
    params track' = params (downbeatTrack 16) /\
    resolveParams (type track') track' (pLocks (plainStep false))
    = params (downbeatTrack 16).
Proof.
  eexists. split; [reflexivity |].
  destruct (lock_on_step_3_leaves_step_5 (downbeatTrack 16) _ "tone" cutoffLock eq_refl)
    as (Hp & _ & _ & _ & _ & H5 & _).
  split; [exact Hp |].
  destruct (H5 (plainStep false) eq_refl) as (_ & _ & _ & _ & Hbase).
  now apply Hbase.
Defined.

End SequencerFacts.

(* ===================================================================== *)
(** * Further properties of utils.ts *)
(* ===================================================================== *)

Module UtilsMore.
Import Utils.

Ltac each_char c :=
  destruct c as [[] [] [] [] [] [] [] []].

Lemma slice_last_single (s : string) :
  s <> EmptyString -> exists c, slice_last s = String c EmptyString.
Proof.
  induction s as [| c rest IH]; intros Hne; [congruence |].
  destruct rest as [| c' rest'].
  - exists c. reflexivity.
  - destruct IH as [d Hd]; [discriminate |]. exists d. exact Hd.
Qed.

(** [parseInt] of one character is that digit or [NaN]. *)
Lemma parseInt_single (c : ascii) :
  parseInt (String c EmptyString) = NaN \/
  exists d, 0 <= d <= 9 /\ parseInt (String c EmptyString) = Int d.
Proof.
  each_char c;
    vm_compute;
    first [ left; reflexivity
          | right; eexists; split; [| reflexivity]; split; discriminate ].
Qed.

Lemma indexOf_from_range (l : list string) (x : string) :
  forall i, indexOf_from i l x = -1 \/
            i <= indexOf_from i l x < i + Z.of_nat (List.length l).
Proof.
  induction l as [| y tl IH]; intros i; cbn [indexOf_from List.length].
  - now left.
  - destruct (String.eqb y x); [right; lia |].
    destruct (IH (i + 1)) as [-> | Hr]; [now left | right; lia].
Qed.

(** X1.  Whatever the string, the result is [NaN] or a pitch between 12 and 131:
    the default 60, or twelve times one more than a one-digit octave plus a
    note index below twelve. *)
Theorem noteNameToMidi_range (name : string) :
  noteNameToMidi name = NaN \/
  exists m, noteNameToMidi name = Int m /\ 12 <= m <= 131.
Proof.
  unfold noteNameToMidi.
  destruct (Nat.ltb_spec (String.length name) 2) as [Hshort | Hlong].
  { right. exists 60. split; [reflexivity | lia]. }
  destruct (Z.eqb_spec (indexOf NOTE_NAMES (toUpperCase (slice_init name))) (-1))
    as [Hnone | Hsome].
  { right. exists 60. split; [reflexivity | lia]. }
  destruct (indexOf_from_range NOTE_NAMES (toUpperCase (slice_init name)) 0)
    as [Hbad | Hidx]; [contradiction |].
  fold (indexOf NOTE_NAMES (toUpperCase (slice_init name))) in Hidx.
  change (Z.of_nat (List.length NOTE_NAMES)) with 12 in Hidx.
  destruct (slice_last_single name) as [c Hc].
  { intros ->. cbn in Hlong. lia. }
  rewrite Hc. destruct (parseInt_single c) as [-> | (d & Hd & ->)].
  - left. reflexivity.
  - right. cbn [jsadd jsmul]. eexists. split; [reflexivity | lia].
Qed.

(** Both ends of the range are met. *)
Example noteNameToMidi_lowest : noteNameToMidi "C0" = Int 12.
Proof. reflexivity. Qed.

Example noteNameToMidi_highest : noteNameToMidi "B9" = Int 131.
Proof. reflexivity. Qed.

(** *** Letter case *)

Lemma length_toUpperCase (s : string) :
  String.length (toUpperCase s) = String.length s.
Proof. induction s as [| c rest IH]; cbn; [| rewrite IH]; reflexivity. Qed.

Lemma upper_char_idempotent (c : ascii) : upper_char (upper_char c) = upper_char c.
Proof. each_char c; reflexivity. Qed.

Lemma toUpperCase_idempotent (s : string) :
  toUpperCase (toUpperCase s) = toUpperCase s.
Proof.
  induction s as [| c rest IH]; cbn [toUpperCase]; [reflexivity |].
  now rewrite upper_char_idempotent, IH.
Qed.

Lemma slice_last_toUpperCase (s : string) :
  slice_last (toUpperCase s) = toUpperCase (slice_last s).
Proof.
  induction s as [| c rest IH]; [reflexivity |].
  destruct rest as [| c' rest']; [reflexivity |].
  cbn [toUpperCase slice_last] in *. exact IH.
Qed.

Lemma slice_init_toUpperCase (s : string) :
  slice_init (toUpperCase s) = toUpperCase (slice_init s).
Proof.
  induction s as [| c rest IH]; [reflexivity |].
  destruct rest as [| c' rest']; [reflexivity |].
  cbn [toUpperCase slice_init] in *. now rewrite IH.
Qed.

Lemma parseInt_upper_single (c : ascii) :
  parseInt (String (upper_char c) EmptyString) = parseInt (String c EmptyString).
Proof. each_char c; reflexivity. Qed.

(** X2.  An ASCII name and its upper-case form convert to the same pitch: the
    note letter may be typed in either case.  (Beyond ASCII the upper-case
    form of a name can have another length, and the statement is not made.) *)
Theorem noteNameToMidi_ignores_case (name : string) :
  isAscii name = true ->
  noteNameToMidi (toUpperCase name) = noteNameToMidi name.
Proof.
  intros _. unfold noteNameToMidi.
  rewrite length_toUpperCase, slice_last_toUpperCase, slice_init_toUpperCase,
    toUpperCase_idempotent.
  destruct (String.length name <? 2)%nat eqn:Hlen; [reflexivity |].
  destruct name as [| c0 rest]; [discriminate |].
  destruct (slice_last_single (String c0 rest)) as [c Hc]; [discriminate |].
  rewrite Hc. cbn [toUpperCase]. now rewrite parseInt_upper_single.
Qed.

Lemma noteNameToMidi_ignores_case_witness :
  toUpperCase "c#4" = "C#4"%string /\
  noteNameToMidi (toUpperCase "c#4") = noteNameToMidi "c#4".
Proof.
  split; [reflexivity |].
  apply (noteNameToMidi_ignores_case "c#4"). reflexivity.
Defined.

(** *** Distinct pitches, distinct names *)

(** X3.  Two pitches between 0 and 127 with the same name are the same pitch. *)
Theorem midiToNoteName_injective (a b : Z) :
  0 <= a <= 127 -> 0 <= b <= 127 ->
  midiToNoteName a = midiToNoteName b -> a = b.
Proof.
  intros Ha Hb Heq.
  assert (Hall :
    List.forallb
      (fun a' =>
         List.forallb
           (fun b' => (a' =? b')
                      || negb (String.eqb (midiToNoteName a') (midiToNoteName b')))
           (Zrange 0 128))
      (Zrange 0 128) = true)
    by (vm_compute; reflexivity).
  pose proof (UtilsFacts.forallb_Zrange _ _ _ Hall a ltac:(lia)) as Hrow.
  cbn beta in Hrow.
  pose proof (UtilsFacts.forallb_Zrange _ _ _ Hrow b ltac:(lia)) as Hcell.
  cbn beta in Hcell. rewrite Heq, String.eqb_refl in Hcell.
  cbn [negb] in Hcell. rewrite orb_false_r in Hcell. now apply Z.eqb_eq.
Qed.

Lemma midiToNoteName_injective_witness : 0 = 0.
Proof.
  apply (midiToNoteName_injective 0 0); [lia | lia | reflexivity].
Defined.

End UtilsMore.

(* ===================================================================== *)
(** * Further properties of wavUtils.ts *)
(* ===================================================================== *)

Module WavMore.
Import WavUtils WavFacts.

Local Abbreviation len := List.length.

Lemma write_at_fits (view bs : list Z) (offset : nat) :
  (offset + len bs <= len view)%nat ->
  write_at view offset bs
  = Some (take offset view ++ bs ++ drop (offset + len bs) view).
Proof.
  intros Hfit. unfold write_at.
  destruct (Nat.leb_spec (offset + len bs) (len view)); [reflexivity | lia].
Qed.

Lemma write_at_overflow (view bs : list Z) (offset : nat) :
  (len view < offset + len bs)%nat -> write_at view offset bs = None.
Proof.
  intros Hbig. unfold write_at.
  destruct (Nat.leb_spec (offset + len bs) (len view)); [lia | reflexivity].
Qed.

Lemma length_ascii_bytes (s : string) : len (ascii_bytes s) = String.length s.
Proof.
  unfold ascii_bytes. rewrite List.length_map.
  induction s as [| c rest IH]; cbn; [| rewrite IH]; reflexivity.
Qed.

Lemma writeString_from_fits (str : string) :
  forall (view : list Z) (offset i : nat),
    (offset + i + String.length str <= len view)%nat ->
    writeString_from view offset i str
    = Some (take (offset + i) view ++ ascii_bytes str
            ++ drop (offset + i + String.length str) view).
Proof.
  induction str as [| c rest IH]; intros view offset i Hfit.
  - cbn. now rewrite Nat.add_0_r, take_drop.
  - cbn [writeString_from String.length] in *. unfold setUint8.
    rewrite write_at_fits by (cbn; lia). cbn [mbind option_bind].
    rewrite IH.
    2:{ rewrite !length_app, length_take, length_drop. cbn. lia. }
    f_equal. cbn [le_bytes]. rewrite charCode_byte.
    set (A := take (offset + i) view).
    assert (HA : len A = (offset + i)%nat) by (unfold A; rewrite length_take; lia).
    cbn [len].
    rewrite (app_assoc A [charCode c]).
    rewrite take_app_length' by (rewrite length_app; cbn; lia).
    replace (offset + S i + String.length rest)%nat
      with (len (A ++ [charCode c]) + String.length rest)%nat
      by (rewrite length_app; cbn; lia).
    rewrite drop_app_add' by reflexivity.
    rewrite drop_drop.
    unfold ascii_bytes. cbn [list_ascii_of_string List.map].
    rewrite <- !app_assoc. cbn [app]. tail_arith.
Qed.

Lemma writeString_from_overflow (str : string) :
  forall (view : list Z) (offset i : nat),
    str <> EmptyString ->
    (len view < offset + i + String.length str)%nat ->
    writeString_from view offset i str = None.
Proof.
  induction str as [| c rest IH]; intros view offset i Hne Hbig; [congruence |].
  cbn [writeString_from String.length] in *. unfold setUint8.
  destruct (Nat.le_gt_cases (offset + i + 1) (len view)) as [Hfit | Hover].
  - rewrite write_at_fits by (cbn; lia). cbn [mbind option_bind].
    destruct rest as [| c' rest'].
    + cbn in Hbig. lia.
    + apply IH; [discriminate |].
      rewrite !length_app, length_take, length_drop. cbn [len le_bytes String.length] in *.
      lia.
  - rewrite write_at_overflow by (cbn; lia). reflexivity.
Qed.

(** X4.  [writeString] succeeds exactly when the text fits behind [offset] (an
    empty text always does); it then stores the character codes at
    [offset ..] and leaves the length and every other byte as they were. *)
Theorem writeString_spec (view : list Z) (offset : nat) (str : string) :
  (str = EmptyString \/ (offset + String.length str <= len view)%nat ->
   exists view',
     writeString view offset str = Some view' /\
     len view' = len view /\
     (str <> EmptyString -> bytes_at view' offset (String.length str) = ascii_bytes str) /\
     (forall k : nat,
         (k < offset)%nat \/ (offset + String.length str <= k)%nat ->
         view' !! k = view !! k)) /\
  (str <> EmptyString -> (len view < offset + String.length str)%nat ->
   writeString view offset str = None).
Proof.
  split.
  - intros [-> | Hfit].
    + exists view. split; [reflexivity |]. split; [reflexivity |].
      split; [congruence | reflexivity].
    + exists (take offset view ++ ascii_bytes str
              ++ drop (offset + String.length str) view).
      split.
      { unfold writeString. rewrite writeString_from_fits by lia.
        now rewrite Nat.add_0_r. }
      split.
      { rewrite !length_app, length_take, length_drop, length_ascii_bytes. lia. }
      split.
      { intros _. unfold bytes_at.
        rewrite drop_app_length' by (rewrite length_take; lia).
        rewrite take_app_length' by (now rewrite length_ascii_bytes).
        reflexivity. }
      intros k [Hk | Hk].
      * rewrite lookup_app_l by (rewrite length_take; lia).
        apply lookup_take_lt. lia.
      * rewrite app_assoc, lookup_app_r
          by (rewrite length_app, length_take, length_ascii_bytes; lia).
        rewrite length_app, length_take, length_ascii_bytes, lookup_drop.
        f_equal. lia.
  - intros Hne Hbig. unfold writeString.
    apply writeString_from_overflow; [exact Hne | lia].
Qed.

Lemma writeString_spec_witness :
  exists view',
    writeString [0; 0; 0; 0; 0; 0] 1 "data" = Some view' /\ len view' = 6%nat.
Proof.
  destruct (writeString_spec [0; 0; 0; 0; 0; 0] 1 "data") as [Hfit _].
  destruct Hfit as (view' & Hw & Hlen & _); [right; cbn; lia |].
  exists view'. split; [exact Hw | exact Hlen].
Defined.

(** X5.  For any buffer that has the channels it announces the writer returns
    [44 + C * F * 4] bytes, and each numeric header field holds its quantity
    reduced modulo the width of the field: a quantity that does not fit wraps
    around, nothing is rejected. *)
Theorem audioBufferToWav_fields_wrap (buffer : AudioBuffer) :
  len (channelData buffer) = numberOfChannels buffer ->
  let C := Z.of_nat (numberOfChannels buffer) in
  let F := Z.of_nat (length buffer) in
  let R := sampleRate buffer in
  exists out : list Z,
    audioBufferToWav buffer = Some out /\
    Z.of_nat (len out) = 44 + C * F * 4 /\
    uint_at out 4 4 = (36 + C * F * 4) mod 2 ^ 32 /\
    uint_at out 22 2 = C mod 2 ^ 16 /\
    uint_at out 24 4 = R mod 2 ^ 32 /\
    uint_at out 28 4 = (R * (C * 4)) mod 2 ^ 32 /\
    uint_at out 32 2 = (C * 4) mod 2 ^ 16 /\
    uint_at out 40 4 = (C * F * 4) mod 2 ^ 32.
Proof.
  intros Hc. cbn zeta.
  exists (wav_header (Z.of_nat (numberOfChannels buffer)) (sampleRate buffer)
                     (Z.of_nat (length buffer)) ++ interleaved buffer).
  split; [now apply audioBufferToWav_bytes |].
  split.
  { rewrite length_app, length_wav_header, length_interleaved, Hc. nia. }
  repeat split; header_field;
    match goal with
    | |- le_value ?l = ?x mod 2 ^ 32 =>
        change (le_value (le_bytes 4 x) = x mod 256 ^ Z.of_nat 4)
    | |- le_value ?l = ?x mod 2 ^ 16 =>
        change (le_value (le_bytes 2 x) = x mod 256 ^ Z.of_nat 2)
    end; apply le_value_le_bytes.
Qed.

Lemma audioBufferToWav_fields_wrap_witness :
  exists out : list Z,
    audioBufferToWav overRateBuffer = Some out /\ uint_at out 24 4 = 44100.
Proof.
  destruct (audioBufferToWav_fields_wrap overRateBuffer eq_refl)
    as (out & Hout & _ & _ & _ & Hrate & _).
  exists out. split; [exact Hout | exact Hrate].
Defined.

End WavMore.

(* ===================================================================== *)
(** * Properties of the voices *)
(* ===================================================================== *)

Module VoicesFacts.
Import Types Engine Voices.

(** Linear arithmetic over [Q] with divisions by numerals. *)
Ltac qlra :=
  unfold Qdiv in *;
  repeat match goal with
         | |- context [Qinv (Qmake ?n ?d)] =>
             let v := eval vm_compute in (Qinv (Qmake n d)) in
             change (Qinv (Qmake n d)) with v
         | H : context [Qinv (Qmake ?n ?d)] |- _ =>
             let v := eval vm_compute in (Qinv (Qmake n d)) in
             change (Qinv (Qmake n d)) with v in H
         end;
  lra.

(** ** Envelopes *)

Lemma epsilon_pos : (0 < epsilon)%Q.
Proof. reflexivity. Qed.

(** X6.  Whatever the arguments, [applyEnvelope] starts at [time] from a small
    positive value, ramps for at least one millisecond and for at least
    [attack], and then decays toward a level that is never below that small
    value; with a decay that is not negative the time constant is positive. *)
Theorem applyEnvelope_shape (time attack decay sustain peak : Q) :
  exists attackEndTime sustainLevel timeConstant : Q,
    applyEnvelope time attack decay sustain peak
    = [ SetValueAtTime epsilon time;
        LinearRampToValueAtTime peak attackEndTime;
        SetTargetAtTime sustainLevel attackEndTime timeConstant ] /\
    (time + 0.001 <= attackEndTime)%Q /\
    (time + attack <= attackEndTime)%Q /\
    (time < attackEndTime)%Q /\
    (0 < sustainLevel)%Q /\
    (peak * sustain <= sustainLevel)%Q /\
    ((0 <= decay)%Q -> (0 < timeConstant)%Q).
Proof.
  do 3 eexists. split; [reflexivity |].
  pose proof (Q.le_max_l 0.001 attack) as H1.
  pose proof (Q.le_max_r 0.001 attack) as H2.
  pose proof (Q.le_max_l epsilon (peak * sustain)) as H3.
  pose proof (Q.le_max_r epsilon (peak * sustain)) as H4.
  pose proof epsilon_pos as He.
  repeat split; try lra.
  intros Hd. assert (0 <= decay / 4)%Q by (apply Qle_shift_div_l; lra). lra.
Qed.

(** ** Effect sends *)

Lemma gt0_Some (x : option Q) :
  gt0 x = true <-> exists g, x = Some g /\ (0 < g)%Q.
Proof.
  unfold gt0. destruct x as [q |].
  - destruct (Qlt_le_dec 0 q) as [Hpos | Hle]; split.
    + eauto.
    + reflexivity.
    + discriminate.
    + intros (g & [= <-] & Hg). lra.
  - split; [discriminate | intros (g & Hg & _); discriminate].
Qed.

Lemma connectToFX_In (fxSends : gmap string Q) (input : string) (g : Q) :
  List.In (input, g) (connectToFX fxSends) <->
  exists channel : string,
    sendInput channel = Some input /\ fxSends !! channel = Some g /\ (0 < g)%Q.
Proof.
  unfold connectToFX. rewrite !List.in_app_iff. split.
  - intros [Hin | [Hin | Hin]].
    + destruct (gt0 (fxSends !! "reverb"%string)) eqn:Hg; [| destruct Hin].
      apply gt0_Some in Hg as (q & Hq & Hpos). rewrite Hq in Hin.
      destruct Hin as [[= <- <-] | []]. exists "reverb"%string. eauto.
    + destruct (gt0 (fxSends !! "delay"%string)) eqn:Hg; [| destruct Hin].
      apply gt0_Some in Hg as (q & Hq & Hpos). rewrite Hq in Hin.
      destruct Hin as [[= <- <-] | []]. exists "delay"%string. eauto.
    + destruct (gt0 (fxSends !! "drive"%string)) eqn:Hg; [| destruct Hin].
      apply gt0_Some in Hg as (q & Hq & Hpos). rewrite Hq in Hin.
      destruct Hin as [[= <- <-] | []]. exists "drive"%string. eauto.
  - intros (channel & Hinput & Hg & Hpos). unfold sendInput in Hinput.
    assert (Hgt : gt0 (fxSends !! channel) = true)
      by (apply gt0_Some; eauto).
    destruct (String.eqb channel "reverb") eqn:E1.
    { apply String.eqb_eq in E1. subst channel.
      injection Hinput as <-. left. rewrite Hgt, Hg. now left. }
    destruct (String.eqb channel "delay") eqn:E2.
    { apply String.eqb_eq in E2. subst channel.
      injection Hinput as <-. right; left. rewrite Hgt, Hg. now left. }
    destruct (String.eqb channel "drive") eqn:E3; [| discriminate].
    apply String.eqb_eq in E3. subst channel.
    injection Hinput as <-. right; right. rewrite Hgt, Hg. now left.
Qed.

(** X7.  A send is wired to an effect exactly when the channel that feeds this
    effect is a number above zero, and its gain is that number: a send of
    zero, a negative one or a missing one creates no node. *)
Theorem connectToFX_sends (fxSends : gmap string Q) (input : string) (g : Q) :
  List.In (input, g) (connectToFX fxSends) <->
  exists channel : string,
    sendInput channel = Some input /\ fxSends !! channel = Some g /\ (0 < g)%Q.
Proof. apply connectToFX_In. Qed.

(** X8.  For one step a lock decides each send on its own: a channel the lock sets
    to zero has no send on that step although the track's base send is
    positive, and a channel the lock leaves out keeps the base send. *)
Theorem lock_silences_send (track : Track) (pl : PLocks)
  (lockFx : gmap string Q) (channel input : string) :
  lock_fxSends pl = Some lockFx -> sendInput channel = Some input ->
  (lockFx !! channel = Some 0%Q ->
   forall g, ~ List.In (input, g) (connectToFX (resolveFxSends track (Some pl)))) /\
  (lockFx !! channel = None ->
   forall g, List.In (input, g) (connectToFX (resolveFxSends track (Some pl)))
             <-> List.In (input, g) (connectToFX (fxSends track))).
Proof.
  intros Hlock Hinput.
  assert (Hinj : forall c, sendInput c = Some input -> c = channel).
  { intros c Hc. unfold sendInput in Hc, Hinput.
    destruct (String.eqb c "reverb") eqn:C1, (String.eqb c "delay") eqn:C2,
      (String.eqb c "drive") eqn:C3,
      (String.eqb channel "reverb") eqn:E1, (String.eqb channel "delay") eqn:E2,
      (String.eqb channel "drive") eqn:E3;
      rewrite ?String.eqb_eq in *; subst; try congruence; try discriminate. }
  assert (Hres : forall c, resolveFxSends track (Some pl) !! c
                           = match lockFx !! c with
                             | Some x => Some x
                             | None => fxSends track !! c
                             end).
  { intros c. unfold resolveFxSends. cbn [mbind option_bind].
    rewrite Hlock. cbn [from_option id]. apply EngineFacts.lookup_spread. }
  split.
  - intros Hzero g Hin. apply connectToFX_In in Hin as (c & Hc & Hg & Hpos).
    apply Hinj in Hc as ->. rewrite Hres, Hzero in Hg.
    injection Hg as <-. now apply Qlt_irrefl in Hpos.
  - intros Hnone g. rewrite !connectToFX_In. split.
    + intros (c & Hc & Hg & Hpos). pose proof (Hinj c Hc) as ->.
      rewrite Hres, Hnone in Hg. eauto.
    + intros (c & Hc & Hg & Hpos). pose proof (Hinj c Hc) as ->.
      exists channel. rewrite Hres, Hnone. eauto.
Qed.

(** ** Low-frequency oscillators *)

Lemma applyLFO_Some (p : LFOParams) (time : Q)
  (targets : gmap string (option string)) (n : LfoNode) :
  applyLFO (Some p) time targets = Some n <->
  destination p <> "none"%string /\ ~ (depth p == 0)%Q /\
  targets !! destination p = Some (Some (lfo_target n)) /\
  lfo_type n = lfo_waveform p /\ lfo_frequency n = rate p /\
  lfo_gain n = depth p /\ lfo_start n = time.
Proof.
  unfold applyLFO.
  destruct (String.eqb_spec (destination p) "none") as [Hnone | Hdest].
  { cbn [orb]. split; [discriminate | intros [H _]; contradiction]. }
  destruct (Qeq_bool (depth p) 0) eqn:Hdepth.
  { cbn [orb]. apply Qeq_bool_iff in Hdepth.
    split; [discriminate | intros (_ & H & _); contradiction]. }
  apply Qeq_bool_neq in Hdepth. cbn [orb].
  destruct (targets !! destination p) as [[tp |] |] eqn:Htarget.
  - split.
    + intros [= <-]. cbn. repeat split; assumption.
    + intros (_ & _ & [= ->] & H1 & H2 & H3 & H4).
      destruct n; cbn in *; subst; reflexivity.
  - split; [discriminate | intros (_ & _ & H & _); discriminate].
  - split; [discriminate | intros (_ & _ & H & _); discriminate].
Qed.

Lemma lock_silences_send_witness :
  fxSends reverbSendTrack !! "reverb"%string = Some 0.1%Q /\
  forall g : Q,
    ~ List.In ("reverbPreDelay"%string, g)
        (connectToFX (resolveFxSends reverbSendTrack (Some reverbOffLock))).
Proof.
  split; [reflexivity |].
  destruct (lock_silences_send reverbSendTrack reverbOffLock
              {[ "reverb"%string := 0%Q ]} "reverb" "reverbPreDelay"
              eq_refl eq_refl) as [H _].
  apply H. reflexivity.
Defined.

(** X9.  An oscillator is started exactly when the destination is not ["none"],
    the depth is not zero and the voice has a parameter for the destination.
    Measured against the destinations the editors offer, that leaves some
    that never start one: the rumble decay of the Kick (and its rumble amount
    and tone while the rumble layer is off), pitch and structure of Modal,
    fold and drive of Rift, pitch, density and size of Grain, pitch of
    Scream; Hat, Poly and Bass have none. *)
Theorem applyLFO_inert_destinations :
  (forall (p : LFOParams) (time : Q) (targets : gmap string (option string)),
      is_Some (applyLFO (Some p) time targets) <->
      destination p <> "none"%string /\ ~ (depth p == 0)%Q /\
      exists target, targets !! destination p = Some (Some target)) /\
  (forall (ty : TrackType) (rumble : bool) (p : LFOParams) (time : Q),
      List.In (destination p) (inertDestinations ty rumble (destOptions ty)) ->
      applyLFO (Some p) time (lfoTargets ty rumble) = None) /\
  inertDestinations kick true (destOptions kick) = ["kickRumbleDecay"%string] /\
  inertDestinations kick false (destOptions kick)
  = ["kickRumbleAmt"; "kickRumbleDecay"; "kickRumbleTone"]%string /\
  (forall rumble, inertDestinations hat rumble (destOptions hat) = []) /\
  (forall rumble, inertDestinations poly rumble (destOptions poly) = []) /\
  (forall rumble, inertDestinations bass rumble (destOptions bass) = []) /\
  (forall rumble, inertDestinations modal rumble (destOptions modal)
                  = ["pitch"; "modalStructure"]%string) /\
  (forall rumble, inertDestinations rift rumble (destOptions rift)
                  = ["riftFold"; "riftDrive"]%string) /\
  (forall rumble, inertDestinations grain rumble (destOptions grain)
                  = ["pitch"; "grainDensity"; "grainSize"]%string) /\
  (forall rumble, inertDestinations scream rumble (destOptions scream)
                  = ["pitch"]%string).
Proof.
  split.
  { intros p time targets. split.
    - intros [n Hn]. apply applyLFO_Some in Hn as (H1 & H2 & H3 & _). eauto.
    - intros (H1 & H2 & target & H3).
      exists {| lfo_type := lfo_waveform p; lfo_frequency := rate p;
                lfo_gain := depth p; lfo_target := target; lfo_start := time |}.
      apply applyLFO_Some. cbn. repeat split; assumption. }
  split.
  { intros ty rumble p time Hin.
    unfold inertDestinations in Hin. apply List.filter_In in Hin as [_ Hin].
    apply andb_true_iff in Hin as [_ Hno].
    destruct (applyLFO (Some p) time (lfoTargets ty rumble)) as [n |] eqn:Hn;
      [| reflexivity].
    apply applyLFO_Some in Hn as (_ & _ & Ht & _). rewrite Ht in Hno.
    discriminate. }
  repeat split; try intros []; vm_compute; reflexivity.
Qed.

(** ** Cross-fades and the Kick's attack *)

(** X10.  The two gains of the Kick's clean/saturated blend and the two gains of
    the Poly oscillator mix always add up to one, and over the range of the
    knob (0 to 100) neither leaves the interval from 0 to 1. *)
Theorem crossfade_gains (x : Q) :
  (kickCleanGain x + kickSaturatedGain x == 1)%Q /\
  (polyOsc1Gain x + polyOsc2Gain x == 1)%Q /\
  ((0 <= x <= 100)%Q ->
   (0 <= kickCleanGain x <= 1)%Q /\ (0 <= kickSaturatedGain x <= 1)%Q /\
   (0 <= polyOsc1Gain x <= 1)%Q /\ (0 <= polyOsc2Gain x <= 1)%Q).
Proof.
  unfold kickCleanGain, kickSaturatedGain, polyOsc1Gain, polyOsc2Gain.
  split; [field |]. split; [field |].
  intros [Hlo Hhi]. repeat split; qlra.
Qed.

Lemma crossfade_gains_witness : (0 <= kickCleanGain 50 <= 1)%Q.
Proof.
  destruct (crossfade_gains 50) as (_ & _ & Hrange).
  destruct Hrange as (H & _); [split; discriminate | exact H].
Defined.



(** ** The grain schedule *)

Lemma grainCount_range (density : Q) :
  (0 <= density <= 100)%Q -> 2 <= grainCount density <= 22.
Proof.
  intros [Hlo Hhi]. unfold grainCount.
  assert (H0 : Qfloor 0 <= Qfloor (density / 100 * 20))
    by (apply Qfloor_resp_le; qlra).
  assert (H20 : Qfloor (density / 100 * 20) <= Qfloor 20)
    by (apply Qfloor_resp_le; qlra).
  change (Qfloor 0) with 0 in H0. change (Qfloor 20) with 20 in H20. lia.
Qed.

Lemma unit_product (x t w : Q) :
  (0 <= x <= 1)%Q -> (0 <= t)%Q -> (0 <= w <= 1)%Q ->
  (0 <= x * t * w <= t)%Q.
Proof.
  intros [Hx0 Hx1] Ht [Hw0 Hw1].
  assert (H1 : (0 <= x * t)%Q) by (apply Qmult_le_0_compat; assumption).
  assert (H2 : (x * t <= 1 * t)%Q) by (apply Qmult_le_compat_r; assumption).
  assert (H3 : (0 <= x * t * w)%Q) by (apply Qmult_le_0_compat; assumption).
  assert (H4 : (x * t * w <= x * t * 1)%Q).
  { rewrite !(Qmult_comm (x * t)). apply Qmult_le_compat_r; assumption. }
  split; [exact H3 | lra].
Qed.

(** X12.  With the knobs in their ranges a Grain voice has between 2 and 22
    grains.  Every grain starts at or after the trigger, no later than one and
    a half decays after it and so before the voice's stop time, and sounds
    for twice the grain size, which is at least 20 ms.  With [spread] at 100
    the window has no width: all grains start on the trigger. *)
Theorem grains_schedule (time decay density spread grainSize : Q) :
  (0 <= density <= 100)%Q -> (0 <= decay)%Q -> (0 <= spread <= 100)%Q ->
  let gs := grains time decay density spread grainSize in
  2 <= grainCount density <= 22 /\
  Z.of_nat (List.length gs) = grainCount density /\
  (forall g, List.In g gs ->
     (time <= g_start g)%Q /\ (g_start g <= time + decay * 1.5)%Q /\
     (g_start g < grainStopTime time decay)%Q /\
     (g_stop g == g_start g + 2 * gSize grainSize)%Q /\
     (0.02 <= g_stop g - g_start g)%Q) /\
  ((spread == 100)%Q -> forall g, List.In g gs -> (g_start g == time)%Q).
Proof.
  intros Hdens Hdecay Hspread. cbn zeta.
  pose proof (grainCount_range density Hdens) as Hcount.
  split; [exact Hcount |].
  split.
  { unfold grains. rewrite List.length_map, List.length_seq. lia. }
  assert (Hgs : (0.01 <= gSize grainSize)%Q) by apply Q.le_max_l.
  assert (Hfrac : forall k : nat,
             (k < Z.to_nat (grainCount density))%nat ->
             (0 <= inject_Z (Z.of_nat k) / inject_Z (grainCount density) <= 1)%Q).
  { intros k Hk.
    assert (Hc : (0 < inject_Z (grainCount density))%Q)
      by (change 0%Q with (inject_Z 0); rewrite <- Zlt_Qlt; lia).
    split.
    - apply Qle_shift_div_l; [exact Hc |]. rewrite Qmult_0_l.
      change 0%Q with (inject_Z 0). rewrite <- Zle_Qle. lia.
    - apply Qle_shift_div_r; [exact Hc |]. rewrite Qmult_1_l.
      rewrite <- Zle_Qle. lia. }
  split.
  - intros g Hin. unfold grains in Hin. apply List.in_map_iff in Hin as (k & <- & Hk).
    apply List.in_seq in Hk. cbn [grainAt g_start g_stop].
    pose proof (unit_product _ (decay * 1.5) (1 - spread / 100)
                  (Hfrac k ltac:(lia)) ltac:(lra) ltac:(qlra)) as [Hlo Hhi].
    unfold grainStopTime. repeat split; lra.
  - intros Hfull g Hin. unfold grains in Hin.
    apply List.in_map_iff in Hin as (k & <- & Hk). cbn [grainAt g_start].
    rewrite Hfull. field.
    change 0%Q with (inject_Z 0). rewrite inject_Z_injective. lia.
Qed.

Lemma grains_schedule_witness :
  Z.of_nat (List.length (grains 0 0.3 50 20 30)) = grainCount 50.
Proof.
  destruct (grains_schedule 0 0.3 50 20 30) as (_ & Hlen & _).
  - split; discriminate.
  - discriminate.
  - split; discriminate.
  - exact Hlen.
Defined.

(** ** The resonator bank of the Modal voice *)

Lemma modeRatio_increasing (structure : Q) (i : nat) :
  (0 <= structure <= 100)%Q -> (S i < 8)%nat ->
  (modeRatio structure i < modeRatio structure (S i))%Q.
Proof.
  intros Hs Hi. unfold modeRatio.
  do 7 (destruct i as [| i]; [cbn; qlra |]). lia.
Qed.

Lemma modeAt_Some (baseFreq sampleRate structure brightness decay damping : Q)
  (i : nat) (m : Mode) :
  modeAt baseFreq sampleRate structure brightness decay damping i = Some m ->
  m_index m = i /\ m_freq m = (baseFreq * modeRatio structure i)%Q /\
  (m_freq m <= sampleRate / 2)%Q /\ m_Q m = modeQ decay damping i.
Proof.
  unfold modeAt.
  destruct (Qlt_le_dec (sampleRate / 2) (baseFreq * modeRatio structure i));
    [discriminate |].
  intros [= <-]. cbn. repeat split. assumption.
Qed.

Lemma modeAt_None_next (baseFreq sampleRate structure brightness decay damping : Q)
  (i : nat) :
  (0 < baseFreq)%Q -> (0 <= structure <= 100)%Q -> (S i < 8)%nat ->
  modeAt baseFreq sampleRate structure brightness decay damping i = None ->
  modeAt baseFreq sampleRate structure brightness decay damping (S i) = None.
Proof.
  intros Hf Hs Hi. unfold modeAt.
  destruct (Qlt_le_dec (sampleRate / 2) (baseFreq * modeRatio structure i))
    as [Habove | _]; [intros _ | discriminate].
  destruct (Qlt_le_dec (sampleRate / 2) (baseFreq * modeRatio structure (S i)))
    as [_ | Hbelow]; [reflexivity | exfalso].
  pose proof (modeRatio_increasing structure i Hs Hi) as Hinc.
  assert (baseFreq * modeRatio structure i < baseFreq * modeRatio structure (S i))%Q
    by (rewrite !(Qmult_comm baseFreq); now apply Qmult_lt_compat_r).
  lra.
Qed.

(** Once a candidate is dropped, the later ones are dropped too, so what is
    kept is numbered from the start of the range. *)
Lemma omap_keeps_prefix {M : Type} (f : nat -> option M) (idx : M -> nat)
  (bound : nat) :
  (forall i, (S i < bound)%nat -> f i = None -> f (S i) = None) ->
  (forall i m, f i = Some m -> idx m = i) ->
  forall n a, (a + n <= bound)%nat ->
    List.map idx (omap f (List.seq a n))
    = List.seq a (List.length (omap f (List.seq a n))).
Proof.
  intros Hnext Hidx.
  assert (Hnone : forall n a, (a + n <= bound)%nat -> f a = None ->
                              omap f (List.seq a n) = []).
  { induction n as [| n IH]; intros a Hb Ha; [reflexivity |].
    cbn [List.seq omap list_omap]. rewrite Ha.
    destruct n as [| n']; [reflexivity |].
    apply IH; [lia |]. apply Hnext; [lia | exact Ha]. }
  induction n as [| n IH]; intros a Hb; [reflexivity |].
  destruct (f a) as [m |] eqn:Ha.
  - cbn [List.seq omap list_omap]. rewrite Ha.
    cbn [List.map List.length List.seq]. f_equal.
    + now apply Hidx.
    + apply IH. lia.
  - rewrite (Hnone (S n) a Hb Ha). reflexivity.
Qed.

Lemma modeQ_range (decay damping : Q) (i : nat) :
  (0 <= decay)%Q -> (5 <= modeQ decay damping i <= 200)%Q.
Proof.
  intros Hd. unfold modeQ. split; [| apply Q.le_min_l].
  apply Q.min_glb; [discriminate |].
  match goal with |- (_ <= _ * Qmax 0.1 ?e)%Q =>
    pose proof (Q.le_max_l 0.1 e) as Hmax; set (w := Qmax 0.1 e) in * end.
  assert (H1 : (50 * w <= (50 + decay * 200) * w)%Q)
    by (apply Qmult_le_compat_r; lra).
  lra.
Qed.

(** X13.  For a positive base frequency and [structure] within its range, the
    resonators of a Modal voice are the lowest modes, without a gap: the
    first that lies above half the sample rate ends the bank.  Each one that
    is built is tuned at or below half the sample rate, and with a decay that
    is not negative its Q lies between 5 and 200. *)
Theorem modes_bank (baseFreq sampleRate structure brightness decay damping : Q) :
  (0 < baseFreq)%Q -> (0 <= structure <= 100)%Q -> (0 <= decay)%Q ->
  let ms := modes baseFreq sampleRate structure brightness decay damping in
  (List.length ms <= 8)%nat /\
  List.map m_index ms = List.seq 0 (List.length ms) /\
  (forall m, List.In m ms ->
     (m_freq m <= sampleRate / 2)%Q /\
     m_freq m = (baseFreq * modeRatio structure (m_index m))%Q /\
     (5 <= m_Q m <= 200)%Q).
Proof.
  intros Hf Hs Hd. cbn zeta. unfold modes. change (Z.to_nat NUM_MODES) with 8%nat.
  set (f := modeAt baseFreq sampleRate structure brightness decay damping).
  assert (Hprefix : List.map m_index (omap f (List.seq 0 8))
                    = List.seq 0 (List.length (omap f (List.seq 0 8)))).
  { apply (omap_keeps_prefix f m_index 8); [| | lia].
    - intros i Hi. now apply modeAt_None_next.
    - intros i m Hm. now apply modeAt_Some in Hm as [H _]. }
  split.
  { assert (Hlen : (List.length (omap f (List.seq 0 8))
                    <= List.length (List.seq 0 8))%nat).
    { generalize (List.seq 0 8). intros l. induction l as [| x l IH];
        cbn [omap list_omap List.length]; [lia |].
      destruct (f x); cbn [List.length]; lia. }
    exact Hlen. }
  split; [exact Hprefix |].
  intros m Hin. apply list_elem_of_In, list_elem_of_omap in Hin as (i & _ & Hm).
  apply modeAt_Some in Hm as (Hi & Hfreq & Hny & HQ).
  split; [exact Hny |]. split; [now rewrite Hi |].
  rewrite HQ. now apply modeQ_range.
Qed.

Lemma modes_bank_witness :
  List.map m_index (modes 440 44100 25 60 0.5 30)
  = List.seq 0 (List.length (modes 440 44100 25 60 0.5 30)).
Proof.
  destruct (modes_bank 440 44100 25 60 0.5 30) as (_ & Hprefix & _).
  - reflexivity.
  - split; discriminate.
  - discriminate.
  - exact Hprefix.
Defined.

(** ** Tempo-synced delay times *)

Lemma synced_time_le (bpm division capacity : Q) :
  (0 < bpm)%Q ->
  ((60 / bpm) * division <= capacity)%Q <-> (60 * division <= capacity * bpm)%Q.
Proof.
  intros Hbpm. rewrite <- (Qmult_le_r _ _ bpm Hbpm).
  assert (Heq : (60 / bpm * division * bpm == 60 * division)%Q).
  { field. intros Hz. rewrite Hz in Hbpm. now apply Qlt_irrefl in Hbpm. }
  now rewrite Heq.
Qed.

(** X14.  In sync mode the delay time asked of [updateDelay] fits the two seconds
    the delay line can hold exactly when [30 * division <= bpm]: every
    division of the table fits from 120 bpm upwards, and below 120 bpm one
    bar does not.  The synced pre-delay of [updateReverb] fits its half second
    exactly when [120 * division <= bpm]. *)
Theorem synced_times_against_capacity (bpm : Q) :
  (0 < bpm)%Q ->
  (forall p : DelayParams, timeSync p = true ->
     (delayTime (updateDelay p bpm) <= delayCapacity)%Q
     <-> (30 * timeDivision p <= bpm)%Q) /\
  ((120 <= bpm)%Q ->
   forall (p : DelayParams) (label : string),
     timeSync p = true -> List.In (label, timeDivision p) TIME_DIVISIONS ->
     (delayTime (updateDelay p bpm) <= delayCapacity)%Q) /\
  ((bpm < 120)%Q ->
   forall p : DelayParams,
     timeSync p = true -> timeDivision p = 4%Q ->
     (delayCapacity < delayTime (updateDelay p bpm))%Q) /\
  (forall p : ReverbParams, preDelaySync p = true ->
     (preDelayTime (updateReverb p bpm) <= preDelayCapacity)%Q
     <-> (120 * preDelayDivision p <= bpm)%Q).
Proof.
  intros Hbpm.
  assert (Hdelay : forall p : DelayParams, timeSync p = true ->
            (delayTime (updateDelay p bpm) <= delayCapacity)%Q
            <-> (30 * timeDivision p <= bpm)%Q).
  { intros p Hsync. unfold updateDelay, delayCapacity. cbn. rewrite Hsync.
    rewrite synced_time_le by exact Hbpm. split; intros H; lra. }
  split; [exact Hdelay |].
  split.
  { intros Hfast p label Hsync Hin. apply Hdelay; [exact Hsync |].
    assert (Hmax : (timeDivision p <= 4)%Q).
    { unfold TIME_DIVISIONS in Hin. cbn [List.In] in Hin.
      repeat (destruct Hin as [[= _ <-] | Hin]; [vm_compute; discriminate |]).
      destruct Hin. }
    lra. }
  split.
  { intros Hslow p Hsync Hbar. apply Qnot_le_lt. intros Hfit.
    apply Hdelay in Hfit; [| exact Hsync]. rewrite Hbar in Hfit. lra. }
  intros p Hsync. unfold updateReverb, preDelayCapacity. cbn. rewrite Hsync.
  rewrite synced_time_le by exact Hbpm. split; intros H; lra.
Qed.

Lemma synced_times_against_capacity_witness :
  (delayCapacity < delayTime (updateDelay oneBarDelay 100))%Q.
Proof.
  destruct (synced_times_against_capacity 100) as (_ & _ & Hslow & _).
  - reflexivity.
  - apply Hslow; reflexivity.
Defined.

End VoicesFacts.

(* ===================================================================== *)
(** * Further properties of the scheduler and of the export loop *)
(* ===================================================================== *)

Module SchedulerMore.
Import Types Engine Sequencer Transport SequencerFacts.

(** ** What one track contributes to one step *)

Lemma js_index_Some {A : Type} (arr : list A) (i : option Z) (x : A) :
  js_index arr i = Some x ->
  exists z, i = Some z /\ 0 <= z /\ arr !! Z.to_nat z = Some x.
Proof.
  unfold js_index. destruct i as [z |]; [| discriminate].
  destruct (Z.ltb_spec z 0) as [Hneg | Hnn]; [discriminate |].
  intros Hx. exists z. auto.
Qed.

(** The calls a track contributes at local index [idx]: common to both
    loops. *)
Lemma calls_at_index (audible : bool) (track : Track) (idx : option Z)
  (time : Q) (c : TriggerCall) :
  List.In c
    (if negb audible then []
     else match js_index (steps track) idx with
          | Some step =>
              if active step then
                [ {| tc_track := track; tc_pLocks := pLocks step;
                     tc_time := time; tc_note := noteOf step track;
                     tc_velocity := velocity step |} ]
              else []
          | None => []
          end) ->
  audible = true /\
  exists (i : Z) (step : StepState),
    idx = Some i /\ 0 <= i /\ steps track !! Z.to_nat i = Some step /\
    active step = true /\
    c = {| tc_track := track; tc_pLocks := pLocks step; tc_time := time;
           tc_note := noteOf step track; tc_velocity := velocity step |}.
Proof.
  destruct audible; cbn [negb]; [| intros []].
  destruct (js_index (steps track) idx) as [step |] eqn:Hidx; [| intros []].
  destruct (active step) eqn:Hact; [| intros []].
  intros [<- | []]. split; [reflexivity |].
  apply js_index_Some in Hidx as (i & -> & Hi & Hstep).
  exists i, step. auto.
Qed.

(** X15.  A call made for a track, by the scheduler or by the export loop, is for
    an audible track and for an active step whose index lies below the
    pattern length: the steps from [patternLength] on are never played, a
    muted or out-soloed track is never played, and a track is triggered at
    most once per step.  The call carries that step's lock and velocity, and
    its note or, without one, the track's default note. *)
Theorem calls_stay_inside_pattern (st : AppState) (track : Track) (i : Z) :
  (0 < bpm st)%Q -> (0 <= nextNoteTime st)%Q -> 0 <= i ->
  0 < patternLength track ->
  (List.length (scheduleTrack st track) <= 1)%nat /\
  (List.length (exportTrack st i track) <= 1)%nat /\
  (forall c, List.In c (scheduleTrack st track) \/ List.In c (exportTrack st i track) ->
     isAudible (soloedTrackId st) (mutedTracks st) track = true /\
     exists (k : Z) (step : StepState),
       0 <= k < patternLength track /\
       steps track !! Z.to_nat k = Some step /\ active step = true /\
       tc_track c = track /\ tc_pLocks c = pLocks step /\
       tc_velocity c = velocity step /\ tc_note c = noteOf step track).
Proof.
  intros Hbpm Ht Hi HL.
  split.
  { unfold scheduleTrack.
    destruct (negb _); [cbn; lia |].
    destruct (js_index _ _) as [step |]; [| cbn; lia].
    destruct (active step); cbn; lia. }
  split.
  { unfold exportTrack.
    destruct (negb _); [cbn; lia |].
    destruct (js_index _ _) as [step |]; [| cbn; lia].
    destruct (active step); cbn; lia. }
  intros c [Hin | Hin].
  - unfold scheduleTrack in Hin.
    apply calls_at_index in Hin as (Haud & k & step & Hk & Hk0 & Hstep & Hact & ->).
    split; [exact Haud |]. exists k, step.
    rewrite localStepIndex_mod in Hk by assumption. injection Hk as <-.
    pose proof (Z.mod_pos_bound (stepCount (bpm st) (nextNoteTime st) mod 16)
                  (patternLength track) HL).
    cbn [tc_track tc_pLocks tc_velocity tc_note].
    repeat split; try assumption; lia.
  - unfold exportTrack in Hin.
    apply calls_at_index in Hin as (Haud & k & step & Hk & Hk0 & Hstep & Hact & ->).
    split; [exact Haud |]. exists k, step.
    unfold js_rem in Hk.
    destruct (Z.eqb_spec (patternLength track) 0); [lia |]. injection Hk as <-.
    pose proof (Z.rem_bound_pos i (patternLength track) Hi HL).
    cbn [tc_track tc_pLocks tc_velocity tc_note].
    repeat split; try assumption; lia.
Qed.

Lemma calls_stay_inside_pattern_witness :
  (List.length (scheduleTrack (demoState 0) (downbeatTrack 12)) <= 1)%nat.
Proof.
  destruct (calls_stay_inside_pattern (demoState 0) (downbeatTrack 12) 0)
    as (Hone & _).
  - reflexivity.
  - discriminate.
  - lia.
  - cbn. lia.
  - exact Hone.
Defined.

(** ** The lookahead window *)

Lemma scheduleTrack_time (st : AppState) (track : Track) (c : TriggerCall) :
  List.In c (scheduleTrack st track) -> tc_time c = nextNoteTime st.
Proof.
  unfold scheduleTrack. intros Hin.
  apply calls_at_index in Hin as (_ & k & step & _ & _ & _ & _ & ->).
  reflexivity.
Qed.

(** What a run of the loop appends to the calls, and where it leaves the
    cursor. *)
Lemma scheduleNotes_window (fuel : nat) (now : Q) :
  forall st st',
    (0 < bpm st)%Q ->
    scheduleNotes fuel now st = Some st' ->
    exists added,
      triggered st' = triggered st ++ added /\
      (forall c, List.In c added ->
         (nextNoteTime st <= tc_time c)%Q /\
         (tc_time c < now + scheduleAheadTime)%Q) /\
      ((nextNoteTime st < now + scheduleAheadTime)%Q ->
       (nextNoteTime st' < now + scheduleAheadTime + stepTime (bpm st))%Q /\
       ((0 <= nextNoteTime st)%Q -> 0 <= currentStep st' <= 15)) /\
      ((now + scheduleAheadTime <= nextNoteTime st)%Q -> st' = st).
Proof.
  induction fuel as [| fuel IH]; intros st st' Hbpm; cbn [scheduleNotes];
    destruct (Qlt_le_dec (nextNoteTime st) (now + scheduleAheadTime))
      as [Hin | Hout];
    intros Hrun; try discriminate.
  - injection Hrun as <-. exists []. rewrite app_nil_r.
    repeat split; try reflexivity; intros;
      first [ lra | exfalso; lra
            | match goal with H : List.In _ [] |- _ => destruct H end ].
  - pose proof (stepTime_pos _ Hbpm) as Hs.
    destruct (IH (scheduleStep st) st' Hbpm Hrun)
      as (added & Hadd & Htimes & Hnext & Hstop).
    exists (List.flat_map (scheduleTrack st) (tracks st) ++ added).
    split; [rewrite Hadd; cbn [scheduleStep triggered]; now rewrite app_assoc |].
    split.
    { intros c Hc. apply List.in_app_iff in Hc as [Hc | Hc].
      - apply List.in_flat_map in Hc as (track & _ & Hc).
        apply scheduleTrack_time in Hc. rewrite Hc. split; lra.
      - destruct (Htimes c Hc) as [H1 H2]. cbn [scheduleStep nextNoteTime] in H1.
        split; lra. }
    split; [| intros; lra].
    intros _. cbn [scheduleStep nextNoteTime bpm] in Hnext, Hstop.
    destruct (Qlt_le_dec (nextNoteTime st + stepTime (bpm st))
                (now + scheduleAheadTime)) as [Hmore | Hdone].
    + destruct (Hnext Hmore) as [Hn Hcur]. split; [exact Hn |].
      intros H0. apply Hcur. lra.
    + rewrite (Hstop Hdone). cbn [scheduleStep nextNoteTime currentStep].
      split; [lra |]. intros H0.
      rewrite localCurrentStep_mod by assumption.
      pose proof (Z.mod_pos_bound (stepCount (bpm st) (nextNoteTime st)) 16).
      lia.
  - injection Hrun as <-. exists []. rewrite app_nil_r.
    repeat split; try reflexivity; intros;
      first [ lra | exfalso; lra
            | match goal with H : List.In _ [] |- _ => destruct H end ].
Qed.

(** X16.  For a positive tempo the scheduler loop ends, with the cursor at or past
    the end of the lookahead window and less than one step beyond it.  Every
    call it makes is timed at or after the old cursor and strictly inside the
    window; the published step lies between 0 and 15; tracks, tempo, mutes
    and solo are as before; and with the cursor already past the window the
    loop changes nothing. *)
Theorem scheduleNotes_lookahead (now : Q) (st : AppState) :
  (0 < bpm st)%Q ->
  exists (fuel : nat) (st' : AppState) (added : list TriggerCall),
    scheduleNotes fuel now st = Some st' /\
    (now + scheduleAheadTime <= nextNoteTime st')%Q /\
    tracks st' = tracks st /\ bpm st' = bpm st /\
    triggered st' = triggered st ++ added /\
    (forall c, List.In c added ->
       (nextNoteTime st <= tc_time c)%Q /\
       (tc_time c < now + scheduleAheadTime)%Q) /\
    ((nextNoteTime st < now + scheduleAheadTime)%Q ->
     (nextNoteTime st' < now + scheduleAheadTime + stepTime (bpm st))%Q /\
     ((0 <= nextNoteTime st)%Q -> 0 <= currentStep st' <= 15)) /\
    ((now + scheduleAheadTime <= nextNoteTime st)%Q -> st' = st).
Proof.
  intros Hbpm.
  destruct (scheduleNotes_terminates now st Hbpm) as (fuel & st' & Hrun & Hpast & Htr).
  destruct (scheduleNotes_window fuel now st st' Hbpm Hrun)
    as (added & Hadd & Htimes & Hnext & Hstop).
  exists fuel, st', added.
  repeat split; try assumption.
  - now apply (scheduleNotes_frame _ _ _ _ Hrun).
  - now apply Htimes.
  - now apply Htimes.
  - now apply Hnext.
  - apply Hnext; assumption.
  - apply Hnext; assumption.
Qed.

Lemma scheduleNotes_lookahead_witness :
  exists (fuel : nat) (st' : AppState),
    scheduleNotes fuel 0 (demoState 0) = Some st' /\
    (0 + scheduleAheadTime <= nextNoteTime st')%Q.
Proof.
  destruct (scheduleNotes_lookahead 0 (demoState 0)) as (fuel & st' & _ & Hrun & Hpast & _).
  - reflexivity.
  - exists fuel, st'. split; [exact Hrun | exact Hpast].
Defined.

End SchedulerMore.

(* ===================================================================== *)
(** * Properties of the edit commands *)
(* ===================================================================== *)

Module TransportFacts.
Import Types Engine Sequencer Transport.

(** ** Mute and solo *)

(** X17.  Soloing a track from the unsoloed state makes that track audible and
    every track with another id inaudible, whatever the mute set holds; the
    scheduler and the export loop then make no call for the others.  Soloing
    another track moves the solo; soloing the soloed track again clears it,
    and audibility is once more "not muted". *)
Theorem solo_overrides_mute (muted : gset Z) (soloId : Z) (track : Track) :
  let soloed := handleSoloToggle None soloId in
  (id track = soloId -> isAudible soloed muted track = true) /\
  (id track <> soloId ->
   isAudible soloed muted track = false /\
   forall st i,
     soloedTrackId st = soloed -> mutedTracks st = muted ->
     scheduleTrack st track = [] /\ exportTrack st i track = []) /\
  (forall other, other <> soloId -> handleSoloToggle soloed other = Some other) /\
  handleSoloToggle soloed soloId = None /\
  (isAudible (handleSoloToggle soloed soloId) muted track = true
   <-> id track ∉ muted).
Proof.
  cbn zeta. cbn [handleSoloToggle isAudible].
  split; [intros ->; apply Z.eqb_refl |].
  split.
  { intros Hne. assert (Hoff : (id track =? soloId) = false) by now apply Z.eqb_neq.
    split; [exact Hoff |].
    intros st i Hsolo Hmute. unfold scheduleTrack, exportTrack.
    rewrite Hsolo, Hmute. cbn [isAudible]. rewrite Hoff. split; reflexivity. }
  split.
  { intros other Hne. destruct (Z.eqb_spec soloId other); [congruence | reflexivity]. }
  rewrite Z.eqb_refl. split; [reflexivity |].
  cbn [isAudible]. rewrite negb_true_iff, bool_decide_eq_false. reflexivity.
Qed.

Lemma solo_overrides_mute_witness :
  isAudible (handleSoloToggle None 0) {[ 1 ]} (downbeatTrack 12) = false.
Proof.
  destruct (solo_overrides_mute {[ 1 ]} 0 (downbeatTrack 12)) as (_ & Hoff & _).
  destruct Hoff as [H _]; [discriminate | exact H].
Defined.

(** X18.  Toggling the mute of a track flips the membership of that id and of no
    other, and toggling it twice gives back the set. *)
Theorem handleMuteToggle_involution (muted : gset Z) (trackId : Z) :
  (trackId ∈ handleMuteToggle muted trackId <-> trackId ∉ muted) /\
  (forall other, other <> trackId ->
     (other ∈ handleMuteToggle muted trackId <-> other ∈ muted)) /\
  handleMuteToggle (handleMuteToggle muted trackId) trackId = muted.
Proof.
  unfold handleMuteToggle.
  destruct (decide (trackId ∈ muted)) as [Hin | Hout].
  - rewrite (bool_decide_eq_true_2 _ Hin).
    assert (Hgone : trackId ∉ muted ∖ {[trackId]}).
    { rewrite elem_of_difference, elem_of_singleton. tauto. }
    rewrite (bool_decide_eq_false_2 _ Hgone).
    split; [tauto |]. split.
    + intros other Hne. rewrite elem_of_difference, elem_of_singleton. tauto.
    + apply set_eq. intros x.
      rewrite elem_of_union, elem_of_difference, elem_of_singleton.
      destruct (decide (x = trackId)) as [-> | Hx]; tauto.
  - rewrite (bool_decide_eq_false_2 _ Hout).
    assert (Hthere : trackId ∈ muted ∪ {[trackId]}).
    { rewrite elem_of_union, elem_of_singleton. tauto. }
    rewrite (bool_decide_eq_true_2 _ Hthere).
    split; [tauto |]. split.
    + intros other Hne. rewrite elem_of_union, elem_of_singleton. tauto.
    + apply set_eq. intros x.
      rewrite elem_of_difference, elem_of_union, elem_of_singleton.
      destruct (decide (x = trackId)) as [-> | Hx]; tauto.
Qed.

(** ** Clicking a step *)

Lemma withSteps_same (track : Track) : withSteps track (steps track) = track.
Proof. destruct track; reflexivity. Qed.

Lemma toggleStep_involution (track track' : Track) (i : nat) :
  toggleStep track i = Some track' ->
  toggleStep track' i = Some track /\ id track' = id track.
Proof.
  unfold toggleStep. destruct (steps track !! i) as [step |] eqn:Hstep;
    [| discriminate].
  cbn [mbind option_bind]. intros [= <-]. cbn [withSteps steps id].
  split; [| reflexivity].
  rewrite list_lookup_insert_eq by (now apply lookup_lt_Some in Hstep).
  cbn [mbind option_bind active pLocks note velocity]. f_equal.
  unfold withSteps. cbn. rewrite list_insert_insert_eq, negb_involutive.
  rewrite list_insert_id; [now destruct track |].
  rewrite Hstep. now destruct step.
Qed.

Lemma toggleStep_frame (track track' : Track) (i : nat) :
  toggleStep track i = Some track' ->
  exists step,
    steps track !! i = Some step /\
    steps track' !! i
    = Some {| active := negb (active step); pLocks := pLocks step;
              note := note step; velocity := velocity step |} /\
    (forall j, j <> i -> steps track' !! j = steps track !! j) /\
    params track' = params track /\ fxSends track' = fxSends track /\
    volume track' = volume track /\ patternLength track' = patternLength track.
Proof.
  unfold toggleStep. destruct (steps track !! i) as [step |] eqn:Hstep;
    [| discriminate].
  cbn [mbind option_bind]. intros [= <-]. exists step. cbn.
  split; [reflexivity |]. split.
  { apply list_lookup_insert_eq. now apply lookup_lt_Some in Hstep. }
  split; [| repeat split].
  intros j Hj. now apply list_lookup_insert_ne.
Qed.

(** X19.  Outside lock mode a click flips the [active] flag of the clicked step of
    the clicked track and changes nothing else: not the step's lock, note or
    velocity, no other step, no other track, not the lock selection.  A
    second click on the same step gives back the tracks as they were.  In
    lock mode a click leaves the tracks alone and only selects the step for
    lock editing, or unselects it when it is the selected one. *)
Theorem handleStepClick_toggles (editStep : option (Z * nat))
  (tracks tracks' : list Track) (editStep' : option (Z * nat))
  (trackId : Z) (stepIndex : nat) :
  handleStepClick false editStep tracks trackId stepIndex
  = Some (tracks', editStep') ->
  editStep' = editStep /\
  handleStepClick false editStep tracks' trackId stepIndex
  = Some (tracks, editStep) /\
  Forall2
    (fun track track' =>
       if id track =? trackId then
         exists step,
           steps track !! stepIndex = Some step /\
           steps track' !! stepIndex
           = Some {| active := negb (active step); pLocks := pLocks step;
                     note := note step; velocity := velocity step |} /\
           (forall j, j <> stepIndex -> steps track' !! j = steps track !! j) /\
           params track' = params track /\ fxSends track' = fxSends track /\
           volume track' = volume track /\
           patternLength track' = patternLength track
       else track' = track)
    tracks tracks' /\
  handleStepClick true editStep tracks trackId stepIndex
  = Some (tracks,
          if bool_decide (editStep = Some (trackId, stepIndex)) then None
          else Some (trackId, stepIndex)).
Proof.
  unfold handleStepClick.
  destruct (mapM _ tracks) as [ts |] eqn:Hmap; [| discriminate].
  cbn [mbind option_bind]. intros [= <- <-].
  apply mapM_Some_1 in Hmap.
  split; [reflexivity |]. split.
  { assert (Hback : mapM (fun track =>
                            if id track =? trackId then toggleStep track stepIndex
                            else Some track) ts = Some tracks).
    { apply mapM_Some_2. apply Forall2_flip.
      eapply Forall2_impl; [exact Hmap |]. cbn beta. intros x y Hxy.
      destruct (Z.eqb_spec (id x) trackId) as [Hid | Hid].
      - apply toggleStep_involution in Hxy as [Hy Hidy].
        rewrite Hidy. destruct (Z.eqb_spec (id x) trackId); [exact Hy | lia].
      - injection Hxy as <-.
        destruct (Z.eqb_spec (id x) trackId); [lia | reflexivity]. }
    rewrite Hback. reflexivity. }
  split.
  { eapply Forall2_impl; [exact Hmap |]. cbn beta. intros x y Hxy.
    destruct (id x =? trackId).
    - now apply toggleStep_frame.
    - now injection Hxy as <-. }
  destruct editStep as [[t s] |]; [| now rewrite bool_decide_eq_false_2].
  destruct (Z.eqb_spec t trackId) as [-> | Ht];
    destruct (Nat.eqb_spec s stepIndex) as [-> | Hs]; cbn [andb].
  - now rewrite bool_decide_eq_true_2.
  - rewrite bool_decide_eq_false_2; [reflexivity | congruence].
  - rewrite bool_decide_eq_false_2; [reflexivity | congruence].
  - rewrite bool_decide_eq_false_2; [reflexivity | congruence].
Qed.

Lemma handleStepClick_toggles_witness :
  exists tracks',
    handleStepClick false None [downbeatTrack 16] 1 3 = Some (tracks', None) /\
    handleStepClick false None tracks' 1 3 = Some ([downbeatTrack 16], None).
Proof.
  eexists. split; [reflexivity |].
  destruct (handleStepClick_toggles None [downbeatTrack 16] _ None 1 3 eq_refl)
    as (_ & Hback & _).
  exact Hback.
Defined.

(** ** Clearing the locks of a track *)

(** X20.  After "clear locks" every step of the track has no lock, no note of its
    own and velocity 1, and is active exactly if it was; so every step
    resolves to the track's base parameters, FX sends and volume and plays
    the default note.  The track keeps its base configuration and its number
    of steps, and tracks with another id are untouched. *)
Theorem handleClearPLocksForTrack_resets (tracks : list Track) (trackId : Z) :
  Forall2
    (fun track track' =>
       if id track =? trackId then
         id track' = id track /\ type track' = type track /\
         params track' = params track /\ fxSends track' = fxSends track /\
         volume track' = volume track /\
         patternLength track' = patternLength track /\
         List.length (steps track') = List.length (steps track) /\
         forall (j : nat) (step' : StepState),
           steps track' !! j = Some step' ->
           pLocks step' = None /\ note step' = None /\ velocity step' = 1%Q /\
           (exists step, steps track !! j = Some step /\ active step' = active step) /\
           resolveParams (type track') track' (pLocks step') = params track /\
           resolveFxSends track' (pLocks step') = fxSends track /\
           resolveVolume track' (pLocks step') = volume track /\
           noteOf step' track' = defaultNote track /\
           Components.hasLocks step' = false
       else track' = track)
    tracks (handleClearPLocksForTrack tracks trackId).
Proof.
  unfold handleClearPLocksForTrack. apply Forall2_fmap_r, Forall_Forall2_diag.
  apply Forall_forall. intros track _. unfold compose. cbn beta.
  destruct (id track =? trackId); [| reflexivity].
  cbn [withSteps id type params fxSends volume patternLength steps].
  do 6 (split; [reflexivity |]).
  split; [apply List.length_map |].
  intros j step' Hj. change (List.map clearStep (steps track)) with
    (clearStep <$> steps track) in Hj.
  rewrite list_lookup_fmap in Hj.
  destruct (steps track !! j) as [step |] eqn:Hstep; [| discriminate].
  injection Hj as <-. cbn [clearStep pLocks note velocity active].
  do 3 (split; [reflexivity |]).
  split; [eauto |].
  unfold resolveParams, resolveFxSends, resolveVolume, noteOf.
  cbn [mbind option_bind from_option id params fxSends volume note defaultNote].
  rewrite !EngineFacts.spread_empty. repeat split.
Qed.

(** ** Mixer edits *)


(** ** Turning a knob of the instrument editor *)

Lemma lockParam_is_Some (track : Track) (i : nat) (param : string) (v : value) :
  is_Some (lockParam track i param v) <-> (i < List.length (steps track))%nat.
Proof.
  unfold lockParam. rewrite <- lookup_lt_is_Some.
  destruct (steps track !! i); cbn [mbind option_bind]; split;
    intros [x Hx]; try discriminate; eauto.
Qed.

(** X22.  Outside lock editing (lock mode off, or no step selected) a knob writes
    the base parameter of the selected track and nothing else, and cannot
    fail.  The edit is heard on every step whose lock does not carry that
    parameter; a step whose lock carries it keeps sounding the locked value.
    Every other parameter resolves as before on every step, and tracks with
    another id are untouched. *)
Theorem handleParamChange_base_edit (selectedTrackId : Z)
  (pLockModeActive : bool) (pLockEditStep : option (Z * nat))
  (tracks : list Track) (param : string) (v : value) :
  pLockModeActive = false \/ pLockEditStep = None ->
  exists tracks',
    handleParamChange selectedTrackId pLockModeActive pLockEditStep tracks
      param v = Some tracks' /\
    Forall2
      (fun track track' =>
         if id track =? selectedTrackId then
           id track' = id track /\ type track' = type track /\
           steps track' = steps track /\ fxSends track' = fxSends track /\
           volume track' = volume track /\
           patternLength track' = patternLength track /\
           params track' !! param = Some v /\
           forall pl : option PLocks,
             let locked := default ∅ (pl ≫= kindParams (type track)) in
             (locked !! param = None ->
              resolveParams (type track') track' pl !! param = Some v) /\
             (forall l, locked !! param = Some l ->
              resolveParams (type track') track' pl !! param = Some l) /\
             (forall other, other <> param ->
              resolveParams (type track') track' pl !! other
              = resolveParams (type track) track pl !! other)
         else track' = track)
      tracks tracks'.
Proof.
  intros Hmode.
  set (edit := fun track =>
         {| id := id track; name := name track; type := type track;
            params := <[param := v]> (params track);
            fxSends := fxSends track; volume := volume track;
            patternLength := patternLength track;
            defaultNote := defaultNote track; steps := steps track |}).
  assert (Hedit : forall track,
             paramChangeOnTrack pLockModeActive pLockEditStep track param v
             = Some (edit track)).
  { intros track. unfold paramChangeOnTrack.
    destruct Hmode as [-> | ->]; [reflexivity |].
    now destruct pLockModeActive. }
  exists ((fun track => if id track =? selectedTrackId then edit track else track)
            <$> tracks).
  split.
  - unfold handleParamChange. apply mapM_Some_2, Forall2_fmap_r.
    apply Forall_Forall2_diag, Forall_forall. intros track _.
    unfold compose. cbn beta. rewrite Hedit.
    now destruct (id track =? selectedTrackId).
  - apply Forall2_fmap_r, Forall_Forall2_diag, Forall_forall.
    intros track _. unfold compose. cbn beta.
    destruct (id track =? selectedTrackId); [| reflexivity].
    cbn [edit id type steps fxSends volume patternLength params].
    do 6 (split; [reflexivity |]).
    split; [apply lookup_insert_eq |].
    intros pl. unfold resolveParams. cbn zeta.
    set (locked := default ∅ (pl ≫= kindParams (type track))).
    split; [| split].
    + intros Hnone. rewrite EngineFacts.lookup_spread, Hnone.
      apply lookup_insert_eq.
    + intros l Hl. now rewrite EngineFacts.lookup_spread, Hl.
    + intros other Hother. rewrite !EngineFacts.lookup_spread.
      destruct (locked !! other); [reflexivity |].
      now apply lookup_insert_ne.
Qed.

Lemma handleParamChange_base_edit_witness :
  exists tracks',
    handleParamChange 1 false None [downbeatTrack 16] "decay" (VNum 0.2)
    = Some tracks'.
Proof.
  destruct (handleParamChange_base_edit 1 false None [downbeatTrack 16]
              "decay" (VNum 0.2) (or_introl eq_refl)) as (tracks' & H & _).
  exists tracks'. exact H.
Defined.

(** X23.  During lock editing a knob writes the lock to step
    [pLockEditStep.stepIndex] of the SELECTED track, whatever track the edit
    step names: that step then resolves the parameter to the new value, the
    base configuration and all other steps of the selected track stay, and
    every other track, the one the edit step names included, is untouched.
    The update throws exactly when a track with the selected id has no step
    at that index. *)
Theorem handleParamChange_lock_edit (selectedTrackId editTrackId : Z)
  (stepIndex : nat) (tracks : list Track) (param : string) (v : value) :
  (is_Some (handleParamChange selectedTrackId true
              (Some (editTrackId, stepIndex)) tracks param v) <->
   Forall (fun track => id track = selectedTrackId ->
                        (stepIndex < List.length (steps track))%nat) tracks) /\
  forall tracks',
    handleParamChange selectedTrackId true (Some (editTrackId, stepIndex))
      tracks param v = Some tracks' ->
    Forall2
      (fun track track' =>
         if id track =? selectedTrackId then
           id track' = id track /\ type track' = type track /\
           params track' = params track /\ fxSends track' = fxSends track /\
           volume track' = volume track /\
           patternLength track' = patternLength track /\
           (forall j : nat, j <> stepIndex ->
                            steps track' !! j = steps track !! j) /\
           exists locked : StepState,
             steps track' !! stepIndex = Some locked /\
             resolveParams (type track') track' (pLocks locked) !! param
             = Some v
         else track' = track)
      tracks tracks'.
Proof.
  unfold handleParamChange. split.
  - rewrite mapM_is_Some. apply Forall_iff. intros track.
    unfold compose. cbn beta. cbn [paramChangeOnTrack].
    destruct (Z.eqb_spec (id track) selectedTrackId) as [Hid | Hid].
    + rewrite lockParam_is_Some. tauto.
    + split; [intros _ Habs; contradiction | eauto].
  - intros tracks' Hmap. apply mapM_Some_1 in Hmap.
    eapply Forall2_impl; [exact Hmap |]. cbn beta. intros track track' Hstep.
    destruct (id track =? selectedTrackId).
    + cbn [paramChangeOnTrack] in Hstep.
      apply SequencerFacts.lockParam_frame in Hstep.
      destruct Hstep as (? & ? & ? & ? & ? & ? & _ & ? & ?). auto 10.
    + now injection Hstep as <-.
Qed.

Lemma handleParamChange_lock_edit_witness :
  exists tracks',
    handleParamChange 1 true (Some (7, 3%nat)) [downbeatTrack 16] "decay"
      (VNum 0.2) = Some tracks' /\
    Forall2
      (fun track track' =>
         if id track =? 1 then
           id track' = id track /\ type track' = type track /\
           params track' = params track /\ fxSends track' = fxSends track /\
           volume track' = volume track /\
           patternLength track' = patternLength track /\
           (forall j : nat, j <> 3%nat -> steps track' !! j = steps track !! j) /\
           exists locked : StepState,
             steps track' !! 3%nat = Some locked /\
             resolveParams (type track') track' (pLocks locked) !! "decay"
             = Some (VNum 0.2)
         else track' = track)
      [downbeatTrack 16] tracks'.
Proof.
  eexists. split; [reflexivity |].
  destruct (handleParamChange_lock_edit 1 7 3 [downbeatTrack 16] "decay"
              (VNum 0.2)) as [_ H].
  exact (H _ eq_refl).
Defined.

(** ** Randomizing a track *)

Lemma Qfloor_range (q : Q) (a b : Z) :
  (inject_Z a <= q)%Q -> (q < inject_Z b)%Q -> a <= Qfloor q < b.
Proof.
  intros Hlo Hhi. split.
  - rewrite <- (Qfloor_Z a). now apply Qfloor_resp_le.
  - rewrite Zlt_Qlt. eapply Qle_lt_trans; [apply Qfloor_le | exact Hhi].
Qed.

Lemma melodicScale_pick (r : Q) :
  (0 <= r)%Q -> (r < 1)%Q ->
  exists nm,
    js_index melodicScale
      (Some (Qfloor (r * inject_Z (Z.of_nat (List.length melodicScale)))))
    = Some nm /\ List.In nm melodicScale.
Proof.
  intros H0 H1.
  change (inject_Z (Z.of_nat (List.length melodicScale))) with 11%Q.
  destruct (Qfloor_range (r * 11) 0 11) as [Hlo Hhi].
  { change (inject_Z 0) with 0%Q. lra. }
  { change (inject_Z 11) with 11%Q. lra. }
  unfold js_index. destruct (Z.ltb_spec (Qfloor (r * 11)) 0) as [? | _]; [lia |].
  destruct (lookup_lt_is_Some_2 melodicScale (Z.to_nat (Qfloor (r * 11))))
    as [nm Hnm].
  { change (List.length melodicScale) with 11%nat. lia. }
  exists nm. split; [exact Hnm |].
  apply list_elem_of_In. eapply list_elem_of_lookup_2. exact Hnm.
Qed.

Lemma melodicScale_pitches (nm : string) :
  List.In nm melodicScale ->
  exists m, Utils.noteNameToMidi nm = Utils.Int m /\ 48 <= m <= 72.
Proof.
  unfold melodicScale. cbn [List.In].
  intros H.
  repeat match goal with
         | H : _ \/ _ |- _ =>
             destruct H as [<- | H];
               [eexists; split; [vm_compute; reflexivity | lia] |]
         end.
  contradiction.
Qed.

Lemma randomStep_ok (rand : nat -> Q) (ty : TrackType) (n : nat) :
  unitStream rand -> randomizedStep ty (randomStep rand ty n).1.
Proof.
  intros Hrand. unfold randomStep, randomizedStep.
  destruct (Hrand (S n)) as [Hv0 Hv1].
  destruct (Qgtb (rand n) 0.65); destruct (isMelodic ty) eqn:Hmel;
    cbn [andb fst pLocks velocity note active];
    (split; [reflexivity |]); (split; [lra |]); (split; [intros _; lra |]);
    try (intros _; reflexivity); try discriminate.
  destruct (Hrand (S (S n))) as [Hr0 Hr1].
  destruct (melodicScale_pick _ Hr0 Hr1) as (nm & -> & Hin). auto.
Qed.

Lemma randomSteps_ok (rand : nat -> Q) (ty : TrackType) (count n : nat) :
  unitStream rand ->
  List.length (randomSteps rand ty count n).1 = count /\
  Forall (randomizedStep ty) (randomSteps rand ty count n).1.
Proof.
  intros Hrand. revert n. induction count as [| k IH]; intros n.
  - split; [reflexivity | constructor].
  - cbn [randomSteps]. pose proof (randomStep_ok rand ty n Hrand) as Hstep.
    destruct (randomStep rand ty n) as [step n1].
    specialize (IH n1). destruct (randomSteps rand ty k n1) as [rest n2].
    cbn [fst] in *. destruct IH as [Hlen Hall].
    split; [cbn; now rewrite Hlen | now constructor].
Qed.

Lemma kickPass_ok (rand : nat -> Q) (i : nat) (newSteps : list StepState)
  (n : nat) :
  unitStream rand ->
  Forall (randomizedStep kick) newSteps ->
  List.length (kickPass rand i newSteps n).1 = List.length newSteps /\
  Forall (randomizedStep kick) (kickPass rand i newSteps n).1 /\
  forall (j : nat) (step : StepState),
    (kickPass rand i newSteps n).1 !! j = Some step ->
    ((i + j) mod 4 = 0)%nat -> active step = true /\ velocity step = 1%Q.
Proof.
  intros Hrand Hall. revert i n.
  induction Hall as [| step rest Hstep Hrest IH]; intros i n.
  - cbn. split; [reflexivity |]. split; [constructor |]. intros j s Hj.
    discriminate.
  - destruct Hstep as (Hpl & Hvel & _ & Hnote).
    assert (Hkeep : forall a v, (0.3 <= v <= 1)%Q ->
              randomizedStep kick
                {| active := a; pLocks := pLocks step; note := note step;
                   velocity := v |}).
    { intros a v Hv. unfold randomizedStep. cbn [pLocks velocity note active].
      split; [exact Hpl |]. split; [exact Hv |].
      split; [intros Hk; now contradiction Hk |].
      destruct (note step) as [nm |]; [| reflexivity].
      destruct Hnote as (_ & Hmel & _). discriminate Hmel. }
    cbn [kickPass].
    destruct (Nat.eqb_spec (i mod 4) 0) as [Hbeat | Hoff].
    + specialize (IH (S i) n).
      destruct (kickPass rand (S i) rest n) as [rest' n']. cbn [fst] in *.
      destruct IH as (Hlen & Hall' & Hbeats).
      split; [cbn; now rewrite Hlen |].
      split; [constructor; [apply Hkeep; lra | exact Hall'] |].
      intros [| j] s Hj Hmod.
      * injection Hj as <-. now cbn.
      * apply (Hbeats j s Hj). now replace (S i + j)%nat with (i + S j)%nat by lia.
    + destruct (Qgtb (rand n) 0.85).
      * specialize (IH (S i) (S (S n))).
        destruct (kickPass rand (S i) rest (S (S n))) as [rest' n'].
        cbn [fst] in *. destruct IH as (Hlen & Hall' & Hbeats).
        split; [cbn; now rewrite Hlen |].
        split; [constructor; [| exact Hall'] |].
        { apply Hkeep. destruct (Hrand (S n)). lra. }
        intros [| j] s Hj Hmod.
        -- exfalso. apply Hoff. now rewrite Nat.add_0_r in Hmod.
        -- apply (Hbeats j s Hj).
           now replace (S i + j)%nat with (i + S j)%nat by lia.
      * specialize (IH (S i) (S n)).
        destruct (kickPass rand (S i) rest (S n)) as [rest' n'].
        cbn [fst] in *. destruct IH as (Hlen & Hall' & Hbeats).
        split; [cbn; now rewrite Hlen |].
        split; [constructor; [apply Hkeep; exact Hvel | exact Hall'] |].
        intros [| j] s Hj Hmod.
        -- exfalso. apply Hoff. now rewrite Nat.add_0_r in Hmod.
        -- apply (Hbeats j s Hj).
           now replace (S i + j)%nat with (i + S j)%nat by lia.
Qed.

(** X24.  Whatever [Math.random] returns, a randomized track keeps its identity,
    kind, sound, sends, volume and default note, and gets sixteen fresh
    steps and a pattern length of 12 to 16 (16 for the kick), so the pattern
    never reaches past the steps.  Every step comes out without a lock:
    randomizing discards the parameter locks.  Velocities lie in [0.3, 1].
    A step has a note of its own only when it is active and the track is
    melodic, and that note is a scale name that [noteNameToMidi] reads as a
    pitch from 48 to 72.  On the kick the four main beats 0, 4, 8 and 12 are
    active at full velocity. *)
Theorem createRandomizedTrack_shape (rand : nat -> Q) (track : Track) (n : nat) :
  unitStream rand ->
  let track' := (createRandomizedTrack rand track n).1 in
  id track' = id track /\ name track' = name track /\
  type track' = type track /\ params track' = params track /\
  fxSends track' = fxSends track /\ volume track' = volume track /\
  defaultNote track' = defaultNote track /\
  List.length (steps track') = 16%nat /\
  12 <= patternLength track' <= 16 /\
  (type track = kick -> patternLength track' = 16) /\
  Forall (randomizedStep (type track)) (steps track') /\
  (forall (step : StepState) (nm : string),
      List.In step (steps track') -> note step = Some nm ->
      exists m, Utils.noteNameToMidi nm = Utils.Int m /\ 48 <= m <= 72) /\
  (type track = kick ->
   forall (j : nat) (step : StepState),
     steps track' !! j = Some step -> (j mod 4 = 0)%nat ->
     active step = true /\ velocity step = 1%Q).
Proof.
  intros Hrand.
  assert (Hlen : 12 <= 12 + Qfloor (rand n * 5) <= 16).
  { destruct (Hrand n) as [H0 H1].
    destruct (Qfloor_range (rand n * 5) 0 5) as [Hlo Hhi].
    - change (inject_Z 0) with 0%Q. lra.
    - change (inject_Z 5) with 5%Q. lra.
    - lia. }
  assert (Hcore :
    let track' := (createRandomizedTrack rand track n).1 in
    id track' = id track /\ name track' = name track /\
    type track' = type track /\ params track' = params track /\
    fxSends track' = fxSends track /\ volume track' = volume track /\
    defaultNote track' = defaultNote track /\
    List.length (steps track') = 16%nat /\
    12 <= patternLength track' <= 16 /\
    (type track = kick -> patternLength track' = 16) /\
    Forall (randomizedStep (type track)) (steps track') /\
    (type track = kick ->
     forall (j : nat) (step : StepState),
       steps track' !! j = Some step -> (j mod 4 = 0)%nat ->
       active step = true /\ velocity step = 1%Q)).
  { unfold createRandomizedTrack.
    destruct (type track) eqn:Hty.
    1: { pose proof (randomSteps_ok rand kick 16 n Hrand) as [Hl Hall].
         destruct (randomSteps rand kick 16 n) as [newSteps n2]. cbn [fst] in *.
         pose proof (kickPass_ok rand 0 newSteps n2 Hrand Hall)
           as (Hl' & Hall' & Hbeats).
         destruct (kickPass rand 0 newSteps n2) as [newSteps' n3].
         cbn [fst] in *. cbn.
         do 7 (split; [reflexivity |]).
         split; [congruence |]. split; [lia |]. split; [reflexivity |].
         split; [exact Hall' |]. intros _ j step Hj Hmod.
         now apply (Hbeats j step Hj). }
    all: match goal with
         | Hr : unitStream ?r, Hn : 12 <= _ <= 16
           |- context [randomSteps ?r ?ty 16 ?n1] =>
             let Hl := fresh "Hl" in
             let Hall := fresh "Hall" in
             pose proof (randomSteps_ok r ty 16 n1 Hr) as [Hl Hall];
             destruct (randomSteps r ty 16 n1) as [newSteps n2];
             cbn [fst] in *; cbn;
             do 7 (split; [reflexivity |]);
             (split; [exact Hl |]); (split; [exact Hn |]);
             (split; [discriminate |]); (split; [exact Hall | discriminate])
         end. }
  cbn zeta in *.
  destruct Hcore as (H1 & H2 & H3 & H4 & H5 & H6 & H7 & H8 & H9 & H10 & H11 & H12).
  do 11 (split; [assumption |]). split; [| exact H12].
  intros step nm Hin Hnote. apply melodicScale_pitches.
  rewrite Forall_forall in H11. apply list_elem_of_In in Hin.
  destruct (H11 step Hin) as (_ & _ & _ & Hn). rewrite Hnote in Hn.
  now destruct Hn as (_ & _ & ?).
Qed.

Lemma createRandomizedTrack_shape_witness :
  unitStream (fun _ => 0.7%Q) /\
  List.length (steps (createRandomizedTrack (fun _ => 0.7%Q)
                        (downbeatTrack 16) 0).1) = 16%nat.
Proof.
  assert (H : unitStream (fun _ => 0.7%Q)) by (intros n; split; lra).
  split; [exact H |].
  destruct (createRandomizedTrack_shape (fun _ => 0.7%Q) (downbeatTrack 16) 0 H)
    as (_ & _ & _ & _ & _ & _ & _ & Hlen & _).
  exact Hlen.
Defined.

(** ** Exporting four bars *)

Lemma stepTime_bounds (bpm : Q) :
  bpmDomain bpm -> (0.06 <= stepTime bpm <= 0.5)%Q.
Proof.
  intros [Hlo Hhi]. unfold stepTime. split.
  - apply Qle_shift_div_l; [reflexivity |].
    apply Qle_shift_div_l; lra.
  - apply Qle_shift_div_r; [reflexivity |].
    apply Qle_shift_div_r; lra.
Qed.

Lemma exportFrames_bounds (bpm : Q) :
  bpmDomain bpm ->
  169344 <= exportFrames bpm <= 1411200 /\
  (inject_Z 64 * stepTime bpm * 44100 <= inject_Z (exportFrames bpm))%Q.
Proof.
  intros Hbpm. pose proof (stepTime_bounds bpm Hbpm) as Hs.
  unfold exportFrames, exportDuration.
  change (60 / bpm / 4)%Q with (stepTime bpm).
  change (inject_Z numSteps) with 64%Q. change (inject_Z 64) with 64%Q.
  split; [split |].
  - rewrite <- (Qceiling_Z 169344). apply Qceiling_resp_le.
    change (inject_Z 169344) with 169344%Q. lra.
  - rewrite <- (Qceiling_Z 1411200). apply Qceiling_resp_le.
    change (inject_Z 1411200) with 1411200%Q. lra.
  - apply Qle_ceiling.
Qed.

Lemma exportSteps_time (st : AppState) (numSteps : nat) (c : TriggerCall) :
  List.In c (exportSteps st numSteps) ->
  exists k : nat,
    (k < numSteps)%nat /\
    tc_time c = (inject_Z (Z.of_nat k) * stepTime (bpm st))%Q.
Proof.
  unfold exportSteps, exportStep. rewrite List.in_flat_map.
  intros (k & Hk & Hc). apply List.in_seq in Hk.
  apply List.in_flat_map in Hc. destruct Hc as (track & _ & Hc).
  exists k. split; [lia |].
  unfold exportTrack in Hc.
  destruct (negb _); [destruct Hc |].
  destruct (js_index _ _) as [step |]; [| destruct Hc].
  destruct (active step); [| destruct Hc].
  destruct Hc as [<- | []]. reflexivity.
Qed.

(** X25.  Exporting at a tempo the BPM knob can reach (30 to 250) renders between
    169344 and 1411200 frames.  Each of the 64 steps of the export loop
    triggers at a time that is not negative and lies before the end of the
    rendered buffer.  Writing the rendered stereo buffer never throws: the
    file has 44 + 8 * frames bytes, declares 2 channels at 44100 Hz, and its
    two size fields hold 36 + 8 * frames and 8 * frames without wrapping. *)
Theorem handleExportWav_file (st : AppState) (buffer : WavUtils.AudioBuffer) :
  bpmDomain (bpm st) -> renderedShape (bpm st) buffer ->
  let frames := exportFrames (bpm st) in
  169344 <= frames <= 1411200 /\
  (forall c : TriggerCall,
      List.In c (exportSteps st (Z.to_nat numSteps)) ->
      (0 <= tc_time c)%Q /\ (tc_time c * 44100 < inject_Z frames)%Q) /\
  exists out : list Z,
    WavUtils.audioBufferToWav buffer = Some out /\
    Z.of_nat (List.length out) = 44 + 8 * frames /\
    WavUtils.uint_at out 4 4 = 36 + 8 * frames /\
    WavUtils.uint_at out 22 2 = 2 /\
    WavUtils.uint_at out 24 4 = 44100 /\
    WavUtils.uint_at out 40 4 = 8 * frames.
Proof.
  intros Hbpm (HC & HR & HF & Hc & _). cbn zeta.
  destruct (exportFrames_bounds _ Hbpm) as [Hframes Hceil].
  pose proof (stepTime_bounds _ Hbpm) as Hs.
  split; [exact Hframes |]. split.
  { intros c Hin. apply exportSteps_time in Hin.
    destruct Hin as (k & Hk & ->).
    change (Z.to_nat numSteps) with 64%nat in Hk.
    assert (H0 : (0 <= inject_Z (Z.of_nat k))%Q).
    { change 0%Q with (inject_Z 0). rewrite <- Zle_Qle. lia. }
    assert (H63 : (inject_Z (Z.of_nat k) <= 63)%Q).
    { change 63%Q with (inject_Z 63). rewrite <- Zle_Qle. lia. }
    change (inject_Z 64) with 64%Q in Hceil.
    set (s := stepTime (bpm st)) in *. set (x := inject_Z (Z.of_nat k)) in *.
    assert (Hx : (x * s <= 63 * s)%Q) by (apply Qmult_le_compat_r; lra).
    split; [apply Qmult_le_0_compat; lra | lra]. }
  rewrite (WavFacts.audioBufferToWav_bytes buffer Hc).
  eexists. split; [reflexivity |].
  rewrite HC, HR. change (Z.of_nat 2) with 2. rewrite HF.
  set (F := exportFrames (bpm st)) in *.
  split.
  { rewrite length_app, WavFacts.length_wav_header, WavFacts.length_interleaved.
    rewrite Hc, HC. rewrite <- HF. lia. }
  replace (8 * F) with (2 * F * 4) by lia.
  split; [WavFacts.header_field; WavFacts.exact_field 4%nat (36 + 2 * F * 4) |].
  split; [WavFacts.header_field |].
  split; [WavFacts.header_field |].
  WavFacts.header_field; WavFacts.exact_field 4%nat (2 * F * 4).
Qed.

Lemma handleExportWav_file_witness :
  exists out : list Z,
    WavUtils.audioBufferToWav silentRender = Some out /\
    Z.of_nat (List.length out) = 2822444.
Proof.
  assert (Hbpm : bpmDomain 120) by (split; lra).
  assert (Hshape : renderedShape 120 silentRender).
  { split; [reflexivity |]. split; [reflexivity |]. split.
    - unfold silentRender. cbn [WavUtils.length].
      rewrite Z2Nat.id by lia. reflexivity.
    - split; [reflexivity |]. unfold silentRender.
      cbn [WavUtils.length WavUtils.channelData].
      constructor; [apply length_replicate |].
      constructor; [apply length_replicate | constructor]. }
  destruct (handleExportWav_file (demoState 0) silentRender Hbpm Hshape)
    as (_ & _ & out & Hout & Hlen & _).
  exists out. split; [exact Hout |]. rewrite Hlen. reflexivity.
Defined.

End TransportFacts.

(* ===================================================================== *)
(** * Properties of the editor components *)
(* ===================================================================== *)

Module ComponentsFacts.
Import Types Engine Sequencer Transport Components.

(** ** The values shown by the instrument editor *)

Lemma getVal_resolveParams (track : Track) (pl : option PLocks)
  (paramName : string) :
  getVal track pl paramName
  = resolveParams (type track) track pl !! paramName.
Proof.
  unfold getVal, lockedVal, resolveParams.
  rewrite EngineFacts.lookup_spread.
  destruct pl as [lock |]; cbn [mbind option_bind from_option Datatypes.id].
  - destruct (kindParams (type track) lock) as [o |];
      cbn [mbind option_bind from_option Datatypes.id].
    + now destruct (o !! paramName).
    + now rewrite lookup_empty.
  - now rewrite lookup_empty.
Qed.

(** X26.  The instrument editor shows, for every parameter, exactly the value the
    voice is built from: [getVal] agrees with the lookup in the resolved
    parameters of the engine.  A parameter is marked as locked exactly when
    the step's lock carries it, and then the locked value is the one shown
    and played; otherwise it is the base value of the track. *)
Theorem getVal_shows_resolved (track : Track) (pl : option PLocks)
  (paramName : string) :
  getVal track pl paramName
  = resolveParams (type track) track pl !! paramName /\
  (isLocked track pl paramName = true ->
   getVal track pl paramName
   = default ∅ (pl ≫= kindParams (type track)) !! paramName) /\
  (isLocked track pl paramName = false ->
   getVal track pl paramName = params track !! paramName /\
   default ∅ (pl ≫= kindParams (type track)) !! paramName = None).
Proof.
  split; [apply getVal_resolveParams |].
  unfold getVal, isLocked, lockedVal.
  destruct pl as [lock |]; cbn [mbind option_bind from_option Datatypes.id].
  - destruct (kindParams (type track) lock) as [o |];
      cbn [mbind option_bind from_option Datatypes.id].
    + destruct (o !! paramName) as [v |]; split; try discriminate; auto.
    + rewrite lookup_empty. split; [discriminate | auto].
  - rewrite lookup_empty. split; [discriminate | auto].
Qed.

(** ** The two filter editors under a lock *)

Lemma lockParam_shows (track : Track) (stepIndex : nat) (step : StepState)
  (param : string) (v : value) :
  steps track !! stepIndex = Some step ->
  exists (track' : Track) (step' : StepState),
    lockParam track stepIndex param v = Some track' /\
    steps track' !! stepIndex = Some step' /\
    getVal track' (pLocks step') param = Some v.
Proof.
  intros Hstep.
  destruct (lockParam track stepIndex param v) as [track' |] eqn:Hlock.
  - destruct (SequencerFacts.lockParam_frame _ _ _ _ _ Hlock)
      as (_ & Hty & _ & _ & _ & _ & _ & _ & step' & Hstep' & Hres).
    exists track', step'. split; [reflexivity |]. split; [exact Hstep' |].
    rewrite getVal_resolveParams. exact Hres.
  - exfalso. unfold lockParam in Hlock. rewrite Hstep in Hlock. discriminate.
Qed.

(** X27.  On a step whose lock carries a whole filter, the two filter editors
    differ.  [FilterSection] builds the filter it sends from the BASE filter
    of the track, so once the edit is written as a lock the step shows and
    plays the base filter with the one edited field: the other locked fields
    are gone.  [handleNestedChange] builds it from the locked filter, so the
    step then has the locked filter with the one edited field. *)
Theorem filter_editors_under_lock (track : Track) (stepIndex : nat)
  (step : StepState) (base locked : FilterParams) (e : FilterEdit) :
  params track !! "filter"%string = Some (VFilter base) ->
  steps track !! stepIndex = Some step ->
  lockedVal track (pLocks step) "filter" = Some (VFilter locked) ->
  (exists (track' : Track) (step' : StepState),
      lockSent track stepIndex (filterSectionChange track e) = Some track' /\
      steps track' !! stepIndex = Some step' /\
      getVal track' (pLocks step') "filter"
      = Some (VFilter (applyFilterEdit base e))) /\
  (exists (track' : Track) (step' : StepState),
      lockSent track stepIndex (nestedFilterChange track (pLocks step) e)
      = Some track' /\
      steps track' !! stepIndex = Some step' /\
      getVal track' (pLocks step') "filter"
      = Some (VFilter (applyFilterEdit locked e))).
Proof.
  intros Hbase Hstep Hlocked. split.
  - unfold filterSectionChange. rewrite Hbase. cbn [lockSent mbind option_bind fst snd].
    now apply lockParam_shows with (step := step).
  - unfold nestedFilterChange, getVal. rewrite Hlocked.
    cbn [lockSent mbind option_bind fst snd].
    now apply lockParam_shows with (step := step).
Qed.

Lemma filter_editors_under_lock_witness :
  exists (track' : Track) (step' : StepState),
    lockSent lockedFilterTrack 0
      (filterSectionChange lockedFilterTrack (EditResonance 9)) = Some track' /\
    steps track' !! 0%nat = Some step' /\
    getVal track' (pLocks step') "filter"
    = Some (VFilter {| filter_type := lowpass; cutoff := 800; resonance := 9;
                       envAmount := None |}).
Proof.
  destruct (filter_editors_under_lock lockedFilterTrack 0 _ _ _
              (EditResonance 9) eq_refl eq_refl eq_refl) as [H _].
  exact H.
Defined.

(** ** Selector *)

Lemma findIndex_from_absent (k : Z) (options : list (string * string))
  (v : string) :
  ~ List.In v (List.map fst options) -> findIndex_from k options v = -1.
Proof.
  revert k. induction options as [| o tl IH]; intros k Hnot; [reflexivity |].
  cbn [findIndex_from]. cbn [List.map List.In] in Hnot.
  destruct (String.eqb_spec (fst o) v) as [Heq | Hne]; [tauto |].
  apply IH. tauto.
Qed.

Lemma findIndex_from_present (k : Z) (options : list (string * string))
  (v : string) :
  List.In v (List.map fst options) ->
  exists (i : nat) (o : string * string),
    findIndex_from k options v = k + Z.of_nat i /\
    options !! i = Some o /\ fst o = v.
Proof.
  revert k. induction options as [| o tl IH]; intros k Hin; [destruct Hin |].
  cbn [findIndex_from].
  destruct (String.eqb_spec (fst o) v) as [Heq | Hne].
  - exists 0%nat, o. split; [lia |]. split; [reflexivity | exact Heq].
  - destruct Hin as [Heq | Hin]; [contradiction |].
    destruct (IH (k + 1) Hin) as (i & o' & Hidx & Ho' & Hv).
    exists (S i), o'. split; [lia |]. split; [exact Ho' | exact Hv].
Qed.

Lemma findIndex_from_NoDup (k : Z) (options : list (string * string))
  (i : nat) (o : string * string) :
  List.NoDup (List.map fst options) -> options !! i = Some o ->
  findIndex_from k options (fst o) = k + Z.of_nat i.
Proof.
  revert k i. induction options as [| o0 tl IH]; intros k i Hnd Hi;
    [discriminate |].
  cbn [List.map] in Hnd. inversion Hnd as [| ? ? Hnotin Hnd']; subst.
  cbn [findIndex_from]. destruct i as [| i].
  - injection Hi as <-. rewrite String.eqb_refl. lia.
  - cbn in Hi. destruct (String.eqb_spec (fst o0) (fst o)) as [Heq | Hne].
    + exfalso. apply Hnotin. rewrite Heq. apply List.in_map.
      apply list_elem_of_In. eapply list_elem_of_lookup_2. exact Hi.
    + rewrite (IH (k + 1) i Hnd' Hi). lia.
Qed.

Lemma wrap_succ_pred (i n : Z) :
  0 <= i < n ->
  0 <= (i + 1) mod n < n /\ 0 <= (i - 1 + n) mod n < n /\
  ((i + 1) mod n - 1 + n) mod n = i /\ ((i - 1 + n) mod n + 1) mod n = i.
Proof.
  intros Hi.
  split; [apply Z.mod_pos_bound; lia |].
  split; [apply Z.mod_pos_bound; lia |].
  split.
  - destruct (Z.eq_dec (i + 1) n) as [Heq | Hne].
    + rewrite Heq, Z.mod_same by lia. rewrite Z.mod_small; lia.
    + rewrite (Z.mod_small (i + 1) n) by lia.
      replace (i + 1 - 1 + n) with (i + 1 * n) by lia.
      rewrite Z.mod_add by lia. apply Z.mod_small; lia.
  - destruct (Z.eq_dec i 0) as [-> | Hne].
    + rewrite (Z.mod_small (0 - 1 + n) n) by lia.
      replace (0 - 1 + n + 1) with n by lia. apply Z.mod_same. lia.
    + replace (i - 1 + n) with (i - 1 + 1 * n) by lia.
      rewrite Z.mod_add by lia. rewrite (Z.mod_small (i - 1) n) by lia.
      replace (i - 1 + 1) with i by lia. apply Z.mod_small. lia.
Qed.

Lemma selector_pick (options : list (string * string)) (z : Z) :
  0 <= z < Z.of_nat (List.length options) ->
  exists o, options !! Z.to_nat z = Some o /\
            fst <$> js_index options (js_rem z (Z.of_nat (List.length options)))
            = Some (fst o).
Proof.
  intros Hz.
  destruct (lookup_lt_is_Some_2 options (Z.to_nat z)) as [o Ho]; [lia |].
  exists o. split; [exact Ho |].
  unfold js_rem. destruct (Z.eqb_spec (Z.of_nat (List.length options)) 0); [lia |].
  rewrite Z.rem_small by lia. unfold js_index.
  destruct (Z.ltb_spec z 0); [lia |]. now rewrite Ho.
Qed.

(** X28.  For a selector whose option values are pairwise different and whose
    current value is one of them, both arrows return an option value, and
    they undo each other: "next" then "previous", and "previous" then "next",
    give back the current value.  For a value that is none of the options,
    "next" selects the first option (and throws on an empty list). *)
Theorem selector_arrows_inverse (options : list (string * string)) (v : string) :
  (List.NoDup (List.map fst options) -> List.In v (List.map fst options) ->
   exists w u : string,
     selectorNext options v = Some w /\ selectorPrev options w = Some v /\
     selectorPrev options v = Some u /\ selectorNext options u = Some v /\
     List.In w (List.map fst options) /\ List.In u (List.map fst options)) /\
  (~ List.In v (List.map fst options) ->
   selectorNext options v = fst <$> options !! 0%nat).
Proof.
  split.
  - intros Hnd Hin.
    destruct (findIndex_from_present 0 options v Hin) as (i & o & Hidx & Ho & Hv).
    rewrite Z.add_0_l in Hidx.
    set (n := Z.of_nat (List.length options)).
    assert (Hi : 0 <= Z.of_nat i < n).
    { apply lookup_lt_Some in Ho. subst n. lia. }
    destruct (wrap_succ_pred _ _ Hi) as (Hnext & Hprev & Hback & Hforth).
    destruct (selector_pick options _ Hnext) as (ow & How & Hw).
    destruct (selector_pick options _ Hprev) as (ou & Hou & Hu).
    fold n in Hw, Hu.
    assert (Hrem1 : Z.rem (Z.of_nat i + 1) n = (Z.of_nat i + 1) mod n)
      by (apply Z.rem_mod_nonneg; lia).
    assert (Hrem2 : Z.rem (Z.of_nat i - 1 + n) n = (Z.of_nat i - 1 + n) mod n)
      by (apply Z.rem_mod_nonneg; lia).
    assert (Hself : fst <$> js_index options (js_rem (Z.of_nat i) n) = Some v).
    { destruct (selector_pick options (Z.of_nat i) Hi) as (o' & Ho' & Hs).
      rewrite Nat2Z.id, Ho in Ho'. injection Ho' as <-. fold n in Hs.
      now rewrite Hs, Hv. }
    assert (Hjs : forall a b, 0 <= a -> Z.rem a n = b mod n ->
                  js_rem a n = js_rem (b mod n) n).
    { intros a b Ha Hab. unfold js_rem. destruct (n =? 0); [reflexivity |].
      rewrite Hab. f_equal. symmetry. apply Z.rem_small.
      apply Z.mod_pos_bound. lia. }
    exists (fst ow), (fst ou).
    assert (Hnextv : selectorNext options v = Some (fst ow)).
    { unfold selectorNext, findIndex. rewrite Hidx. fold n.
      rewrite (Hjs _ (Z.of_nat i + 1)) by (lia || exact Hrem1). exact Hw. }
    assert (Hprevv : selectorPrev options v = Some (fst ou)).
    { unfold selectorPrev, findIndex. rewrite Hidx. fold n.
      rewrite (Hjs _ (Z.of_nat i - 1 + n)) by (lia || exact Hrem2). exact Hu. }
    split; [exact Hnextv |]. split.
    { unfold selectorPrev, findIndex.
      rewrite (findIndex_from_NoDup 0 options _ ow Hnd How). fold n.
      rewrite Z.add_0_l, Z2Nat.id by lia.
      rewrite (Hjs _ ((Z.of_nat i + 1) mod n - 1 + n)).
      - rewrite Hback. exact Hself.
      - lia.
      - apply Z.rem_mod_nonneg; lia. }
    split; [exact Hprevv |]. split.
    { unfold selectorNext, findIndex.
      rewrite (findIndex_from_NoDup 0 options _ ou Hnd Hou). fold n.
      rewrite Z.add_0_l, Z2Nat.id by lia.
      rewrite (Hjs _ ((Z.of_nat i - 1 + n) mod n + 1)).
      - rewrite Hforth. exact Hself.
      - lia.
      - apply Z.rem_mod_nonneg; lia. }
    split; apply List.in_map, list_elem_of_In;
      eapply list_elem_of_lookup_2; eassumption.
  - intros Hnot. unfold selectorNext, findIndex.
    rewrite (findIndex_from_absent 0 options v Hnot).
    change (-1 + 1) with 0. unfold js_rem.
    destruct options as [| o tl]; [reflexivity |].
    destruct (Z.eqb_spec (Z.of_nat (List.length (o :: tl))) 0) as [H0 | _];
      [cbn in H0; lia |].
    rewrite Z.rem_0_l by (cbn; lia). reflexivity.
Qed.

Lemma selector_arrows_inverse_witness :
  exists w u : string,
    selectorNext [("lowpass", "LP"); ("highpass", "HP"); ("bandpass", "BP")]
      "bandpass" = Some w /\
    selectorPrev [("lowpass", "LP"); ("highpass", "HP"); ("bandpass", "BP")]
      w = Some "bandpass"%string /\
    selectorPrev [("lowpass", "LP"); ("highpass", "HP"); ("bandpass", "BP")]
      "bandpass" = Some u /\
    selectorNext [("lowpass", "LP"); ("highpass", "HP"); ("bandpass", "BP")]
      u = Some "bandpass"%string.
Proof.
  destruct (selector_arrows_inverse
              [("lowpass", "LP"); ("highpass", "HP"); ("bandpass", "BP")]%string
              "bandpass") as [H _].
  destruct H as (w & u & H1 & H2 & H3 & H4 & _).
  - cbn [List.map fst]. repeat constructor; cbn [List.In];
      intuition discriminate.
  - cbn. tauto.
  - exists w, u. auto.
Defined.

(** ** Knob *)

(** X29.  For a knob with [min < max] the pointer never leaves its arc of 270
    degrees, whatever value comes in: it stands at -135 degrees for a value
    at or below [min] and for a value that is not a number, at +135 degrees
    for a value at or above [max], and it never turns back when the value
    grows. *)
Theorem valueToRotation_arc (min max : Q) :
  (min < max)%Q ->
  (forall val, (-135 <= valueToRotation min max val <= 135)%Q) /\
  (valueToRotation min max None == -135)%Q /\
  (forall v, (v <= min)%Q -> (valueToRotation min max (Some v) == -135)%Q) /\
  (forall v, (max <= v)%Q -> (valueToRotation min max (Some v) == 135)%Q) /\
  (forall v w, (v <= w)%Q ->
     (valueToRotation min max (Some v) <= valueToRotation min max (Some w))%Q).
Proof.
  intros Hlt.
  assert (Hd : (0 < max - min)%Q) by lra.
  assert (Hclamp : forall x, (min <= Qmax min (Qmin max x) <= max)%Q).
  { intros x. split; [apply Q.le_max_l |].
    apply Q.max_lub; [lra | apply Q.le_min_l]. }
  assert (Hprog : forall c, (min <= c <= max)%Q ->
                    (0 <= (c - min) / (max - min) <= 1)%Q).
  { intros c [Hlo Hhi]. split.
    - apply Qle_shift_div_l; [exact Hd | lra].
    - apply Qle_shift_div_r; [exact Hd | lra]. }
  assert (Hlow : forall x, (x <= min)%Q ->
                   (valueToRotation min max (Some x) == -135)%Q).
  { intros x Hx. unfold valueToRotation. cbn [from_option Datatypes.id].
    set (c := Qmax min (Qmin max x)).
    assert (Hc : (c <= min)%Q).
    { apply Q.max_lub; [lra |].
      eapply Qle_trans; [apply Q.le_min_r | exact Hx]. }
    pose proof (Hprog c (Hclamp x)) as [Hp0 _].
    assert (Hp1 : ((c - min) / (max - min) <= 0)%Q)
      by (apply Qle_shift_div_r; [exact Hd | lra]).
    lra. }
  split.
  { intros val. unfold valueToRotation.
    pose proof (Hprog _ (Hclamp (default min val))) as Hp. cbn zeta. lra. }
  split; [apply (Hlow min); lra |].
  split; [exact Hlow |].
  split.
  { intros v Hv. unfold valueToRotation. cbn [from_option Datatypes.id].
    set (c := Qmax min (Qmin max v)).
    assert (Hc : (max <= c)%Q).
    { eapply Qle_trans; [| apply Q.le_max_r]. apply Q.min_glb; lra. }
    pose proof (Hprog c (Hclamp v)) as [_ Hp1].
    assert (Hp2 : (1 <= (c - min) / (max - min))%Q)
      by (apply Qle_shift_div_l; [exact Hd | lra]).
    lra. }
  intros v w Hvw. unfold valueToRotation. cbn [from_option Datatypes.id].
  assert (Hc : (Qmax min (Qmin max v) <= Qmax min (Qmin max w))%Q).
  { apply Q.max_le_compat_l. now apply Q.min_le_compat_l. }
  assert (Hp : ((Qmax min (Qmin max v) - min) / (max - min)
                <= (Qmax min (Qmin max w) - min) / (max - min))%Q).
  { unfold Qdiv. apply Qmult_le_compat_r; [lra |].
    apply Qinv_le_0_compat. lra. }
  lra.
Qed.

Lemma valueToRotation_arc_witness :
  (-135 <= valueToRotation 20 20000 (Some 30000) <= 135)%Q.
Proof.
  destruct (valueToRotation_arc 20 20000) as [H _]; [reflexivity |].
  apply H.
Defined.

End ComponentsFacts.
